(** * zero-mapper: the outbound-request governor ([SafeRequestManager])

    A shallow embedding of [src/utils/safe-request.ts] and the properties
    its design document states about it, followed by further properties of
    the governor and of the population script
    [scripts/populate-mappings.ts].

    Layout:
    - [JS]: the fragments of JavaScript semantics the class relies on
      (falsy defaults with [||], [parseInt], truthiness of strings);
      strings are held in UTF-8;
    - the data model ([RateLimiterConfig], axios responses and errors);
    - the pure methods ([shouldRetry], [calculateBackoffDelay],
      [getRetryDelay], [getDomain], [getConfig], [getLimiter]) and
      [getStats];
    - [Populate]: the population script (reading the ids from the
      sitemaps, the cache file, the batches of [main], [processAnime]);
    - the retry loop of [request] as a function of the outcomes of the
      successive axios calls, with [get] and [post];
    - the event-loop machine: several [request] calls interleaved at their
      [await] points over the shared limiters, watermarks and clock;
    - the theorems.

    Numbers: configuration fields, HTTP statuses and [Date.now()] readings
    are integers ([Z], milliseconds); delays that involve the jitter
    [Math.random() * baseDelay * 0.5] are exact rationals ([Q]); the
    rounding of IEEE doubles is not modelled. *)

From Stdlib Require Import ZArith QArith Qminmax Qround Lqa Lia Ascii String.
From stdpp Require Import base option list gmap strings pretty sorting.

Local Open Scope Z_scope.

(** ** JavaScript fragments *)

Module JS.

(** [x || d] on an optional number: [undefined] and [0] are falsy. *)
Definition or_default (x : option Z) (d : Z) : Z :=
  match x with
  | Some v => if v =? 0 then d else v
  | None => d
  end.

(** [s || d] on an optional string: [undefined] and [''] are falsy. *)
Definition or_string (x : option string) (d : string) : string :=
  match x with
  | Some EmptyString | None => d
  | Some s => s
  end.

(** Truthiness of a header value as tested by [if (retryAfter)]. *)
Definition truthy (x : option string) : bool :=
  match x with
  | Some EmptyString | None => false
  | Some _ => true
  end.

(** Strings.  A JavaScript string is represented by its UTF-8 encoding, as
    a string literal of this file is: an ASCII character is one byte, any
    other character two to four bytes, none of which is an ASCII byte.  A
    byte that does not begin a character in UTF-8 is read as the character
    with that code. *)

(** StrWhiteSpaceChar by code point, the characters [parseInt] skips:
    WhiteSpace (TAB, VT, FF, the space separators U+0020, U+00A0, U+1680,
    U+2000 to U+200A, U+202F, U+205F, U+3000, and U+FEFF) and LineTerminator
    (LF, CR, U+2028, U+2029). *)
Definition is_ws (c : N) : bool :=
  (((0x09 <=? c) && (c <=? 0x0D)) || (c =? 0x20) || (c =? 0xA0) || (c =? 0x1680)
   || ((0x2000 <=? c) && (c <=? 0x200A)) || (c =? 0x2028) || (c =? 0x2029)
   || (c =? 0x202F) || (c =? 0x205F) || (c =? 0x3000) || (c =? 0xFEFF))%N.

(** The code point of a two-byte and of a three-byte UTF-8 sequence;
    [None] when the bytes are not such a sequence.  (Characters of four
    bytes lie above U+FFFF; none of them is white space.) *)
Definition is_continuation (b : ascii) : bool :=
  ((0x80 <=? N_of_ascii b) && (N_of_ascii b <? 0xC0))%N.

Definition code2 (a b : ascii) : option N :=
  if ((0xC2 <=? N_of_ascii a) && (N_of_ascii a <? 0xE0))%N && is_continuation b
  then Some ((N_of_ascii a - 0xC0) * 64 + (N_of_ascii b - 0x80))%N
  else None.

Definition code3 (a b c : ascii) : option N :=
  let cp := ((N_of_ascii a - 0xE0) * 4096 + (N_of_ascii b - 0x80) * 64
             + (N_of_ascii c - 0x80))%N in
  if ((0xE0 <=? N_of_ascii a) && (N_of_ascii a <? 0xF0))%N
     && is_continuation b && is_continuation c && (0x800 <=? cp)%N
  then Some cp
  else None.

(** The UTF-8 encoding of a character below U+10000. *)
Definition utf8 (c : N) : string :=
  if (c <? 0x80)%N then String (ascii_of_N c) EmptyString
  else if (c <? 0x800)%N then
    String (ascii_of_N (0xC0 + c / 64)) (String (ascii_of_N (0x80 + c mod 64)) EmptyString)
  else
    String (ascii_of_N (0xE0 + c / 4096))
      (String (ascii_of_N (0x80 + (c / 64) mod 64))
         (String (ascii_of_N (0x80 + c mod 64)) EmptyString)).

(** [s] without its leading white space, read character by character.
    [single] is the result when the first character is the one byte [a]. *)
Fixpoint trimStart (s : string) : string :=
  match s with
  | String a s1 =>
      let single := if is_ws (N_of_ascii a) then trimStart s1 else s in
      if (N_of_ascii a <? 0x80)%N then single
      else
        match s1 with
        | String b s2 =>
            match code2 a b with
            | Some cp => if is_ws cp then trimStart s2 else s
            | None =>
                match s2 with
                | String c s3 =>
                    match code3 a b c with
                    | Some cp => if is_ws cp then trimStart s3 else s
                    | None => single
                    end
                | EmptyString => single
                end
            end
        | EmptyString => single
        end
  | EmptyString => EmptyString
  end.

(** Value of a digit character in radices up to 36. *)
Definition digit_value (a : ascii) : option Z :=
  let n := Z.of_nat (nat_of_ascii a) in
  if (48 <=? n) && (n <=? 57) then Some (n - 48)
  else if (97 <=? n) && (n <=? 122) then Some (n - 87)
  else if (65 <=? n) && (n <=? 90) then Some (n - 55)
  else None.

(** The longest prefix of radix-[R] digits, as a number; [None] when the
    prefix is empty and nothing was accumulated. *)
Fixpoint digits (R : Z) (s : string) (acc : option Z) : option Z :=
  match s with
  | String a s' =>
      match digit_value a with
      | Some d =>
          if d <? R then digits R s' (Some (default 0 acc * R + d)) else acc
      | None => acc
      end
  | EmptyString => acc
  end.

(** [parseInt(s)] with no radix argument; [None] is [NaN]. *)
Definition parseInt (s : string) : option Z :=
  let S0 := trimStart s in
  let '(sign, S1) :=
    match S0 with
    | String "-" r => (-1, r)
    | String "+" r => (1, r)
    | _ => (1, S0)
    end in
  let '(R, S2) :=
    match S1 with
    | String "0" (String "x" r) => (16, r)
    | String "0" (String "X" r) => (16, r)
    | _ => (10, S1)
    end in
  (fun n => sign * n) <$> digits R S2 None.

(** The ASCII letters. *)
Definition is_letter (a : ascii) : bool :=
  let n := nat_of_ascii a in
  (Nat.leb 65 n && Nat.leb n 90) || (Nat.leb 97 n && Nat.leb n 122).

(** The characters ["1"] to ["9"], with which the decimal numeral of a
    positive number starts. *)
Definition leading_digit (a : ascii) : bool :=
  let n := nat_of_ascii a in Nat.leb 49 n && Nat.leb n 57.

End JS.

(** ** Data model *)

(** [interface RateLimiterConfig]: every field is optional. *)
Record RateLimiterConfig := {
  maxRetries : option Z;
  baseDelay : option Z;
  maxDelay : option Z;
  timeout : option Z;
  concurrency : option Z
}.

(** The part of an [AxiosResponse] the manager looks at. *)
Record AxiosResponse := {
  status : Z;
  headers : gmap string string
}.

(** The part of an axios error the manager looks at: [error.response] and
    [error.code]. *)
Record AxiosError := {
  response : option AxiosResponse;
  code : option string
}.

(** Settlement of the promise returned by [axios(requestConfig)]. *)
Inductive Outcome :=
| Fulfilled (r : AxiosResponse)
| Threw (error : AxiosError).

(** The part of an [AxiosRequestConfig] the manager looks at. *)
Record AxiosRequestConfig := {
  url : option string;
  req_timeout : option Z
}.

(** [private minRequestInterval = 100]. *)
Definition minRequestInterval : Z := 100.

(** ** Pure methods *)

(** [calculateBackoffDelay]; [rnd] is the value [Math.random()] returns. *)
Definition calculateBackoffDelay (rnd : Q) (retryCount : nat)
    (baseDelay maxDelay : Z) : Q :=
  let exponentialDelay := (inject_Z baseDelay * inject_Z (2 ^ Z.of_nat retryCount))%Q in
  let jitter := (rnd * inject_Z baseDelay * (1 # 2))%Q in
  Qmin (exponentialDelay + jitter) (inject_Z maxDelay).

Definition is_timeout_code (c : option string) : bool :=
  bool_decide (c = Some "ECONNABORTED"%string) || bool_decide (c = Some "ETIMEDOUT"%string).

(** [shouldRetry]. *)
Definition shouldRetry (error : AxiosError) (retryCount : nat) (maxRetries : Z) : bool :=
  if Z.of_nat retryCount >=? maxRetries then false
  else match response error with
  | None => true
  | Some resp =>
      let status := status resp in
      if (status =? 429) || (status =? 503) || (status =? 502) || (status =? 504) then true
      else if is_timeout_code (code error) then true
      else if (status >=? 400) && (status <? 500) then false
      else if status >=? 500 then true
      else false
  end.

(** [error.response?.headers['retry-after']]. *)
Definition retry_after_header (error : AxiosError) : option string :=
  resp ← response error; headers resp !! "retry-after"%string.

(** [getRetryDelay]. *)
Definition getRetryDelay (rnd : Q) (error : AxiosError) (retryCount : nat)
    (config : RateLimiterConfig) : Q :=
  let backoff :=
    calculateBackoffDelay rnd retryCount
      (JS.or_default (baseDelay config) 1000)
      (JS.or_default (maxDelay config) 30000) in
  let retryAfter := retry_after_header error in
  if JS.truthy retryAfter then
    match JS.parseInt (default EmptyString retryAfter) with
    | Some n =>
        let retryAfterMs := n * 1000 in
        if retryAfterMs >? 0
        then inject_Z (Z.min retryAfterMs (JS.or_default (maxDelay config) 30000))
        else backoff
    | None => backoff
    end
  else backoff.

(** ** The manager object *)

(** A [p-limit] limiter: the closure state of [pLimit(concurrency)].
    [queue] holds the calls (by task number) whose callback has not started. *)
Record Limit := {
  limit_concurrency : Z;
  activeCount : Z;
  queue : list nat
}.

(** [pLimit(concurrency)]: a fresh, idle limiter.  The library accepts a
    number from 1 up and throws a [TypeError] for any other: [None]. *)
Definition pLimit (concurrency : Z) : option Limit :=
  if 1 <=? concurrency
  then Some {| limit_concurrency := concurrency; activeCount := 0; queue := [] |}
  else None.

(** The fields of [SafeRequestManager].  Limiters are objects with identity:
    [heap] is the store of limiter objects and [limiters] maps a domain to
    the reference (index in [heap]) of its limiter. *)
Record SafeRequestManager := {
  heap : list Limit;
  limiters : gmap string nat;
  rateLimitConfig : gmap string RateLimiterConfig;
  lastRequestTime : gmap string Z
}.

Definition empty_manager : SafeRequestManager :=
  {| heap := []; limiters := ∅; rateLimitConfig := ∅; lastRequestTime := ∅ |}.

(** [configureRateLimit]: the manager the call leaves behind.  The policy
    is stored first.  [pLimit] then builds the limiter that is stored under
    the domain, or it throws: the method is left before [limiters.set], so
    the policy stays stored and the limiters are as they were. *)
Definition configureRateLimit (domain : string) (config : RateLimiterConfig)
    (this : SafeRequestManager) : SafeRequestManager :=
  let stored := {| heap := heap this; limiters := limiters this;
                   rateLimitConfig := <[domain := config]> (rateLimitConfig this);
                   lastRequestTime := lastRequestTime this |} in
  match pLimit (JS.or_default (concurrency config) 2) with
  | Some L =>
      {| heap := heap stored ++ [L];
         limiters := <[domain := length (heap stored)]> (limiters stored);
         rateLimitConfig := rateLimitConfig stored;
         lastRequestTime := lastRequestTime stored |}
  | None => stored
  end.

(** Whether that call ends with the [TypeError] of [pLimit] instead of
    returning. *)
Definition configureRateLimit_throws (config : RateLimiterConfig) : bool :=
  match pLimit (JS.or_default (concurrency config) 2) with
  | Some _ => false
  | None => true
  end.

Definition policy (r b m t c : Z) : RateLimiterConfig :=
  {| maxRetries := Some r; baseDelay := Some b; maxDelay := Some m;
     timeout := Some t; concurrency := Some c |}.

Definition anilist_policy := policy 5 1000 30000 10000 2.
Definition mal_policy := policy 5 1000 30000 10000 1.
Definition tmdb_policy := policy 5 500 15000 10000 3.
Definition localhost_policy := policy 3 500 10000 5000 5.
Definition default_policy := policy 3 1000 20000 10000 2.

(** [constructor()]: the five calls of [configureRateLimit], in order.  None
    of them throws ([constructor_returns]), so the constructor returns and
    the manager is the one they leave. *)
Definition constructor : SafeRequestManager :=
  configureRateLimit "default" default_policy
    (configureRateLimit "localhost" localhost_policy
      (configureRateLimit "api.themoviedb.org" tmdb_policy
        (configureRateLimit "api.myanimelist.net" mal_policy
          (configureRateLimit "graphql.anilist.co" anilist_policy
            empty_manager)))).

(** [getConfig]: a stored config object is always truthy, so [||] falls
    through exactly when the domain has no entry.  [None] stands for the
    [undefined] obtained when ['default'] is missing too. *)
Definition getConfig (this : SafeRequestManager) (domain : string)
    : option RateLimiterConfig :=
  match rateLimitConfig this !! domain with
  | Some c => Some c
  | None => rateLimitConfig this !! "default"%string
  end.

(** [getLimiter]: returns the limiter object (its reference). *)
Definition getLimiter (this : SafeRequestManager) (domain : string) : option nat :=
  match limiters this !! domain with
  | Some l => Some l
  | None => limiters this !! "default"%string
  end.

(** One entry of the object [getStats] returns: [limiter.activeCount],
    [limiter.pendingCount] (the size of the limiter's queue) and the policy
    stored for the domain. *)
Record Stats := {
  st_activeCount : Z;
  st_pendingCount : nat;
  st_config : option RateLimiterConfig
}.

(** [getStats]: one entry per key of [limiters]. *)
Definition getStats (this : SafeRequestManager) : gmap string Stats :=
  map_imap (fun domain l =>
    L ← heap this !! l;
    Some {| st_activeCount := activeCount L;
            st_pendingCount := length (queue L);
            st_config := rateLimitConfig this !! domain |}) (limiters this).

(** A reference implementation of [new URL(url).hostname] for absolute URLs
    of the shape [scheme://[userinfo@]host[:port][/path][?query][#fragment]]
    with an ASCII host; [None] where the constructor throws.  It is used to
    run examples; the development itself is parametric in the URL parser. *)
Module RefURL.

Definition lower (a : ascii) : ascii :=
  let n := nat_of_ascii a in
  if Nat.leb 65 n && Nat.leb n 90 then ascii_of_nat (n + 32) else a.

Definition is_scheme_char (a : ascii) : bool :=
  let n := nat_of_ascii a in
  (Nat.leb 97 n && Nat.leb n 122) || (Nat.leb 65 n && Nat.leb n 90)
  || (Nat.leb 48 n && Nat.leb n 57) || Nat.eqb n 43 || Nat.eqb n 45 || Nat.eqb n 46.

(** Splits [s] as [scheme] and the text after ["://"]. *)
Fixpoint scheme_rest (s : string) : option (string * string) :=
  match s with
  | String ":" (String "/" (String "/" rest)) => Some (EmptyString, rest)
  | String a s' =>
      if is_scheme_char a
      then '(sch, rest) ← scheme_rest s'; Some (String a sch, rest)
      else None
  | EmptyString => None
  end.

(** The authority: everything up to the first of [/ ? # \]. *)
Fixpoint authority (s : string) : string :=
  match s with
  | String a s' =>
      if Ascii.eqb a "/" || Ascii.eqb a "?" || Ascii.eqb a "#" || Ascii.eqb a "\"
      then EmptyString else String a (authority s')
  | EmptyString => EmptyString
  end.

(** Drops [userinfo@] when present. *)
Fixpoint after_at (s : string) : option string :=
  match s with
  | String a s' =>
      if Ascii.eqb a "@" then Some (default s' (after_at s')) else after_at s'
  | EmptyString => None
  end.

(** The host: up to the port separator, lower-cased. *)
Fixpoint host (s : string) : string :=
  match s with
  | String a s' => if Ascii.eqb a ":" then EmptyString else String (lower a) (host s')
  | EmptyString => EmptyString
  end.

Definition hostname (url : string) : option string :=
  '(sch, rest) ← scheme_rest url;
  match sch with
  | EmptyString => None
  | _ =>
      let auth := authority rest in
      let h := host (default auth (after_at auth)) in
      match h with EmptyString => None | _ => Some h end
  end.

End RefURL.

(** ** The population script ([scripts/populate-mappings.ts])

    The script reads the AniList ids from the sitemaps (or from its cache
    file), then works through them in batches.  The network, the database
    and the providers are inputs of the model: each function below takes
    what they answered. *)

Module Populate.

(** A JavaScript number that is an integer or [NaN] ([None]). *)
Definition number := option Z.

(** [a + b] and [a < n]: [NaN] propagates through [+] and compares false. *)
Definition add (a b : number) : number := x ← a; y ← b; Some (x + y).

Definition lt (a : number) (n : Z) : bool :=
  match a with
  | Some x => x <? n
  | None => false
  end.

(** [CONFIG.CONCURRENCY] and [CONFIG.SKIP_EXISTING] as functions of the
    environment variable ([None] when it is not set). *)
Definition CONCURRENCY (env : option string) : number :=
  JS.parseInt (JS.or_string env "10").

Definition SKIP_EXISTING (env : option string) : bool :=
  bool_decide (env = Some "true"%string).

(** *** [fetchAnilistIds] *)

(** [\d]. *)
Definition is_digit (a : ascii) : bool :=
  let n := nat_of_ascii a in Nat.leb 48 n && Nat.leb n 57.

(** The longest prefix of digits: what a greedy [\d+] takes. *)
Fixpoint digit_run (s : string) : string :=
  match s with
  | String a s' => if is_digit a then String a (digit_run s') else EmptyString
  | EmptyString => EmptyString
  end.

(** [s] without its prefix [p]; [None] when [s] does not start with [p]. *)
Fixpoint strip_prefix (p s : string) : option string :=
  match p, s with
  | EmptyString, _ => Some s
  | String a p', String b s' => if Ascii.eqb a b then strip_prefix p' s' else None
  | String _ _, EmptyString => None
  end.

(** [/\/anime\/(\d+)/] tried at the start of [s]: the text of group 1. *)
Definition anime_here (s : string) : option string :=
  rest ← strip_prefix "/anime/" s;
  match digit_run rest with
  | EmptyString => None
  | d => Some d
  end.

(** [loc.match(/\/anime\/(\d+)/)]: group 1 of the leftmost match, [None]
    when there is no match. *)
Fixpoint match_anime (loc : string) : option string :=
  match anime_here loc with
  | Some d => Some d
  | None =>
      match loc with
      | String _ loc' => match_anime loc'
      | EmptyString => None
      end
  end.

(** One entry of the sitemap as the body of the inner loop meets it.
    [Loc loc]: [entry.loc?.[0]] is [loc], a string, or [undefined] or
    another falsy value ([None]).  [Faulty]: the body throws a [TypeError]
    at this entry, because the entry is [null] or [undefined], or because
    its [loc[0]] is a truthy value that is not a string and has no [match]
    (an object is what [xml2js] gives for a [<loc>] element with
    attributes). *)
Inductive Entry :=
| Loc (loc : option string)
| Faulty.

(** What fetching and parsing one sitemap gives: [None] when the [try]
    block is left before the inner loop ([axios.get] or [parseStringPromise]
    throws, [result] is [null], the value to iterate is not iterable);
    otherwise the value of [result.urlset?.url] ([None] for [undefined]),
    entry by entry. *)
Definition Sitemap := option (option (list Entry)).

(** The body of the inner loop on an entry that does not throw: one [push]
    when [loc] is truthy and matches. *)
Definition push_id (loc : option string) (allIds : list number) : list number :=
  if JS.truthy loc then
    match match_anime (default EmptyString loc) with
    | Some d => allIds ++ [JS.parseInt d]
    | None => allIds
    end
  else allIds.

(** The inner loop.  It is inside the [try] block: at a faulty entry the
    exception leaves the loop, the entries after it are not read, and what
    was pushed before stays in [allIds]. *)
Fixpoint push_ids (urls : list Entry) (allIds : list number) : list number :=
  match urls with
  | Loc loc :: urls' => push_ids urls' (push_id loc allIds)
  | Faulty :: _ => allIds
  | [] => allIds
  end.

(** The loop over [SITEMAP_URLS]: the [catch] logs the error, and the loop
    goes on with the next sitemap. *)
Definition collect (sitemaps : list Sitemap) : list number :=
  foldl (fun allIds sitemap =>
           match sitemap with
           | Some urls => push_ids (default [] urls) allIds
           | None => allIds
           end) [] sitemaps.

(** [[...new Set(l)]]: the distinct values of [l] in the order of their
    first occurrence; [seen] is the content of the set so far. *)
Fixpoint Set_values (l : list number) (seen : list number) : list number :=
  match l with
  | [] => seen
  | x :: l' => Set_values l' (if decide (x ∈ seen) then seen else seen ++ [x])
  end.

(** [.sort((a, b) => a - b)] on integers: ascending order.  With a [NaN]
    among the values the comparator is inconsistent and the order is up to
    the engine: [None]. *)
Definition sort_numbers (l : list number) : option (list Z) :=
  merge_sort Z.le <$> mapM id l.

Definition uniqueIds (allIds : list number) : option (list Z) :=
  sort_numbers (Set_values allIds []).

(** [fetchAnilistIds]: [file] is the array held by [anilist-ids.json]
    ([None] when the file does not exist), read back with [JSON.parse] as
    it was written with [JSON.stringify].  The result is the array returned
    and the file afterwards. *)
Definition fetchAnilistIds (file : option (list Z)) (sitemaps : list Sitemap)
    : option (list Z * option (list Z)) :=
  match file with
  | Some ids => Some (ids, file)
  | None => ids ← uniqueIds (collect sitemaps); Some (ids, Some ids)
  end.

(** The entries of a sitemap that come before its first faulty entry. *)
Fixpoint entries_read (urls : list Entry) : list (option string) :=
  match urls with
  | Loc loc :: urls' => loc :: entries_read urls'
  | Faulty :: _ => []
  | [] => []
  end.

(** An id that some entry of some fetched sitemap yields, the entry being
    one of those before the first faulty entry of its sitemap. *)
Definition found (sitemaps : list Sitemap) (x : Z) : Prop :=
  exists urls loc d, Some urls ∈ sitemaps /\ Some loc ∈ entries_read (default [] urls) /\
    match_anime loc = Some d /\ JS.parseInt d = Some x.

(** *** The batches of [main] *)

(** [ToIntegerOrInfinity] on an integer or [NaN]. *)
Definition to_integer (x : number) : Z := default 0 x.

(** A relative index of [slice], clamped to the array. *)
Definition relative_index (len rel : Z) : Z :=
  if rel <? 0 then Z.max (len + rel) 0 else Z.min rel len.

(** [l.slice(start, end)]. *)
Definition slice {A} (l : list A) (start end_ : number) : list A :=
  let len := Z.of_nat (length l) in
  let k := relative_index len (to_integer start) in
  let final := relative_index len (to_integer end_) in
  take (Z.to_nat (final - k)) (drop (Z.to_nat k) l).

(** The [for] loop of [main], entered with the loop variable at [i]: the
    batches it passes to [processBatch], in order.  [None] when [fuel]
    iterations do not reach the end of the loop. *)
Fixpoint main_batches (fuel : nat) (ids : list Z) (CONCURRENCY : number) (i : number)
    : option (list (list Z)) :=
  match fuel with
  | O => None
  | S fuel' =>
      if lt i (Z.of_nat (length ids)) then
        rest ← main_batches fuel' ids CONCURRENCY (add i CONCURRENCY);
        Some (slice ids i (add i CONCURRENCY) :: rest)
      else Some []
  end.

(** *** The provider mappers *)

(** [id.split('/').pop()]: the text after the last ['/']; [acc] is the
    segment read so far. *)
Fixpoint last_segment_from (s : string) (acc : string) : string :=
  match s with
  | EmptyString => acc
  | String a s' =>
      if Ascii.eqb a "/" then last_segment_from s' EmptyString
      else last_segment_from s' (acc ++ String a EmptyString)
  end.

Definition last_segment (s : string) : string := last_segment_from s EmptyString.

Fixpoint has_slash (s : string) : bool :=
  match s with
  | EmptyString => false
  | String a s' => Ascii.eqb a "/" || has_slash s'
  end.

(** [mapAnimeKai]: [search] is [None] when [animekai.search] throws,
    otherwise the value of [results?.results] ([None] for [undefined])
    given by the [id] of each result. *)
Definition mapAnimeKai (search : option (option (list string))) : option string :=
  match search with
  | Some (Some (id :: _)) =>
      match last_segment id with
      | EmptyString => None
      | segment => Some segment
      end
  | _ => None
  end.

(** *** [getAnilistInfo] and [processAnime] *)

(** The fields of [Media] the script asks for ([None] for [null]). *)
Record Media := {
  title_english : option string;
  title_romaji : option string;
  media_format : option string;
  seasonYear : option Z;
  startDate_year : option Z;
  idMal : option Z
}.

Record Info := {
  title : string;
  format : string;
  year : option Z;
  malId : option Z
}.

(** [x || y] on numbers that may be [null]: [null] and [0] are falsy. *)
Definition or_number (x y : option Z) : option Z :=
  match x with
  | Some v => if v =? 0 then y else Some v
  | None => y
  end.

(** [getAnilistInfo]: [response] is [None] when [axios.post] throws,
    otherwise the value of [response.data?.data?.Media] ([None] when it is
    falsy). *)
Definition getAnilistInfo (response : option (option Media)) : option Info :=
  match response with
  | Some (Some media) =>
      Some {| title := JS.or_string (title_english media)
                         (JS.or_string (title_romaji media) "");
              format := JS.or_string (media_format media) "TV";
              year := or_number (seasonYear media) (or_number (startDate_year media) None);
              malId := or_number (idMal media) None |}
  | _ => None
  end.

(** A document of the [AnimeMapping] collection (its schema fields). *)
Record Doc := {
  d_anilistId : Z;
  d_title : string;
  d_format : string;
  d_year : option Z;
  d_mal : option Z;
  d_tmdb : option Z;
  d_hianime : option string;
  d_animesama : option string;
  d_animekai : option string;
  d_animepahe : option string;
  d_anicrush : option string;
  d_flixhq : option string
}.

(** The collection, keyed by [anilistId] (a unique index), and the two
    counters of the script. *)
Record State := {
  db : gmap Z Doc;
  processed : nat;
  failed : nat
}.

(** What the outside world answers during one [processAnime] call: the
    AniList response, the results of the five mappers (each already [null]
    or a string), and whether the two database operations throw. *)
Record World := {
  w_response : option (option Media);
  w_hianime : option string;
  w_animesama : option string;
  w_animekai : option string;
  w_animepahe : option string;
  w_anicrush : option string;
  w_findOne_throws : bool;
  w_update_throws : bool
}.

(** The document written by [findOneAndUpdate(..., { $set: ... }, { upsert: true })]. *)
Definition mapping (anilistId : Z) (info : Info) (w : World) : Doc :=
  {| d_anilistId := anilistId; d_title := title info; d_format := format info;
     d_year := year info; d_mal := malId info; d_tmdb := None;
     d_hianime := w_hianime w; d_animesama := w_animesama w;
     d_animekai := w_animekai w; d_animepahe := w_animepahe w;
     d_anicrush := w_anicrush w; d_flixhq := None |}.

(** [processAnime], run with no other writer in between; the boolean tells
    whether its promise rejects. *)
Definition processAnime (SKIP_EXISTING : bool) (w : World) (anilistId : Z) (st : State)
    : State * bool :=
  if SKIP_EXISTING && w_findOne_throws w then (st, true)
  else if SKIP_EXISTING && bool_decide (is_Some (db st !! anilistId)) then (st, false)
  else
    match getAnilistInfo (w_response w) with
    | None => ({| db := db st; processed := processed st; failed := S (failed st) |}, false)
    | Some info =>
        if w_update_throws w then (st, true)
        else ({| db := <[anilistId := mapping anilistId info w]> (db st);
                 processed := S (processed st); failed := failed st |}, false)
    end.

(** One element of [processBatch]:
    [processAnime(id).catch(() => { failed++; })]. *)
Definition processOne (SKIP_EXISTING : bool) (w : World) (anilistId : Z) (st : State)
    : State :=
  let '(st', rejected) := processAnime SKIP_EXISTING w anilistId st in
  if rejected
  then {| db := db st'; processed := processed st'; failed := S (failed st') |}
  else st'.

End Populate.

(** ** [request]: the retry loop of one call *)

Section Governor.

(** [new URL(url).hostname]; [None] when the [URL] constructor throws.  The
    parser belongs to the platform, so the development is parametric in it. *)
Variable URL_hostname : string -> option string.

(** [getDomain]: the [try]/[catch] around [new URL(url)]. *)
Definition getDomain (url : string) : string :=
  match URL_hostname url with
  | Some hostname => hostname
  | None => "default"%string
  end.

(** [timeout: config.timeout || rateLimitConfig.timeout || 10000]. *)
Definition requestTimeout (config : AxiosRequestConfig)
    (rateLimitConfig : RateLimiterConfig) : Z :=
  JS.or_default (req_timeout config) (JS.or_default (timeout rateLimitConfig) 10000).

(** What one [request] call did: how its promise settled ([Fulfilled] is
    [return response], [Threw] is [throw error]), the number of times it
    called [axios], and the delays it passed to [this.delay] between
    attempts. *)
Record Run := {
  outcome : Outcome;
  attempts : nat;
  sleeps : list Q
}.

(** The [while (true)] loop of the callback passed to the limiter.
    [axios k] is the settlement of the call made when [retryCount = k] (each
    iteration makes one call and each retry increments [retryCount]), and
    [random k] the value of [Math.random()] drawn for the delay after it.
    The waits ([enforceRateLimit], [delay]) do not influence the result and
    appear in the event-loop machine below. *)
Fixpoint request_loop (fuel : nat) (axios : nat -> Outcome) (random : nat -> Q)
    (rateLimitConfig : RateLimiterConfig) (maxRetries : Z) (retryCount : nat)
    : option Run :=
  match fuel with
  | O => None
  | S fuel' =>
      match axios retryCount with
      | Fulfilled response =>
          Some {| outcome := Fulfilled response; attempts := 1; sleeps := [] |}
      | Threw error =>
          if shouldRetry error retryCount maxRetries then
            let delay := getRetryDelay (random retryCount) error retryCount rateLimitConfig in
            r ← request_loop fuel' axios random rateLimitConfig maxRetries (S retryCount);
            Some {| outcome := outcome r; attempts := S (attempts r);
                    sleeps := delay :: sleeps r |}
          else Some {| outcome := Threw error; attempts := 1; sleeps := [] |}
      end
  end.

(** [request]: [None] only when the manager has no ['default'] entry (the
    call then fails with a [TypeError] before any attempt).  The fuel is an
    upper bound on the number of iterations, see [request_loop_total]. *)
Definition request (this : SafeRequestManager) (config : AxiosRequestConfig)
    (axios : nat -> Outcome) (random : nat -> Q) : option Run :=
  let url := JS.or_string (url config) "" in
  let domain := getDomain url in
  rateLimitConfig ← getConfig this domain;
  _ ← getLimiter this domain;
  let maxRetries := JS.or_default (maxRetries rateLimitConfig) 3 in
  request_loop (S (Z.to_nat maxRetries)) axios random rateLimitConfig maxRetries 0.

(** [get(url, config)] and [post(url, data, config)]: both call [request]
    with [{ ...config, method, url }] ([post] adds [data]).  In the part of
    the config the manager looks at, the [url] argument replaces the one of
    [config], and [config] may be omitted. *)
Definition spread_url (url : string) (config : option AxiosRequestConfig)
    : AxiosRequestConfig :=
  {| url := Some url; req_timeout := config ≫= req_timeout |}.

Definition get (this : SafeRequestManager) (url : string)
    (config : option AxiosRequestConfig)
    (axios : nat -> Outcome) (random : nat -> Q) : option Run :=
  request this (spread_url url config) axios random.

Definition post (this : SafeRequestManager) (url : string)
    (config : option AxiosRequestConfig)
    (axios : nat -> Outcome) (random : nat -> Q) : option Run :=
  request this (spread_url url config) axios random.

(** Whether the loop ends at the attempt made with [retryCount = k]: the
    call succeeds, or fails and [shouldRetry] says no. *)
Definition stops (axios : nat -> Outcome) (maxRetries : Z) (k : nat) : bool :=
  match axios k with
  | Fulfilled _ => true
  | Threw error => negb (shouldRetry error k maxRetries)
  end.

(** ** The event loop: interleaved [request] calls

    JavaScript runs one callback at a time, so the shared state (limiters,
    watermarks) changes only in the turns where a call is submitted or
    resumes after an [await].  The machine below has one action per kind of
    turn and runs each turn atomically, from the point where the call
    resumes to its next [await] on a timer or on axios.  Time passes only
    between turns ([Tick]); the awaits that resolve without a timer or the
    network (an [enforceRateLimit] that does not wait, the [await] inside
    [p-limit]) take no time and are part of the turn.

    [p-limit] is modelled from its interface: [limit(fn)] queues [fn]; a
    queued function is started, oldest first, while fewer than [concurrency]
    started functions are unsettled; [activeCount] is the number of those. *)

(** Where a call is suspended. *)
Inductive Pc :=
| Queued                               (* in the limiter's queue: the callback has not started *)
| SpacingWait (lastRequest wake : Z)   (* [await this.delay(waitTime)] in [enforceRateLimit] *)
| InFlight                             (* [await axios(requestConfig)] *)
| BackingOff (wake : Z)                (* [await this.delay(delay)] in the [catch] block *)
| Settled (o : Outcome).               (* the callback returned or threw *)

(** One call of [request]: its locals, where it is suspended, and whether
    [p-limit] currently counts it in [activeCount] (its [run] wrapper has
    executed [activeCount++] and not yet [next()]). *)
Record Task := {
  t_config : AxiosRequestConfig;
  t_domain : string;
  t_rateLimitConfig : RateLimiterConfig;
  t_limiter : nat;
  t_retryCount : nat;
  t_pc : Pc;
  t_leased : bool
}.

(** One call of [axios]: who issued it, to which domain, the value of the
    local [lastRequest] read by the [enforceRateLimit] that preceded it, the
    issue time and the timeout placed in [requestConfig]. *)
Record Dispatch := {
  d_task : nat;
  d_domain : string;
  d_lastRequest : Z;
  d_time : Z;
  d_timeout : Z
}.

Record System := {
  mgr : SafeRequestManager;
  now : Z;                 (* [Date.now()] *)
  tasks : list Task;
  sent : list Dispatch     (* every axios call made so far, oldest first *)
}.

Definition boot (this : SafeRequestManager) (t0 : Z) : System :=
  {| mgr := this; now := t0; tasks := []; sent := [] |}.

Definition set_pc (pc : Pc) (t : Task) : Task :=
  {| t_config := t_config t; t_domain := t_domain t;
     t_rateLimitConfig := t_rateLimitConfig t; t_limiter := t_limiter t;
     t_retryCount := t_retryCount t; t_pc := pc; t_leased := t_leased t |}.

Definition set_leased (b : bool) (t : Task) : Task :=
  {| t_config := t_config t; t_domain := t_domain t;
     t_rateLimitConfig := t_rateLimitConfig t; t_limiter := t_limiter t;
     t_retryCount := t_retryCount t; t_pc := t_pc t; t_leased := b |}.

Definition set_retryCount (n : nat) (t : Task) : Task :=
  {| t_config := t_config t; t_domain := t_domain t;
     t_rateLimitConfig := t_rateLimitConfig t; t_limiter := t_limiter t;
     t_retryCount := n; t_pc := t_pc t; t_leased := t_leased t |}.

Definition with_task (i : nat) (t : Task) (s : System) : System :=
  {| mgr := mgr s; now := now s; tasks := <[i := t]> (tasks s); sent := sent s |}.

Definition with_limit (l : nat) (L : Limit) (s : System) : System :=
  {| mgr := {| heap := <[l := L]> (heap (mgr s)); limiters := limiters (mgr s);
               rateLimitConfig := rateLimitConfig (mgr s);
               lastRequestTime := lastRequestTime (mgr s) |};
     now := now s; tasks := tasks s; sent := sent s |}.

(** [delay(ms)] is [setTimeout(resolve, ms)].  Node replaces a duration
    that is not a number from 1 to [2^31 - 1] by 1, and drops the fraction
    of a millisecond: the timer is due that many whole milliseconds after it
    was set. *)
Definition TIMEOUT_MAX : Z := 2 ^ 31 - 1.

Definition setTimeout (ms : Q) : Z :=
  if Qle_bool 1 ms && Qle_bool ms (inject_Z TIMEOUT_MAX) then Qfloor ms else 1.

(** The end of [enforceRateLimit] followed by the axios call: the watermark
    of the domain becomes [Date.now()] and the call is issued. *)
Definition dispatch (i : nat) (t : Task) (lastRequest : Z) (s : System) : System :=
  {| mgr := {| heap := heap (mgr s); limiters := limiters (mgr s);
               rateLimitConfig := rateLimitConfig (mgr s);
               lastRequestTime := <[t_domain t := now s]> (lastRequestTime (mgr s)) |};
     now := now s;
     tasks := <[i := set_pc InFlight t]> (tasks s);
     sent := sent s ++ [ {| d_task := i; d_domain := t_domain t;
                            d_lastRequest := lastRequest; d_time := now s;
                            d_timeout := requestTimeout (t_config t) (t_rateLimitConfig t) |} ] |}.

(** The top of the loop body: [enforceRateLimit] up to its first [await]
    (or through to the axios call when no wait is needed).  [t] is the state
    of task [i] on entry.  [waitTime] is a whole number of milliseconds, 1
    at least, and 100 at most unless the clock reads a time before 1970: a
    duration [setTimeout] takes as it is ([spacing_wait_duration]). *)
Definition enforceRateLimit (i : nat) (t : Task) (s : System) : System :=
  let lastRequest := JS.or_default (lastRequestTime (mgr s) !! t_domain t) 0 in
  let timeSinceLastRequest := now s - lastRequest in
  if timeSinceLastRequest <? minRequestInterval then
    let waitTime := minRequestInterval - timeSinceLastRequest in
    with_task i (set_pc (SpacingWait lastRequest (now s + waitTime)) t) s
  else dispatch i t lastRequest s.

(** [p-limit]: [queue.dequeue()()], that is [run] on the oldest queued call:
    [activeCount++] and the callback starts.  [L] is the limiter's state. *)
Definition run (l : nat) (L : Limit) (s : System) : option System :=
  match queue L with
  | j :: q =>
      t ← tasks s !! j;
      let L' := {| limit_concurrency := limit_concurrency L;
                   activeCount := activeCount L + 1; queue := q |} in
      Some (enforceRateLimit j (set_leased true t) (with_limit l L' s))
  | [] => None
  end.

(** [p-limit]: [next], called when a callback's promise has settled:
    [activeCount--], then the oldest queued call, if any, is started. *)
Definition next (l : nat) (s : System) : option System :=
  L ← heap (mgr s) !! l;
  let L' := {| limit_concurrency := limit_concurrency L;
               activeCount := activeCount L - 1; queue := queue L |} in
  match queue L with
  | [] => Some (with_limit l L' s)
  | _ :: _ => run l L' s
  end.

(** The callback of task [i] returns or throws: its promise settles with
    [o] and [p-limit] runs [next]. *)
Definition settle (i : nat) (t : Task) (o : Outcome) (s : System) : option System :=
  next (t_limiter t) (with_task i (set_leased false (set_pc (Settled o) t)) s).

(** What the environment and the scheduler can do. *)
Inductive Action :=
| Tick (dt : Z)                             (* the clock advances (it never goes back) *)
| Call (config : AxiosRequestConfig)        (* a caller invokes [request(config)] *)
| Start (l : nat)                           (* p-limit's deferred check after an enqueue *)
| TimerFires (i : nat)                      (* the [setTimeout] task [i] awaits fires *)
| Responds (i : nat) (o : Outcome) (rnd : Q). (* the axios call of task [i] settles;
                                               [rnd] is the next [Math.random()] *)

(** One atomic step of the event loop; [None] when the action is not
    enabled in [s].  A timer fires once it is due, possibly later. *)
Definition step (a : Action) (s : System) : option System :=
  match a with
  | Tick dt =>
      if 0 <=? dt
      then Some {| mgr := mgr s; now := now s + dt; tasks := tasks s; sent := sent s |}
      else None
  | Call config =>
      let url := JS.or_string (url config) "" in
      let domain := getDomain url in
      rateLimitConfig ← getConfig (mgr s) domain;
      l ← getLimiter (mgr s) domain;
      L ← heap (mgr s) !! l;
      let i := length (tasks s) in
      let t := {| t_config := config; t_domain := domain;
                  t_rateLimitConfig := rateLimitConfig; t_limiter := l;
                  t_retryCount := 0; t_pc := Queued; t_leased := false |} in
      let L' := {| limit_concurrency := limit_concurrency L;
                   activeCount := activeCount L; queue := queue L ++ [i] |} in
      Some (with_limit l L'
              {| mgr := mgr s; now := now s; tasks := tasks s ++ [t]; sent := sent s |})
  | Start l =>
      L ← heap (mgr s) !! l;
      if activeCount L <? limit_concurrency L then run l L s else None
  | TimerFires i =>
      t ← tasks s !! i;
      match t_pc t with
      | SpacingWait lastRequest wake =>
          if wake <=? now s then Some (dispatch i t lastRequest s) else None
      | BackingOff wake =>
          if wake <=? now s
          then Some (enforceRateLimit i (set_retryCount (S (t_retryCount t)) t) s)
          else None
      | _ => None
      end
  | Responds i o rnd =>
      t ← tasks s !! i;
      match t_pc t with
      | InFlight =>
          match o with
          | Fulfilled response => settle i t o s
          | Threw error =>
              let maxRetries := JS.or_default (maxRetries (t_rateLimitConfig t)) 3 in
              if shouldRetry error (t_retryCount t) maxRetries then
                let delay := getRetryDelay rnd error (t_retryCount t) (t_rateLimitConfig t) in
                Some (with_task i (set_pc (BackingOff (now s + setTimeout delay)) t) s)
              else settle i t o s
          end
      | _ => None
      end
  end.

(** A schedule, executed from left to right. *)
Fixpoint exec (acts : list Action) (s : System) : option System :=
  match acts with
  | [] => Some s
  | a :: acts' => s' ← step a s; exec acts' s'
  end.

(** Observations on a state. *)
Fixpoint tally {A} (P : A -> bool) (l : list A) : nat :=
  match l with
  | [] => 0
  | x :: l' => (if P x then 1 else 0) + tally P l'
  end.

Definition is_in_flight (t : Task) : bool :=
  match t_pc t with InFlight => true | _ => false end.

Definition is_unsettled_started (t : Task) : bool :=
  match t_pc t with
  | SpacingWait _ _ | InFlight | BackingOff _ => true
  | Queued | Settled _ => false
  end.

(** Number of axios calls to [domain] awaiting their response. *)
Definition in_flight (domain : string) (s : System) : nat :=
  tally (fun t => bool_decide (t_domain t = domain) && is_in_flight t) (tasks s).

(** Number of calls counted by limiter [l]. *)
Definition leases (l : nat) (ts : list Task) : nat :=
  tally (fun t => bool_decide (t_limiter t = l) && t_leased t) ts.

(** The outcomes the design document calls retryable: no response, status
    429/502/503/504, a timeout, or another 5xx status. *)
Definition retryable (error : AxiosError) : bool :=
  match response error with
  | None => true
  | Some resp =>
      (status resp =? 429) || (status resp =? 502) || (status resp =? 503)
      || (status resp =? 504) || is_timeout_code (code error)
      || ((500 <=? status resp) && (status resp <? 600))
  end.

(** A client-error status other than 429, on an outcome that is not a
    timeout. *)
Definition non_retryable_client_error (error : AxiosError) : bool :=
  match response error with
  | None => false
  | Some resp =>
      (400 <=? status resp) && (status resp <? 500) && negb (status resp =? 429)
      && negb (is_timeout_code (code error))
  end.

(** The managers that calls of [configureRateLimit] build when each of
    them returns, as those of the constructor do (a call that throws ends
    the constructor, and no manager is made). *)
Inductive configured : SafeRequestManager -> Prop :=
| configured_empty : configured empty_manager
| configured_step domain config this :
    configured this -> configureRateLimit_throws config = false ->
    configured (configureRateLimit domain config this).

(** What holds of a manager before it has served any request. *)
Record well_configured (this : SafeRequestManager) : Prop := {
  wc_same_keys : forall d,
    limiters this !! d = None <-> rateLimitConfig this !! d = None;
  wc_cap : forall d l cfg,
    limiters this !! d = Some l -> rateLimitConfig this !! d = Some cfg ->
    exists L, heap this !! l = Some L /\
      limit_concurrency L = JS.or_default (concurrency cfg) 2;
  wc_distinct : forall d1 d2 l,
    limiters this !! d1 = Some l -> limiters this !! d2 = Some l -> d1 = d2;
  wc_idle : Forall (fun L => activeCount L = 0 /\ queue L = []) (heap this);
  wc_no_watermark : lastRequestTime this = ∅
}.

(** The states a manager [this] can reach from start-up. *)
Definition reachable_from (this : SafeRequestManager) (s : System) : Prop :=
  exists t0 acts, exec acts (boot this t0) = Some s.

(** ** Invariants of the event loop *)

(** The calls waiting in the queue of limiter [l] are distinct, not yet
    started, and were submitted to [l]. *)
Definition queue_ok (l : nat) (L : Limit) (ts : list Task) : Prop :=
  NoDup (queue L) /\
  forall j, j ∈ queue L ->
    exists t, ts !! j = Some t /\ t_limiter t = l /\ t_pc t = Queued /\ t_leased t = false.

(** Slot accounting: each limiter's [activeCount] is the number of calls it
    has started and that have not settled, it never exceeds the limiter's
    concurrency, and its queue is well formed. *)
Definition accounted (H : list Limit) (ts : list Task) : Prop :=
  forall l L, H !! l = Some L ->
    activeCount L = Z.of_nat (leases l ts) /\
    activeCount L <= Z.max 0 (limit_concurrency L) /\
    queue_ok l L ts.

(** What holds of every call: its locals [rateLimitConfig] and [limiter] are
    what the manager resolves for its domain, and its limiter counts it
    exactly from the start of its callback to its settlement. *)
Definition locals_ok (this : SafeRequestManager) (t : Task) : Prop :=
  getConfig this (t_domain t) = Some (t_rateLimitConfig t) /\
  getLimiter this (t_domain t) = Some (t_limiter t).

Definition task_ok (this : SafeRequestManager) (t : Task) : Prop :=
  locals_ok this t /\ t_leased t = is_unsettled_started t.

(** The registry and the limiters' capacities never change. *)
Definition static_eq (m m' : SafeRequestManager) : Prop :=
  limiters m = limiters m' /\ rateLimitConfig m = rateLimitConfig m' /\
  limit_concurrency <$> heap m = limit_concurrency <$> heap m'.

(** The issue time of the latest axios call to [domain], if any. *)
Definition latest_dispatch (domain : string) (log : list Dispatch) : option Z :=
  last (d_time <$> filter (fun e => d_domain e = domain) log).

(** [v] is a value the watermark of [domain] can have had while the calls
    of [log] were being made: 0 (no entry yet, or an entry of 0) or the issue
    time of one of the calls to [domain]. *)
Definition seen (domain : string) (v : Z) (log : list Dispatch) : Prop :=
  v = 0 \/ exists e, e ∈ log /\ d_domain e = domain /\ d_time e = v.

(** The watermarks and the log of calls: the watermark of a domain is the
    issue time of the latest call to it, and no call to the domain was
    issued later; every call was issued at least [minRequestInterval] after
    the watermark its [enforceRateLimit] read, which is 0 or the issue time
    of an earlier call to the same domain; a spacing wait ends
    [minRequestInterval] after the watermark read. *)
Record spaced (s : System) : Prop := {
  sp_watermark : forall domain,
    lastRequestTime (mgr s) !! domain = latest_dispatch domain (sent s);
  sp_sent : Forall (fun e => d_lastRequest e + minRequestInterval <= d_time e /\
                             d_time e <= now s) (sent s);
  sp_read : forall k e, sent s !! k = Some e ->
    seen (d_domain e) (d_lastRequest e) (take k (sent s));
  sp_latest : forall e, e ∈ sent s ->
    exists v, latest_dispatch (d_domain e) (sent s) = Some v /\ d_time e <= v;
  sp_waiting : Forall (fun t => forall lastRequest wake,
                         t_pc t = SpacingWait lastRequest wake ->
                         wake = lastRequest + minRequestInterval /\
                         seen (t_domain t) lastRequest (sent s)) (tasks s)
}.

(** Number of axios calls task [i] has made. *)
Definition attempts_of (i : nat) (log : list Dispatch) : nat :=
  tally (fun e => bool_decide (d_task e = i)) log.

(** Whether the call of the current loop iteration has been made. *)
Definition called (t : Task) : bool :=
  match t_pc t with
  | InFlight | BackingOff _ | Settled _ => true
  | Queued | SpacingWait _ _ => false
  end.

(** The local [maxRetries] of the callback. *)
Definition budget (t : Task) : Z :=
  JS.or_default (maxRetries (t_rateLimitConfig t)) 3.

(** How a call's retry count relates to the axios calls it has made, and
    why it settled when it did. *)
Definition task_counted (log : list Dispatch) (i : nat) (t : Task) : Prop :=
  attempts_of i log = (t_retryCount t + (if called t then 1 else 0))%nat /\
  Z.of_nat (t_retryCount t) <= Z.max 0 (budget t) /\
  (forall wake, t_pc t = BackingOff wake -> Z.of_nat (t_retryCount t) < budget t) /\
  (forall error, t_pc t = Settled (Threw error) ->
     shouldRetry error (t_retryCount t) (budget t) = false).

Record counted (s : System) : Prop := {
  ct_tasks : forall i t, tasks s !! i = Some t -> task_counted (sent s) i t;
  ct_known : Forall (fun e => (d_task e < length (tasks s))%nat) (sent s)
}.

(** A limiter that admits one call at a time. *)
Definition single_slot (this : SafeRequestManager) (l : nat) : Prop :=
  exists L, heap this !! l = Some L /\ limit_concurrency L <= 1.

(** Any two calls to [domain] were issued at least [minRequestInterval]
    apart. *)
Definition pairwise_spaced (domain : string) (log : list Dispatch) : Prop :=
  forall k1 k2 e1 e2, (k1 < k2)%nat ->
    log !! k1 = Some e1 -> log !! k2 = Some e2 ->
    d_domain e1 = domain -> d_domain e2 = domain ->
    d_time e1 + minRequestInterval <= d_time e2.

(** No call to [domain] other than [i] is in its spacing wait. *)
Definition no_other_waiting (i : nat) (domain : string) (ts : list Task) : Prop :=
  forall j tj lastRequest wake, j <> i -> ts !! j = Some tj ->
    t_domain tj = domain -> t_pc tj <> SpacingWait lastRequest wake.

(** Behind a single-slot limiter the watermark a waiting call has read is
    still the current one, and the calls made are spaced pairwise. *)
Record exclusive (this : SafeRequestManager) (s : System) : Prop := {
  ex_fresh : forall i t lastRequest wake,
    tasks s !! i = Some t -> t_pc t = SpacingWait lastRequest wake ->
    single_slot this (t_limiter t) ->
    lastRequest = JS.or_default (lastRequestTime (mgr s) !! t_domain t) 0;
  ex_pairwise : forall domain l,
    getLimiter this domain = Some l -> single_slot this l ->
    pairwise_spaced domain (sent s)
}.

(** Everything that holds in every reachable state of the manager [this]. *)
Record Inv (this : SafeRequestManager) (s : System) : Prop := {
  inv_static : static_eq this (mgr s);
  inv_tasks : Forall (task_ok this) (tasks s);
  inv_acct : accounted (heap (mgr s)) (tasks s);
  inv_spaced : spaced s;
  inv_counted : counted s;
  inv_exclusive : exclusive this s
}.

(** ** Observations used for monitoring and for the log of calls *)

(** The key of [getStats] under which the calls to [domain] are counted:
    the domain itself when it has a limiter of its own, ['default']
    otherwise (the fallback of [getLimiter]). *)
Definition stats_key (this : SafeRequestManager) (domain : string) : string :=
  match limiters this !! domain with
  | Some _ => domain
  | None => "default"%string
  end.

(** Calls counted under the key [d] whose callback has started and not
    settled, and those still waiting to start. *)
Definition started_on (this : SafeRequestManager) (d : string) (ts : list Task) : nat :=
  tally (fun t => bool_decide (stats_key this (t_domain t) = d) && is_unsettled_started t) ts.

Definition waiting_on (this : SafeRequestManager) (d : string) (ts : list Task) : nat :=
  tally (fun t => bool_decide (stats_key this (t_domain t) = d)
                  && match t_pc t with Queued => true | _ => false end) ts.

Definition is_settled (t : Task) : bool :=
  match t_pc t with Settled _ => true | _ => false end.

(** Every call that has not started is in the queue of its limiter. *)
Definition enqueued (H : list Limit) (ts : list Task) : Prop :=
  forall j t, ts !! j = Some t -> t_pc t = Queued ->
    exists L, H !! t_limiter t = Some L /\ j ∈ queue L.

(** First in, first out: the queue of a limiter is in the order of
    submission, and a call that has started was submitted before every call
    to the same limiter that is still waiting. *)
Definition fifo (H : list Limit) (ts : list Task) : Prop :=
  (forall l L, H !! l = Some L -> StronglySorted lt (queue L)) /\
  (forall i j ti tj, ts !! i = Some ti -> ts !! j = Some tj ->
     t_limiter ti = t_limiter tj -> t_pc ti = Queued -> t_pc tj <> Queued ->
     (j < i)%nat).

(** The limiter an action concerns: the one the new call is submitted to,
    the one [p-limit] checks, or the one of the call that resumes. *)
Definition concerns (a : Action) (s : System) : option nat :=
  match a with
  | Tick _ => None
  | Call config => getLimiter (mgr s) (getDomain (JS.or_string (url config) ""))
  | Start l => Some l
  | TimerFires i | Responds i _ _ => t_limiter <$> tasks s !! i
  end.

(** Nothing that belongs to limiter [l] differs between [s] and [s']: the
    limiter object, the calls submitted to it, and the watermarks of the
    domains that resolve to it. *)
Record untouched (this : SafeRequestManager) (l : nat) (s s' : System) : Prop := {
  ut_limiter : heap (mgr s') !! l = heap (mgr s) !! l;
  ut_tasks : forall j t, t_limiter t = l ->
               (tasks s !! j = Some t <-> tasks s' !! j = Some t);
  ut_watermark : forall d, getLimiter this d = Some l ->
                   lastRequestTime (mgr s') !! d = lastRequestTime (mgr s) !! d
}.

(** The locals of a call that are fixed when it is submitted. *)
Definition same_call (t t' : Task) : Prop :=
  t_config t' = t_config t /\ t_domain t' = t_domain t /\
  t_rateLimitConfig t' = t_rateLimitConfig t /\ t_limiter t' = t_limiter t.

(** Every axios call was made by a submitted call, to that call's domain,
    with the timeout computed from that call's config and policy, and the
    log is in the order of the issue times. *)
Record logged (s : System) : Prop := {
  lg_origin : Forall (fun e => exists t, tasks s !! d_task e = Some t /\
                 d_domain e = t_domain t /\
                 d_timeout e = requestTimeout (t_config t) (t_rateLimitConfig t)) (sent s);
  lg_ordered : forall k1 k2 e1 e2, (k1 <= k2)%nat ->
                 sent s !! k1 = Some e1 -> sent s !! k2 = Some e2 ->
                 d_time e1 <= d_time e2;
  lg_past : Forall (fun e => d_time e <= now s) (sent s)
}.

(** Number of calls that have not settled. *)
Definition unsettled (ts : list Task) : nat :=
  tally (fun t => negb (is_settled t)) ts.

(** Every limiter was built with a concurrency [p-limit] accepts. *)
Definition caps_positive (this : SafeRequestManager) : Prop :=
  Forall (fun L => 1 <= limit_concurrency L) (heap this).

(** What it takes to bring one call to its settlement: a schedule without
    new requests after which the call has settled. *)
Definition settles_in (s : System) (j : nat) (acts : list Action) (s' : System) : Prop :=
  exec acts s = Some s' /\ length (tasks s') = length (tasks s) /\
  exists t', tasks s' !! j = Some t' /\ is_settled t' = true.

(** How a call can change between two states: its fixed locals stay, its
    retry count does not decrease, and once settled it is not touched. *)
Definition task_evolves (t t' : Task) : Prop :=
  same_call t t' /\ (t_retryCount t <= t_retryCount t')%nat /\
  (forall o, t_pc t = Settled o -> t' = t).

(** How the system can change: the clock does not go back, the log of
    calls is only appended to, and the calls evolve as above. *)
Record evolves (s s' : System) : Prop := {
  ev_clock : now s <= now s';
  ev_log : exists new, sent s' = sent s ++ new;
  ev_tasks : forall i t, tasks s !! i = Some t ->
               exists t', tasks s' !! i = Some t' /\ task_evolves t t'
}.

(** The sum of a list of delays. *)
Fixpoint Qsum (l : list Q) : Q :=
  match l with
  | [] => 0
  | x :: l' => x + Qsum l'
  end.

(** ** Concrete inputs used in the examples

    Runs of the singleton [safeRequest] from start-up at time [t0]. *)
Definition from_boot (t0 : Z) (acts : list Action) : option System :=
  exec acts (boot constructor t0).

Definition state_after (t0 : Z) (acts : list Action) : System :=
  default (boot constructor t0) (from_boot t0 acts).

(** Whether every action of the schedule is enabled when its turn comes. *)
Definition executable (t0 : Z) (acts : list Action) : bool :=
  match from_boot t0 acts with Some _ => true | None => false end.

Definition to_mal : AxiosRequestConfig :=
  {| url := Some "https://api.myanimelist.net/v2/anime/21"%string; req_timeout := None |}.
Definition to_tmdb : AxiosRequestConfig :=
  {| url := Some "https://api.themoviedb.org/3/tv/37854"%string; req_timeout := None |}.
Definition to_site_a : AxiosRequestConfig :=
  {| url := Some "https://a.example/anime/21"%string; req_timeout := None |}.
Definition to_site_b : AxiosRequestConfig :=
  {| url := Some "https://b.example/anime/21"%string; req_timeout := None |}.
Definition no_url : AxiosRequestConfig := {| url := None; req_timeout := None |}.

Definition failed (st : Z) (hs : gmap string string) : AxiosError :=
  {| response := Some {| status := st; headers := hs |}; code := None |}.
Definition ok_response : AxiosResponse := {| status := 200; headers := ∅ |}.
Definition network_error : AxiosError :=
  {| response := None; code := Some "ECONNRESET"%string |}.
Definition service_unavailable : AxiosError := failed 503 ∅.
Definition not_found : AxiosError := failed 404 ∅.
Definition too_many_requests (retry_after : string) : AxiosError :=
  failed 429 {[ "retry-after"%string := retry_after ]}.

(** A policy that asks for no retry at all, registered for [example.com]. *)
Definition no_retry_policy : RateLimiterConfig := policy 0 1000 20000 10000 2.
Definition with_no_retry_domain : SafeRequestManager :=
  configureRateLimit "example.com" no_retry_policy constructor.
Definition to_example : AxiosRequestConfig :=
  {| url := Some "https://example.com/x"%string; req_timeout := None |}.

(** A policy that asks for no concurrent call at all, registered for
    [example.org], and two calls to that domain, the second one made 100 ms
    after the first. *)
Definition zero_concurrency_policy : RateLimiterConfig := policy 3 1000 20000 10000 0.
Definition with_zero_concurrency_domain : SafeRequestManager :=
  configureRateLimit "example.org" zero_concurrency_policy constructor.
Definition to_example_org : AxiosRequestConfig :=
  {| url := Some "https://example.org/x"%string; req_timeout := None |}.
Definition two_calls_in_flight : list Action :=
  [Call to_example_org; Start 5; Tick 100; Call to_example_org; Start 5].

Definition is_backing_off (t : Task) : bool :=
  match t_pc t with BackingOff _ => true | _ => false end.

Definition is_queued (t : Task) : bool :=
  match t_pc t with Queued => true | _ => false end.

(** Two calls to MyAnimeList (one slot); the first attempt of the first call
    fails with a 503 and is being retried. *)
Definition retry_on_single_slot : list Action :=
  [Call to_mal; Start 1; Call to_mal; Responds 0 (Threw service_unavailable) (1 # 2)].

(** Three calls to TMDB (three slots) issued together. *)
Definition three_calls_together : list Action :=
  [Call to_tmdb; Call to_tmdb; Call to_tmdb; Start 2; Start 2; Start 2].

(** ... and the two spacing timers firing when they are due. *)
Definition three_calls_dispatched : list Action :=
  three_calls_together ++ [Tick 100; TimerFires 1; TimerFires 2].

(** Two calls to one unconfigured site, then a call to another one. *)
Definition two_unconfigured_sites : list Action :=
  [Call to_site_a; Start 4; Call to_site_a; Start 4; Call to_site_b].

(** Two 503 responses, then a success. *)
Definition two_failures_then_ok (k : nat) : Outcome :=
  if (k <? 2)%nat then Threw service_unavailable else Fulfilled ok_response.

(** A call whose config asks for no timeout ([timeout: 0]), started. *)
Definition to_tmdb_without_timeout : AxiosRequestConfig :=
  {| url := Some "https://api.themoviedb.org/3/tv/37854"%string; req_timeout := Some 0 |}.
Definition call_without_timeout : list Action :=
  [Call to_tmdb_without_timeout; Start 2].

(** One call to MyAnimeList, answered. *)
Definition one_call_answered : list Action :=
  [Call to_mal; Start 1; Responds 0 (Fulfilled ok_response) 0].

(** Three calls to MyAnimeList (one slot): the first has started, the
    others wait. *)
Definition three_calls_queued : list Action :=
  [Call to_mal; Call to_mal; Call to_mal; Start 1].

(** One call to MyAnimeList and one to TMDB, both in flight. *)
Definition mal_and_tmdb : list Action :=
  [Call to_mal; Start 1; Call to_tmdb; Start 2].


(** * Properties *)

(** ** Arithmetic of delays *)

Lemma inject_Z_nonneg (z : Z) : 0 <= z -> (0 <= inject_Z z)%Q.
Proof. intros H. change 0%Q with (inject_Z 0). rewrite <- Zle_Qle. exact H. Qed.

Lemma jitter_bounds (rnd : Q) (b : Z) :
  0 <= b -> (0 <= rnd)%Q -> (rnd < 1)%Q ->
  (0 <= rnd * inject_Z b * (1 # 2))%Q /\
  (rnd * inject_Z b * (1 # 2) <= inject_Z b * (1 # 2))%Q.
Proof.
  intros Hb H0 H1. pose proof (inject_Z_nonneg b Hb). split; nra.
Qed.

Lemma Qmin_mono_l (x y m : Q) : (x <= y)%Q -> (Qmin x m <= Qmin y m)%Q.
Proof.
  intros H.
  destruct (Q.min_spec x m) as [[? ->]|[? ->]],
           (Q.min_spec y m) as [[? ->]|[? ->]]; lra.
Qed.

(** ** The decision table of [shouldRetry] *)

Lemma shouldRetry_exhausted error retryCount maxRetries :
  maxRetries <= Z.of_nat retryCount -> shouldRetry error retryCount maxRetries = false.
Proof.
  intros H. unfold shouldRetry.
  destruct (Z.geb_spec (Z.of_nat retryCount) maxRetries); [reflexivity | lia].
Qed.

Lemma shouldRetry_true_lt error retryCount maxRetries :
  shouldRetry error retryCount maxRetries = true -> Z.of_nat retryCount < maxRetries.
Proof.
  unfold shouldRetry.
  destruct (Z.geb_spec (Z.of_nat retryCount) maxRetries); [discriminate | lia].
Qed.

Lemma shouldRetry_retryable error retryCount maxRetries :
  retryable error = true -> Z.of_nat retryCount < maxRetries ->
  shouldRetry error retryCount maxRetries = true.
Proof.
  unfold retryable, shouldRetry. intros Hr Hlt.
  destruct (Z.geb_spec (Z.of_nat retryCount) maxRetries); [lia |].
  destruct (response error) as [resp|]; [| reflexivity].
  destruct (status resp =? 429) eqn:E1; [reflexivity |].
  destruct (status resp =? 503) eqn:E2; [reflexivity |].
  destruct (status resp =? 502) eqn:E3; [reflexivity |].
  destruct (status resp =? 504) eqn:E4; [reflexivity |].
  simpl in *. destruct (is_timeout_code (code error)); [reflexivity |].
  simpl in Hr. apply andb_prop in Hr as [H5 H6].
  apply Z.leb_le in H5. apply Z.ltb_lt in H6.
  destruct (Z.geb_spec (status resp) 400); simpl.
  - destruct (Z.ltb_spec (status resp) 500); [lia |].
    destruct (Z.geb_spec (status resp) 500); [reflexivity | lia].
  - lia.
Qed.

Lemma shouldRetry_client_error error retryCount maxRetries :
  non_retryable_client_error error = true ->
  shouldRetry error retryCount maxRetries = false.
Proof.
  unfold non_retryable_client_error, shouldRetry. intros H.
  destruct (Z.of_nat retryCount >=? maxRetries); [reflexivity |].
  destruct (response error) as [resp|]; [| discriminate].
  repeat (apply andb_prop in H as [H ?]).
  apply Z.leb_le in H. apply Z.ltb_lt in H2.
  apply negb_true_iff in H1, H0. rewrite H0, H1.
  destruct (Z.eqb_spec (status resp) 503); [lia |].
  destruct (Z.eqb_spec (status resp) 502); [lia |].
  destruct (Z.eqb_spec (status resp) 504); [lia |].
  simpl.
  destruct (Z.geb_spec (status resp) 400); [| lia].
  destruct (Z.ltb_spec (status resp) 500); [reflexivity | lia].
Qed.

(** ** The retry loop *)

(** The loop always returns: [Z.to_nat (maxRetries - retryCount) + 1]
    iterations are enough, whatever the outcomes. *)
Lemma request_loop_total fuel axios random cfg maxRetries retryCount :
  (Z.to_nat (maxRetries - Z.of_nat retryCount) < fuel)%nat ->
  is_Some (request_loop fuel axios random cfg maxRetries retryCount).
Proof.
  revert retryCount. induction fuel as [|fuel IH]; intros k Hf; [lia |].
  simpl. destruct (axios k) as [r|error]; [eauto |].
  destruct (shouldRetry error k maxRetries) eqn:Hs; [| eauto].
  apply shouldRetry_true_lt in Hs.
  destruct (IH (S k)) as [r Hr]; [lia |]. rewrite Hr. simpl. eauto.
Qed.

(** More fuel does not change the result. *)
Lemma request_loop_fuel_mono fuel fuel' axios random cfg maxRetries retryCount r :
  (fuel <= fuel')%nat ->
  request_loop fuel axios random cfg maxRetries retryCount = Some r ->
  request_loop fuel' axios random cfg maxRetries retryCount = Some r.
Proof.
  revert fuel' retryCount r. induction fuel as [|fuel IH]; intros fuel' k r Hle H;
    [discriminate |].
  destruct fuel' as [|fuel']; [lia |]. simpl in *.
  destruct (axios k) as [resp|error]; [exact H |].
  destruct (shouldRetry error k maxRetries); [| exact H].
  destruct (request_loop fuel axios random cfg maxRetries (S k)) as [r'|] eqn:E;
    [| discriminate].
  rewrite (IH fuel' (S k) r'); [exact H | lia | exact E].
Qed.

(** The [i]-th sleep of a run is the delay computed from the [i]-th failure
    with the retry count before its increment. *)
Lemma request_loop_sleeps fuel axios random cfg maxRetries retryCount r i d :
  request_loop fuel axios random cfg maxRetries retryCount = Some r ->
  sleeps r !! i = Some d ->
  exists error, axios (retryCount + i)%nat = Threw error /\
    d = getRetryDelay (random (retryCount + i)%nat) error (retryCount + i)%nat cfg.
Proof.
  revert retryCount r i. induction fuel as [|fuel IH]; intros k r i H Hi;
    [discriminate |].
  simpl in H. destruct (axios k) as [resp|error] eqn:Ek.
  - inversion H; subst; simpl in Hi. destruct i; discriminate.
  - destruct (shouldRetry error k maxRetries).
    + destruct (request_loop fuel axios random cfg maxRetries (S k)) as [r'|] eqn:E;
        [| discriminate].
      inversion H; subst; simpl in Hi. destruct i as [|i].
      * inversion Hi; subst. exists error. rewrite Nat.add_0_r. auto.
      * destruct (IH (S k) r' i E Hi) as [e [He Hd]].
        exists e. replace (k + S i)%nat with (S k + i)%nat by lia. auto.
    + inversion H; subst; simpl in Hi. destruct i; discriminate.
Qed.

(** When every outcome is a retryable failure the loop runs until the
    retry count reaches [maxRetries] and throws the error of that attempt. *)
Lemma request_loop_all_retryable fuel axios random cfg maxRetries retryCount :
  Z.of_nat retryCount <= maxRetries ->
  (Z.to_nat (maxRetries - Z.of_nat retryCount) < fuel)%nat ->
  (forall k, exists error, axios k = Threw error /\ retryable error = true) ->
  exists error r,
    axios (Z.to_nat maxRetries) = Threw error /\
    request_loop fuel axios random cfg maxRetries retryCount = Some r /\
    outcome r = Threw error /\
    Z.of_nat (attempts r) = maxRetries - Z.of_nat retryCount + 1 /\
    Z.of_nat (length (sleeps r)) = maxRetries - Z.of_nat retryCount.
Proof.
  intros Hk Hf Hall. revert retryCount Hk Hf.
  induction fuel as [|fuel IH]; intros k Hk Hf; [lia |].
  simpl. destruct (Hall k) as [error [Ek Hr]]. rewrite Ek.
  destruct (Z.eq_dec (Z.of_nat k) maxRetries) as [Heq|Hne].
  - rewrite shouldRetry_exhausted by lia.
    exists error. eexists. split; [| split; [reflexivity |]].
    + rewrite <- Heq, Nat2Z.id. exact Ek.
    + simpl. repeat split; lia.
  - rewrite shouldRetry_retryable by (auto; lia).
    destruct (IH (S k)) as [e [r [He [Hrun [Ho [Ha Hs]]]]]]; [lia | lia |].
    rewrite Hrun. simpl. exists e. eexists. split; [exact He |].
    split; [reflexivity |]. simpl. repeat split; [exact Ho | lia | lia].
Qed.

(** ** [parseInt] reads decimal numerals *)

Lemma digit_value_pretty (d : N) :
  (d < 10)%N -> JS.digit_value (pretty_N_char d) = Some (Z.of_N d).
Proof.
  intros H. destruct d as [|p]; [reflexivity |].
  do 4 (destruct p as [p|p|]; try reflexivity; try lia).
Qed.

Lemma digits_pretty_go (x : N) :
  (0 < x)%N ->
  exists k : Z, 0 <= k /\ forall s acc,
    JS.digits 10 (pretty_N_go x s) acc
    = JS.digits 10 s (Some (default 0 acc * 10 ^ k + Z.of_N x)).
Proof.
  induction (N.lt_wf_0 x) as [x _ IH]. intros Hx.
  assert (Hmod : (x `mod` 10 < 10)%N) by (apply N.mod_lt; lia).
  assert (Hstep : forall s acc,
            JS.digits 10 (String (pretty_N_char (x `mod` 10)) s) acc
            = JS.digits 10 s (Some (default 0 acc * 10 + Z.of_N (x `mod` 10)))).
  { intros s acc. simpl. rewrite (digit_value_pretty _ Hmod).
    destruct (Z.ltb_spec (Z.of_N (x `mod` 10)) 10); [reflexivity | lia]. }
  pose proof (N.div_mod x 10 ltac:(lia)) as Hdm.
  destruct (decide (x `div` 10 = 0)%N) as [Hz | Hnz].
  - exists 1. split; [lia |]. intros s acc.
    rewrite pretty_N_go_step, Hz, pretty_N_go_0, Hstep by exact Hx.
    do 2 f_equal. lia.
  - destruct (IH (x `div` 10)%N) as (k & Hk & Hgo).
    + apply N.div_lt; lia.
    + lia.
    + exists (k + 1). split; [lia |]. intros s acc.
      rewrite pretty_N_go_step, Hgo, Hstep by exact Hx. simpl.
      do 2 f_equal. rewrite Z.pow_add_r by lia. lia.
Qed.

Lemma pretty_go_head (x : N) (s : string) :
  (0 < x)%N ->
  exists c rest, pretty_N_go x s = String c rest /\ JS.leading_digit c = true.
Proof.
  revert s. induction (N.lt_wf_0 x) as [x _ IH]. intros s Hx.
  rewrite pretty_N_go_step by exact Hx.
  destruct (decide (x `div` 10 = 0)%N) as [Hz | Hnz].
  - rewrite Hz, pretty_N_go_0. eexists _, _. split; [reflexivity |].
    assert (Hlt : (x < 10)%N) by (apply N.div_small_iff in Hz; [exact Hz | lia]).
    rewrite (N.mod_small x 10 Hlt).
    destruct x as [|p]; [lia |].
    do 4 (destruct p as [p|p|]; try reflexivity; try lia).
  - apply IH; [apply N.div_lt; lia | apply N.neq_0_lt_0, Hnz].
Qed.

Lemma parseInt_leading_digit c rest :
  JS.leading_digit c = true ->
  JS.parseInt (String c rest) = (fun n => 1 * n) <$> JS.digits 10 (String c rest) None.
Proof.
  intros H. destruct c as [[] [] [] [] [] [] [] []]; try discriminate H; reflexivity.
Qed.

(** [parseInt] of the decimal numeral of [n] is [n]. *)
Lemma parseInt_pretty (n : N) : JS.parseInt (pretty n) = Some (Z.of_N n).
Proof.
  unfold pretty, pretty_N. destruct (decide (n = 0%N)) as [-> | Hn]; [reflexivity |].
  assert (Hpos : (0 < n)%N) by lia.
  destruct (pretty_go_head n "" Hpos) as (c & rest & Heq & Hc).
  rewrite Heq, (parseInt_leading_digit c rest Hc), <- Heq.
  destruct (digits_pretty_go n Hpos) as (k & _ & Hgo).
  rewrite Hgo. simpl. f_equal. lia.
Qed.

(** ** [getRetryDelay] *)

Lemma parseInt_nonempty s n : JS.parseInt s = Some n -> s <> EmptyString.
Proof. intros H ->. discriminate. Qed.

Lemma truthy_nonempty s : s <> EmptyString -> JS.truthy (Some s) = true.
Proof. destruct s; [congruence | reflexivity]. Qed.

(** A positive [Retry-After] is honoured, capped by [maxDelay || 30000]. *)
Lemma getRetryDelay_directive rnd error retryCount cfg s n :
  retry_after_header error = Some s -> JS.parseInt s = Some n -> 0 < n ->
  getRetryDelay rnd error retryCount cfg
  = inject_Z (Z.min (n * 1000) (JS.or_default (maxDelay cfg) 30000)).
Proof.
  intros Hh Hp Hn. unfold getRetryDelay. rewrite Hh.
  rewrite (truthy_nonempty s (parseInt_nonempty s n Hp)).
  change (default EmptyString (Some s)) with s. rewrite Hp.
  destruct (Z.gtb_spec (n * 1000) 0); [reflexivity | lia].
Qed.

(** A [Retry-After] that reads as zero or less is not used. *)
Lemma getRetryDelay_nonpositive rnd error retryCount cfg s n :
  retry_after_header error = Some s -> JS.parseInt s = Some n -> n <= 0 ->
  getRetryDelay rnd error retryCount cfg
  = calculateBackoffDelay rnd retryCount
      (JS.or_default (baseDelay cfg) 1000) (JS.or_default (maxDelay cfg) 30000).
Proof.
  intros Hh Hp Hn. unfold getRetryDelay. rewrite Hh.
  rewrite (truthy_nonempty s (parseInt_nonempty s n Hp)).
  change (default EmptyString (Some s)) with s. rewrite Hp.
  destruct (Z.gtb_spec (n * 1000) 0); [lia | reflexivity].
Qed.

(** Without a [Retry-After] header the delay is the exponential backoff. *)
Lemma getRetryDelay_no_directive rnd error retryCount cfg :
  JS.truthy (retry_after_header error) = false ->
  getRetryDelay rnd error retryCount cfg
  = calculateBackoffDelay rnd retryCount
      (JS.or_default (baseDelay cfg) 1000) (JS.or_default (maxDelay cfg) 30000).
Proof. intros H. unfold getRetryDelay. rewrite H. reflexivity. Qed.

(** ** The registry *)

(** Every call of the constructor returns. *)
Lemma constructor_returns :
  Forall (fun config => configureRateLimit_throws config = false)
    [anilist_policy; mal_policy; tmdb_policy; localhost_policy; default_policy].
Proof. repeat constructor. Qed.

Lemma configured_constructor : configured constructor.
Proof.
  unfold constructor. repeat (apply configured_step; [| reflexivity]).
  apply configured_empty.
Qed.

(** [configureRateLimit] returns exactly when [concurrency || 2] is 1 or
    more, and then appends the new limiter to the store. *)
Lemma configureRateLimit_throws_iff config :
  configureRateLimit_throws config = false <-> 1 <= JS.or_default (concurrency config) 2.
Proof.
  unfold configureRateLimit_throws, pLimit.
  destruct (Z.leb_spec 1 (JS.or_default (concurrency config) 2)); split; (done || lia).
Qed.

Lemma configureRateLimit_returns domain config this :
  configureRateLimit_throws config = false ->
  configureRateLimit domain config this
  = {| heap := heap this ++ [ {| limit_concurrency := JS.or_default (concurrency config) 2;
                                 activeCount := 0; queue := [] |} ];
       limiters := <[domain := length (heap this)]> (limiters this);
       rateLimitConfig := <[domain := config]> (rateLimitConfig this);
       lastRequestTime := lastRequestTime this |}.
Proof.
  unfold configureRateLimit_throws, configureRateLimit, pLimit.
  destruct (1 <=? JS.or_default (concurrency config) 2); [reflexivity | discriminate].
Qed.

Lemma configured_well this : configured this -> well_configured this.
Proof.
  induction 1 as [|domain config this Hc IH Hret].
  - split; simpl; try done.
  - rewrite (configureRateLimit_returns domain config this Hret).
    destruct IH as [Hkeys Hcap Hdist Hidle Hwm].
    assert (Hlt : forall d l, limiters this !! d = Some l -> (l < length (heap this))%nat).
    { intros d l Hl. destruct (rateLimitConfig this !! d) as [cfg|] eqn:E.
      - destruct (Hcap d l cfg Hl E) as [L [HL _]]. eapply lookup_lt_Some, HL.
      - apply Hkeys in E. congruence. }
    split; simpl.
    + intros d. rewrite !lookup_insert. case_decide; [split; discriminate | apply Hkeys].
    + intros d l cfg. rewrite !lookup_insert. case_decide.
      * intros [= <-] [= <-]. eexists. split.
        -- rewrite lookup_app_r, Nat.sub_diag by lia. reflexivity.
        -- reflexivity.
      * intros Hl Hcfg. destruct (Hcap d l cfg Hl Hcfg) as [L [HL HLc]].
        exists L. split; [| exact HLc]. rewrite lookup_app_l; [exact HL |].
        eapply lookup_lt_Some, HL.
    + intros d1 d2 l. rewrite !lookup_insert. repeat case_decide; subst.
      * done.
      * intros [= <-] H2. apply Hlt in H2. lia.
      * intros H1 [= <-]. apply Hlt in H1. lia.
      * apply Hdist.
    + apply Forall_app. split; [exact Hidle |]. repeat constructor.
    + exact Hwm.
Qed.

(** [getConfig] and [getLimiter] fall back together, and the limiter they
    return was built with the concurrency of the policy they return. *)
Lemma resolved_cap this domain cfg l :
  well_configured this ->
  getConfig this domain = Some cfg -> getLimiter this domain = Some l ->
  exists L, heap this !! l = Some L /\
    limit_concurrency L = JS.or_default (concurrency cfg) 2.
Proof.
  intros [Hkeys Hcap _ _ _]. unfold getConfig, getLimiter.
  destruct (rateLimitConfig this !! domain) as [c|] eqn:Ec,
           (limiters this !! domain) as [l'|] eqn:El.
  - intros [= <-] [= <-]. eapply Hcap; eassumption.
  - apply Hkeys in El. congruence.
  - apply Hkeys in Ec. congruence.
  - intros Hc Hl. eapply Hcap; eassumption.
Qed.

Lemma limiter_allocated this domain l :
  well_configured this -> getLimiter this domain = Some l ->
  exists L0, heap this !! l = Some L0.
Proof.
  intros Hwf Hl.
  assert (exists d, limiters this !! d = Some l) as [d Hd].
  { unfold getLimiter in Hl.
    destruct (limiters this !! domain) eqn:E; [exists domain; congruence | eauto]. }
  destruct (rateLimitConfig this !! d) as [cfg|] eqn:Ec.
  - destruct (wc_cap _ Hwf d l cfg Hd Ec) as [L [HL _]]. eauto.
  - apply (wc_same_keys _ Hwf) in Ec. congruence.
Qed.

Lemma resolved_limiter this domain cfg :
  well_configured this -> getConfig this domain = Some cfg ->
  exists l, getLimiter this domain = Some l.
Proof.
  intros Hwf Hc. unfold getConfig in Hc. unfold getLimiter.
  destruct (limiters this !! domain) eqn:E; [eauto |].
  apply (wc_same_keys _ Hwf) in E. rewrite E in Hc.
  destruct (limiters this !! "default"%string) eqn:E'; [eauto |].
  apply (wc_same_keys _ Hwf) in E'. congruence.
Qed.

Lemma static_heap_lookup this m l L0 :
  static_eq this m -> heap this !! l = Some L0 ->
  exists L, heap m !! l = Some L /\ limit_concurrency L = limit_concurrency L0.
Proof.
  intros (_ & _ & Hcaps) HL0.
  assert (H : (limit_concurrency <$> heap m) !! l = Some (limit_concurrency L0))
    by (rewrite <- Hcaps, list_lookup_fmap, HL0; reflexivity).
  rewrite list_lookup_fmap in H. destruct (heap m !! l) as [L|]; [| discriminate].
  injection H as H. eauto.
Qed.

Lemma resolution_succeeds this dflt domain :
  well_configured this -> rateLimitConfig this !! "default"%string = Some dflt ->
  exists cfg l, getConfig this domain = Some cfg /\ getLimiter this domain = Some l.
Proof.
  intros [Hkeys _ _ _ _] Hd. unfold getConfig, getLimiter.
  assert (exists ld, limiters this !! "default"%string = Some ld) as [ld Hld].
  { destruct (limiters this !! "default"%string) eqn:E; [eauto |].
    apply Hkeys in E. congruence. }
  destruct (rateLimitConfig this !! domain) as [c|] eqn:Ec,
           (limiters this !! domain) as [l'|] eqn:El; eauto.
Qed.

Lemma unconfigured_gets_default this domain :
  well_configured this -> rateLimitConfig this !! domain = None ->
  getConfig this domain = rateLimitConfig this !! "default"%string /\
  getLimiter this domain = limiters this !! "default"%string.
Proof.
  intros [Hkeys _ _ _ _] Hc. unfold getConfig, getLimiter.
  rewrite Hc. apply Hkeys in Hc. rewrite Hc. done.
Qed.

Lemma request_unfold this config axios random cfg l :
  getConfig this (getDomain (JS.or_string (url config) "")) = Some cfg ->
  getLimiter this (getDomain (JS.or_string (url config) "")) = Some l ->
  request this config axios random
  = request_loop (S (Z.to_nat (JS.or_default (maxRetries cfg) 3))) axios random cfg
      (JS.or_default (maxRetries cfg) 3) 0.
Proof. intros Hc Hl. unfold request. rewrite Hc, Hl. reflexivity. Qed.

(** C9.  On any manager with a ['default'] entry, policy resolution
    succeeds for every URL and [request] always settles (no error path);
    the policy and the limiter depend on the URL only through its hostname
    and are those stored under that exact hostname when there are any;
    a hostname without an entry receives the ['default'] policy and the
    ['default'] limiter, whose concurrency is the default policy's, and its
    request runs the retry loop with the default policy's retry count. *)
Theorem policy_resolution_total
    (this : SafeRequestManager) (dflt : RateLimiterConfig) :
  configured this -> rateLimitConfig this !! "default"%string = Some dflt ->
  (forall u, exists cfg l,
      getConfig this (getDomain u) = Some cfg /\
      getLimiter this (getDomain u) = Some l)
  /\ (forall config axios random, is_Some (request this config axios random))
  /\ (forall u1 u2, URL_hostname u1 = URL_hostname u2 ->
      getConfig this (getDomain u1) = getConfig this (getDomain u2) /\
      getLimiter this (getDomain u1) = getLimiter this (getDomain u2))
  /\ (forall u hostname cfg, URL_hostname u = Some hostname ->
      rateLimitConfig this !! hostname = Some cfg ->
      getConfig this (getDomain u) = Some cfg /\
      getLimiter this (getDomain u) = limiters this !! hostname)
  /\ (forall u hostname, URL_hostname u = Some hostname ->
      rateLimitConfig this !! hostname = None ->
      getConfig this (getDomain u) = Some dflt /\
      getLimiter this (getDomain u) = limiters this !! "default"%string /\
      (exists ld L, limiters this !! "default"%string = Some ld /\
         heap this !! ld = Some L /\
         limit_concurrency L = JS.or_default (concurrency dflt) 2) /\
      (forall config axios random, JS.or_string (url config) "" = u ->
         request this config axios random
         = request_loop (S (Z.to_nat (JS.or_default (maxRetries dflt) 3))) axios random
             dflt (JS.or_default (maxRetries dflt) 3) 0)).
Proof.
  intros Hconf Hd. pose proof (configured_well this Hconf) as Hwf.
  assert (Hres : forall d, exists cfg l,
            getConfig this d = Some cfg /\ getLimiter this d = Some l)
    by (intros d; eapply resolution_succeeds; eassumption).
  split; [intros u; apply Hres |]. split.
  { intros config axios random.
    destruct (Hres (getDomain (JS.or_string (url config) ""))) as [cfg [l [Hc Hl]]].
    rewrite (request_unfold _ _ _ _ _ _ Hc Hl).
    apply request_loop_total. lia. }
  split.
  { intros u1 u2 Hu. unfold getDomain. rewrite Hu. done. }
  split.
  { intros u hostname cfg Hu Hc. unfold getDomain. rewrite Hu.
    unfold getConfig, getLimiter. rewrite Hc.
    destruct (limiters this !! hostname) eqn:El; [done |].
    apply (wc_same_keys _ Hwf) in El. congruence. }
  intros u hostname Hu Hnone.
  destruct (unconfigured_gets_default this hostname Hwf Hnone) as [Hc Hl].
  assert (Hdom : getDomain u = hostname) by (unfold getDomain; rewrite Hu; done).
  rewrite Hdom, Hc, Hl, Hd.
  destruct (Hres "default"%string) as [cfg [ld [Hcd Hld]]].
  pose proof (resolved_cap _ _ _ _ Hwf Hcd Hld) as [L [HL Hcap]].
  unfold getConfig in Hcd. rewrite Hd in Hcd. injection Hcd as <-.
  unfold getLimiter in Hld.
  assert (Hld' : limiters this !! "default"%string = Some ld)
    by (destruct (limiters this !! "default"%string); done).
  split; [done |]. split; [done |]. split; [eauto |].
  intros config axios random Hurl.
  apply (request_unfold _ _ _ _ _ ld); rewrite Hurl, Hdom; congruence.
Qed.

(** C10.  When the request config has no URL (the empty string is used;
    [new URL('')] throws) or a URL the parser rejects, [getDomain] returns
    ['default'] instead of throwing: the request resolves the default
    policy and the default limiter, and runs the retry loop with the default
    policy's retry count and delay parameters. *)
Theorem unparseable_url_uses_default
    (this : SafeRequestManager) (dflt : RateLimiterConfig)
    (config : AxiosRequestConfig) :
  configured this -> rateLimitConfig this !! "default"%string = Some dflt ->
  URL_hostname "" = None ->
  url config = None \/ (exists u, url config = Some u /\ URL_hostname u = None) ->
  getDomain (JS.or_string (url config) "") = "default"%string
  /\ getConfig this (getDomain (JS.or_string (url config) "")) = Some dflt
  /\ (exists ld L,
        getLimiter this (getDomain (JS.or_string (url config) "")) = Some ld /\
        limiters this !! "default"%string = Some ld /\
        heap this !! ld = Some L /\
        limit_concurrency L = JS.or_default (concurrency dflt) 2)
  /\ (forall axios random,
        request this config axios random
        = request_loop (S (Z.to_nat (JS.or_default (maxRetries dflt) 3))) axios random
            dflt (JS.or_default (maxRetries dflt) 3) 0 /\
        is_Some (request this config axios random))
  /\ (forall t0, exists ld s',
        step (Call config) (boot this t0) = Some s' /\
        limiters this !! "default"%string = Some ld /\
        tasks s' = [ {| t_config := config; t_domain := "default";
                        t_rateLimitConfig := dflt; t_limiter := ld;
                        t_retryCount := 0; t_pc := Queued; t_leased := false |} ]).
Proof.
  intros Hconf Hd Hempty Hurl. pose proof (configured_well this Hconf) as Hwf.
  assert (Hdom : getDomain (JS.or_string (url config) "") = "default"%string).
  { unfold getDomain.
    destruct Hurl as [-> | [u [-> Hu]]]; simpl.
    - rewrite Hempty. done.
    - destruct u; simpl; [rewrite Hempty | rewrite Hu]; done. }
  destruct (resolution_succeeds this dflt "default"%string Hwf Hd) as [cfg [ld [Hc Hl]]].
  pose proof (resolved_cap _ _ _ _ Hwf Hc Hl) as [L [HL Hcap]].
  assert (cfg = dflt) as -> by (unfold getConfig in Hc; rewrite Hd in Hc; congruence).
  assert (Hld : limiters this !! "default"%string = Some ld)
    by (unfold getLimiter in Hl; destruct (limiters this !! "default"%string); done).
  rewrite Hdom. split; [done |]. split; [done |].
  split; [exists ld, L; done |]. split.
  { intros axios random. rewrite (request_unfold _ _ _ _ dflt ld) by (rewrite Hdom; done).
    split; [done |]. apply request_loop_total. lia. }
  intros t0. exists ld. eexists. split; [| split; [exact Hld |]].
  - simpl. rewrite Hdom, Hc, Hl. simpl. rewrite HL. simpl. reflexivity.
  - reflexivity.
Qed.

(** ** Counting *)

Lemma tally_app {A} (P : A -> bool) (l1 l2 : list A) :
  tally P (l1 ++ l2) = (tally P l1 + tally P l2)%nat.
Proof. induction l1 as [|x l1 IH]; simpl; [reflexivity | rewrite IH; lia]. Qed.

Lemma tally_insert {A} (P : A -> bool) (l : list A) (i : nat) (x y : A) :
  l !! i = Some x ->
  (tally P (<[i := y]> l) + (if P x then 1 else 0)
   = tally P l + (if P y then 1 else 0))%nat.
Proof.
  revert i. induction l as [|z l IH]; intros [|i] H; simpl in *; try discriminate.
  - injection H as ->. lia.
  - specialize (IH i H). lia.
Qed.

Lemma tally_lookup_pos {A} (P : A -> bool) (l : list A) (i : nat) (x : A) :
  l !! i = Some x -> P x = true -> (1 <= tally P l)%nat.
Proof.
  revert i. induction l as [|z l IH]; intros [|i] H Hx; simpl in *; try discriminate.
  - injection H as ->. rewrite Hx. lia.
  - specialize (IH i H Hx). lia.
Qed.

Lemma tally_two {A} (P : A -> bool) (l : list A) (i j : nat) (x y : A) :
  l !! i = Some x -> l !! j = Some y -> i <> j -> P x = true -> P y = true ->
  (2 <= tally P l)%nat.
Proof.
  revert i j. induction l as [|z l IH]; intros [|i] [|j] Hi Hj Hne Hx Hy;
    simpl in *; try discriminate; try congruence.
  - injection Hi as ->. rewrite Hx.
    pose proof (tally_lookup_pos P l j y Hj Hy). lia.
  - injection Hj as ->. rewrite Hy.
    pose proof (tally_lookup_pos P l i x Hi Hx). lia.
  - assert (i <> j) by congruence. specialize (IH i j Hi Hj H Hx Hy). lia.
Qed.

Lemma tally_le {A} (P Q : A -> bool) (l : list A) :
  Forall (fun x => P x = true -> Q x = true) l -> (tally P l <= tally Q l)%nat.
Proof.
  induction 1 as [|x l Hx _ IH]; simpl; [lia |].
  destruct (P x); [rewrite Hx by reflexivity |]; destruct (Q x); lia.
Qed.

Lemma leases_insert_same l ts i t t' :
  ts !! i = Some t -> t_limiter t' = t_limiter t -> t_leased t' = t_leased t ->
  leases l (<[i := t']> ts) = leases l ts.
Proof.
  intros Hi Hl Hb. unfold leases.
  pose proof (tally_insert (fun t => bool_decide (t_limiter t = l) && t_leased t)
                ts i t t' Hi) as H.
  cbv beta in H. rewrite Hl, Hb in H. lia.
Qed.

Lemma leases_insert_other l ts i t t' :
  ts !! i = Some t -> t_limiter t' = t_limiter t -> t_limiter t <> l ->
  leases l (<[i := t']> ts) = leases l ts.
Proof.
  intros Hi Hl Hne. unfold leases.
  pose proof (tally_insert (fun t => bool_decide (t_limiter t = l) && t_leased t)
                ts i t t' Hi) as H.
  cbv beta in H. rewrite Hl in H. rewrite !bool_decide_eq_false_2 in H by done.
  simpl in H. lia.
Qed.

Lemma leases_insert_acquire ts i t t' :
  ts !! i = Some t -> t_limiter t' = t_limiter t ->
  t_leased t = false -> t_leased t' = true ->
  leases (t_limiter t) (<[i := t']> ts) = S (leases (t_limiter t) ts).
Proof.
  intros Hi Hl Hb Hb'. unfold leases.
  pose proof (tally_insert (fun x => bool_decide (t_limiter x = t_limiter t) && t_leased x)
                ts i t t' Hi) as H.
  cbv beta in H. rewrite Hl, Hb, Hb' in H.
  rewrite !bool_decide_eq_true_2 in H by done. simpl in H. lia.
Qed.

Lemma leases_insert_release ts i t t' :
  ts !! i = Some t -> t_limiter t' = t_limiter t ->
  t_leased t = true -> t_leased t' = false ->
  S (leases (t_limiter t) (<[i := t']> ts)) = leases (t_limiter t) ts.
Proof.
  intros Hi Hl Hb Hb'. unfold leases.
  pose proof (tally_insert (fun x => bool_decide (t_limiter x = t_limiter t) && t_leased x)
                ts i t t' Hi) as H.
  cbv beta in H. rewrite Hl, Hb, Hb' in H.
  rewrite !bool_decide_eq_true_2 in H by done. simpl in H. lia.
Qed.

(** ** Slot accounting under the four ways a step changes it *)

Lemma queue_ok_insert l L ts i t t' :
  queue_ok l L ts -> ts !! i = Some t -> i ∉ queue L ->
  queue_ok l L (<[i := t']> ts).
Proof.
  intros [Hnd Hq] Hi Hnot. split; [exact Hnd |].
  intros j Hj. destruct (Hq j Hj) as [tj [Htj Hrest]].
  exists tj. split; [| exact Hrest].
  rewrite list_lookup_insert_ne; [exact Htj |]. intros ->. done.
Qed.

Lemma not_queued_not_in_queue l L ts i t :
  queue_ok l L ts -> ts !! i = Some t -> t_pc t <> Queued -> i ∉ queue L.
Proof.
  intros [_ Hq] Hi Hpc Hin. destruct (Hq i Hin) as [t' [Ht' [_ [Hp _]]]].
  congruence.
Qed.

(** A started call moves on (spacing wait, in flight, backing off): nothing
    changes for the limiters. *)
Lemma accounted_retarget H ts i t t' :
  accounted H ts -> ts !! i = Some t ->
  t_limiter t' = t_limiter t -> t_leased t' = t_leased t -> t_pc t <> Queued ->
  accounted H (<[i := t']> ts).
Proof.
  intros Hacc Hi Hl Hb Hpc l L HL. destruct (Hacc l L HL) as [Hc [Hle Hq]].
  split; [| split; [exact Hle |]].
  - rewrite (leases_insert_same l ts i t t'); assumption.
  - eapply queue_ok_insert; [exact Hq | exact Hi |].
    eapply not_queued_not_in_queue; eassumption.
Qed.

(** A call settles: its limiter counts one less. *)
Lemma accounted_release H ts i t t' L :
  accounted H ts -> ts !! i = Some t -> H !! t_limiter t = Some L ->
  t_limiter t' = t_limiter t -> t_leased t = true -> t_leased t' = false ->
  t_pc t <> Queued ->
  accounted
    (<[t_limiter t := {| limit_concurrency := limit_concurrency L;
                         activeCount := activeCount L - 1; queue := queue L |}]> H)
    (<[i := t']> ts).
Proof.
  intros Hacc Hi HL Hl Hb Hb' Hpc l L1 HL1.
  destruct (decide (l = t_limiter t)) as [-> | Hne].
  - rewrite list_lookup_insert_eq in HL1 by (eapply lookup_lt_Some, HL).
    injection HL1 as <-. destruct (Hacc _ _ HL) as [Hc [Hle Hq]]. simpl.
    pose proof (leases_insert_release ts i t t' Hi Hl Hb Hb').
    split; [lia | split; [lia |]].
    destruct Hq as [Hnd Hq]. split; [exact Hnd |]. simpl.
    intros j Hj. destruct (Hq j Hj) as [tj [Htj Hrest]].
    exists tj. split; [| exact Hrest].
    rewrite list_lookup_insert_ne; [exact Htj |].
    intros ->. destruct Hrest as [_ [Hp _]]. congruence.
  - rewrite list_lookup_insert_ne in HL1 by done.
    destruct (Hacc _ _ HL1) as [Hc [Hle Hq]].
    split; [| split; [exact Hle |]].
    + rewrite (leases_insert_other l ts i t t'); try assumption. congruence.
    + eapply queue_ok_insert; [exact Hq | exact Hi |].
      eapply not_queued_not_in_queue; eassumption.
Qed.

(** The oldest queued call of a limiter with a free slot starts. *)
Lemma accounted_acquire H ts l L j q t t' :
  accounted H ts -> H !! l = Some L -> queue L = j :: q -> ts !! j = Some t ->
  activeCount L < Z.max 0 (limit_concurrency L) ->
  t_limiter t' = t_limiter t -> t_leased t' = true -> t_pc t' <> Queued ->
  accounted
    (<[l := {| limit_concurrency := limit_concurrency L;
               activeCount := activeCount L + 1; queue := q |}]> H)
    (<[j := t']> ts).
Proof.
  intros Hacc HL Hqueue Hj Hfree Hl Hb' Hpc' l1 L1 HL1.
  destruct (Hacc _ _ HL) as [Hc [Hle [Hnd Hq]]].
  destruct (Hq j) as [tj [Htj [Hlim [Hpc Hb]]]]; [rewrite Hqueue; left |].
  assert (tj = t) as -> by congruence.
  rewrite Hqueue in Hnd. apply NoDup_cons in Hnd as [Hjq Hnd].
  destruct (decide (l1 = l)) as [-> | Hne].
  - rewrite list_lookup_insert_eq in HL1 by (eapply lookup_lt_Some, HL).
    injection HL1 as <-. simpl.
    pose proof (leases_insert_acquire ts j t t' Hj Hl Hb Hb') as Hacq.
    rewrite Hlim in Hacq.
    split; [lia | split; [lia |]].
    split; [exact Hnd |]. simpl. intros k Hk.
    destruct (Hq k) as [tk [Htk Hrest]]; [rewrite Hqueue; right; exact Hk |].
    exists tk. split; [| exact Hrest].
    rewrite list_lookup_insert_ne; [exact Htk |]. intros ->. done.
  - rewrite list_lookup_insert_ne in HL1 by done.
    destruct (Hacc _ _ HL1) as [Hc1 [Hle1 [Hnd1 Hq1]]].
    split; [| split; [exact Hle1 |]].
    + rewrite (leases_insert_other l1 ts j t t'); try assumption. congruence.
    + split; [exact Hnd1 |]. intros k Hk.
      destruct (Hq1 k Hk) as [tk [Htk Hrest]].
      exists tk. split; [| exact Hrest].
      rewrite list_lookup_insert_ne; [exact Htk |].
      intros ->. destruct Hrest as [Hlk _]. congruence.
Qed.

(** A new call is submitted to a limiter. *)
Lemma accounted_enqueue H ts l L t :
  accounted H ts -> H !! l = Some L ->
  t_limiter t = l -> t_pc t = Queued -> t_leased t = false ->
  accounted
    (<[l := {| limit_concurrency := limit_concurrency L;
               activeCount := activeCount L; queue := queue L ++ [length ts] |}]> H)
    (ts ++ [t]).
Proof.
  intros Hacc HL Hl Hpc Hb l1 L1 HL1.
  assert (Hleases : forall l0, leases l0 (ts ++ [t]) = leases l0 ts).
  { intros l0. unfold leases. rewrite tally_app. simpl. rewrite Hb.
    rewrite andb_false_r. lia. }
  assert (Hkeep : forall l0 L0, queue_ok l0 L0 ts ->
            (forall j, j ∈ queue L0 ->
               exists tj, (ts ++ [t]) !! j = Some tj /\ t_limiter tj = l0 /\
                          t_pc tj = Queued /\ t_leased tj = false) /\
            length ts ∉ queue L0).
  { intros l0 L0 [_ Hq]. split.
    - intros j Hj. destruct (Hq j Hj) as [tj [Htj Hrest]].
      exists tj. split; [| exact Hrest].
      rewrite lookup_app_l; [exact Htj | eapply lookup_lt_Some, Htj].
    - intros Hin. destruct (Hq _ Hin) as [tj [Htj _]].
      apply lookup_lt_Some in Htj. lia. }
  rewrite Hleases.
  destruct (decide (l1 = l)) as [-> | Hne].
  - rewrite list_lookup_insert_eq in HL1 by (eapply lookup_lt_Some, HL).
    injection HL1 as <-. simpl.
    destruct (Hacc _ _ HL) as [Hc [Hle Hq]].
    destruct (Hkeep _ _ Hq) as [Hold Hfresh].
    split; [exact Hc | split; [exact Hle |]].
    split; simpl.
    + apply NoDup_app. split; [apply Hq |]. split; [| apply NoDup_singleton].
      intros j Hj Hj'. apply list_elem_of_singleton in Hj'. subst. done.
    + intros j Hj. apply elem_of_app in Hj as [Hj | Hj]; [apply Hold, Hj |].
      apply list_elem_of_singleton in Hj. subst j.
      exists t. rewrite lookup_app_r, Nat.sub_diag by lia. done.
  - rewrite list_lookup_insert_ne in HL1 by done.
    destruct (Hacc _ _ HL1) as [Hc [Hle Hq]].
    destruct (Hkeep _ _ Hq) as [Hold _].
    split; [exact Hc | split; [exact Hle |]].
    split; [apply Hq | exact Hold].
Qed.

(** ** The shape of a step *)

Lemma enforce_cases i t s :
  let lr := JS.or_default (lastRequestTime (mgr s) !! t_domain t) 0 in
  (now s - lr < minRequestInterval /\
   enforceRateLimit i t s
   = with_task i (set_pc (SpacingWait lr (lr + minRequestInterval)) t) s)
  \/ (minRequestInterval <= now s - lr /\ enforceRateLimit i t s = dispatch i t lr s).
Proof.
  intros lr. unfold enforceRateLimit. fold lr.
  destruct (Z.ltb_spec (now s - lr) minRequestInterval); [left | right]; split; try done.
  do 3 f_equal. lia.
Qed.

Lemma enforce_fields i t s :
  exists pc', pc' <> Queued /\ is_unsettled_started (set_pc pc' t) = true /\
    tasks (enforceRateLimit i t s) = <[i := set_pc pc' t]> (tasks s) /\
    heap (mgr (enforceRateLimit i t s)) = heap (mgr s) /\
    limiters (mgr (enforceRateLimit i t s)) = limiters (mgr s) /\
    rateLimitConfig (mgr (enforceRateLimit i t s)) = rateLimitConfig (mgr s).
Proof.
  destruct (enforce_cases i t s) as [[_ ->] | [_ ->]]; eexists; simpl;
    (split; [| split; [| repeat split]]); try reflexivity; discriminate.
Qed.

Lemma run_inv l L s s' :
  run l L s = Some s' ->
  exists j q t, queue L = j :: q /\ tasks s !! j = Some t /\
    s' = enforceRateLimit j (set_leased true t)
           (with_limit l {| limit_concurrency := limit_concurrency L;
                            activeCount := activeCount L + 1; queue := q |} s).
Proof.
  unfold run. destruct (queue L) as [|j q]; [discriminate |].
  intros H. apply bind_Some in H as [t [Ht H]]. injection H as <-.
  exists j, q, t. done.
Qed.

Lemma next_inv l s s' :
  next l s = Some s' ->
  exists L, heap (mgr s) !! l = Some L /\
    let L' := {| limit_concurrency := limit_concurrency L;
                 activeCount := activeCount L - 1; queue := queue L |} in
    (queue L = [] /\ s' = with_limit l L' s) \/ run l L' s = Some s'.
Proof.
  unfold next. intros H. apply bind_Some in H as [L [HL H]].
  exists L. split; [exact HL |]. simpl.
  destruct (queue L) eqn:E; [injection H as <-; left | right]; done.
Qed.

(** ** Preservation, component by component *)

(** A call is leased because of where it is suspended: [Hb] is its
    instance of the lease invariant and [Hpc] gives its program point. *)
Ltac leased_by_pc Hb Hpc :=
  rewrite Hb; unfold is_unsettled_started; rewrite Hpc; reflexivity.

Lemma static_eq_with_limit this l L s :
  static_eq this (mgr s) ->
  (forall L0, heap (mgr s) !! l = Some L0 -> limit_concurrency L = limit_concurrency L0) ->
  static_eq this (mgr (with_limit l L s)).
Proof.
  intros (H1 & H2 & H3) Hcap. repeat split; simpl; try assumption.
  rewrite H3, list_fmap_insert.
  destruct (heap (mgr s) !! l) as [L0|] eqn:E.
  - rewrite list_insert_id; [done |]. rewrite list_lookup_fmap, E. simpl.
    f_equal. symmetry. auto.
  - rewrite list_insert_ge; [done |]. rewrite length_fmap.
    apply lookup_ge_None. exact E.
Qed.

Lemma static_eq_enforce this i t s :
  static_eq this (mgr s) -> static_eq this (mgr (enforceRateLimit i t s)).
Proof.
  intros (H1 & H2 & H3). destruct (enforce_fields i t s) as (pc' & _ & _ & _ & E1 & E2 & E3).
  unfold static_eq. rewrite E1, E2, E3. done.
Qed.

Lemma static_eq_run this l L s s' :
  static_eq this (mgr s) ->
  (forall L0, heap (mgr s) !! l = Some L0 -> limit_concurrency L = limit_concurrency L0) ->
  run l L s = Some s' -> static_eq this (mgr s').
Proof.
  intros Hs Hcap Hrun. apply run_inv in Hrun as (j & q & t & _ & _ & ->).
  apply static_eq_enforce, static_eq_with_limit; [exact Hs | exact Hcap].
Qed.

Lemma static_eq_settle this i t o s s' :
  static_eq this (mgr s) -> settle i t o s = Some s' -> static_eq this (mgr s').
Proof.
  intros Hs H. unfold settle in H.
  apply next_inv in H as (L & HL & [[_ ->] | Hrun]).
  - apply static_eq_with_limit; [exact Hs |]. simpl in *. intros L0 HL0. congruence.
  - eapply static_eq_run; [| | exact Hrun]; [exact Hs |].
    simpl in *. intros L0 HL0. congruence.
Qed.

Lemma static_eq_step this a s s' :
  static_eq this (mgr s) -> step a s = Some s' -> static_eq this (mgr s').
Proof.
  intros Hs H. destruct a as [dt | config | l | i | i o rnd]; simpl in H.
  - destruct (0 <=? dt); [injection H as <-; exact Hs | discriminate].
  - apply bind_Some in H as (cfg & _ & H). apply bind_Some in H as (l & _ & H).
    apply bind_Some in H as (L & HL & H). injection H as <-.
    apply (static_eq_with_limit this l _
             {| mgr := mgr s; now := now s; tasks := _; sent := sent s |});
      [exact Hs |]. simpl. intros L0 HL0. congruence.
  - apply bind_Some in H as (L & HL & H).
    destruct (activeCount L <? limit_concurrency L); [| discriminate].
    eapply static_eq_run; [exact Hs | | exact H]. intros L0 HL0. congruence.
  - apply bind_Some in H as (t & Ht & H).
    destruct (t_pc t) as [| lr wake | | wake | o]; try discriminate.
    + destruct (wake <=? now s); [injection H as <-; exact Hs | discriminate].
    + destruct (wake <=? now s); [| discriminate].
      injection H as <-. apply static_eq_enforce, Hs.
  - apply bind_Some in H as (t & Ht & H).
    destruct (t_pc t); try discriminate.
    destruct o as [r | error].
    + eapply static_eq_settle; eassumption.
    + destruct (shouldRetry _ _ _).
      * injection H as <-. exact Hs.
      * eapply static_eq_settle; eassumption.
Qed.

Lemma tasks_ok_enforce this i t s :
  Forall (task_ok this) (tasks s) -> locals_ok this t -> t_leased t = true ->
  Forall (task_ok this) (tasks (enforceRateLimit i t s)).
Proof.
  intros Hall Hloc Hb.
  destruct (enforce_fields i t s) as (pc' & _ & Hpc & -> & _).
  apply Forall_insert; [exact Hall |]. split; [exact Hloc |]. simpl in *. congruence.
Qed.

Lemma tasks_ok_run this l L s s' :
  Forall (task_ok this) (tasks s) -> run l L s = Some s' ->
  Forall (task_ok this) (tasks s').
Proof.
  intros Hall Hrun. apply run_inv in Hrun as (j & q & t & _ & Ht & ->).
  apply tasks_ok_enforce; [exact Hall | | reflexivity].
  apply (proj1 (Forall_lookup _ _) Hall j t Ht).
Qed.

Lemma tasks_ok_settle this i t o s s' :
  Forall (task_ok this) (tasks s) -> locals_ok this t ->
  settle i t o s = Some s' -> Forall (task_ok this) (tasks s').
Proof.
  intros Hall Hloc H. unfold settle in H.
  assert (Hmid : Forall (task_ok this)
                   (tasks (with_task i (set_leased false (set_pc (Settled o) t)) s))).
  { simpl. apply Forall_insert; [exact Hall |]. split; [exact Hloc | reflexivity]. }
  apply next_inv in H as (L & HL & [[_ ->] | Hrun]); [exact Hmid |].
  eapply tasks_ok_run; [exact Hmid | exact Hrun].
Qed.

Lemma getConfig_static this m d :
  static_eq this m -> getConfig m d = getConfig this d /\ getLimiter m d = getLimiter this d.
Proof. intros (H1 & H2 & _). unfold getConfig, getLimiter. rewrite H1, H2. done. Qed.

Lemma tasks_ok_step this a s s' :
  static_eq this (mgr s) -> Forall (task_ok this) (tasks s) ->
  step a s = Some s' -> Forall (task_ok this) (tasks s').
Proof.
  intros Hs Hall H. destruct a as [dt | config | l | i | i o rnd]; simpl in H.
  - destruct (0 <=? dt); [injection H as <-; exact Hall | discriminate].
  - apply bind_Some in H as (cfg & Hc & H). apply bind_Some in H as (l & Hl & H).
    apply bind_Some in H as (L & HL & H). injection H as <-. simpl.
    apply Forall_app. split; [exact Hall |]. constructor; [| constructor].
    destruct (getConfig_static this (mgr s)
                (getDomain (JS.or_string (url config) "")) Hs) as [E1 E2].
    split; [split; simpl; congruence | reflexivity].
  - apply bind_Some in H as (L & HL & H).
    destruct (activeCount L <? limit_concurrency L); [| discriminate].
    eapply tasks_ok_run; eassumption.
  - apply bind_Some in H as (t & Ht & H).
    destruct (proj1 (Forall_lookup _ _) Hall i t Ht) as [Hloc Hb].
    destruct (t_pc t) as [| lr wake | | wake | o] eqn:Hpc; try discriminate.
    + destruct (wake <=? now s); [injection H as <- | discriminate]. simpl.
      apply Forall_insert; [exact Hall |]. split; [exact Hloc |]. simpl.
      leased_by_pc Hb Hpc.
    + destruct (wake <=? now s); [| discriminate].
      injection H as <-. apply tasks_ok_enforce; [exact Hall | exact Hloc |].
      simpl. leased_by_pc Hb Hpc.
  - apply bind_Some in H as (t & Ht & H).
    destruct (proj1 (Forall_lookup _ _) Hall i t Ht) as [Hloc Hb].
    destruct (t_pc t) eqn:Hpc; try discriminate.
    destruct o as [r | error].
    + eapply tasks_ok_settle; eassumption.
    + destruct (shouldRetry _ _ _).
      * injection H as <-. simpl. apply Forall_insert; [exact Hall |].
        split; [exact Hloc |]. simpl. leased_by_pc Hb Hpc.
      * eapply tasks_ok_settle; eassumption.
Qed.

(** *** Slot accounting *)

Lemma accounted_settle i t o s s' :
  accounted (heap (mgr s)) (tasks s) -> tasks s !! i = Some t ->
  t_leased t = true -> t_pc t <> Queued ->
  settle i t o s = Some s' -> accounted (heap (mgr s')) (tasks s').
Proof.
  intros Hacc Hi Hb Hpc H. unfold settle in H.
  apply next_inv in H as (L & HL & Hnext). simpl in HL.
  pose proof (accounted_release _ _ i t (set_leased false (set_pc (Settled o) t)) L
                Hacc Hi HL eq_refl Hb eq_refl Hpc) as Hrel.
  destruct Hnext as [[_ ->] | Hrun]; [exact Hrel |].
  apply run_inv in Hrun as (j & q & tj & Hq & Hj & ->). simpl in Hq, Hj.
  match goal with
  | |- context [enforceRateLimit ?j0 ?t0 ?s0] =>
      destruct (enforce_fields j0 t0 s0) as (pc' & Hpc' & _ & -> & -> & _)
  end. simpl.
  destruct (Hacc _ _ HL) as (_ & Hle & _).
  pose proof (accounted_acquire _ _ (t_limiter t)
                {| limit_concurrency := limit_concurrency L;
                   activeCount := activeCount L - 1; queue := queue L |}
                j q tj (set_pc pc' (set_leased true tj)) Hrel) as Hacq.
  rewrite list_insert_insert_eq in Hacq. simpl in Hacq. apply Hacq; try done.
  - apply list_lookup_insert_eq. eapply lookup_lt_Some, HL.
  - lia.
Qed.

Lemma accounted_step this a s s' :
  Forall (task_ok this) (tasks s) -> accounted (heap (mgr s)) (tasks s) ->
  step a s = Some s' -> accounted (heap (mgr s')) (tasks s').
Proof.
  intros Hall Hacc H. destruct a as [dt | config | l | i | i o rnd]; simpl in H.
  - destruct (0 <=? dt); [injection H as <-; exact Hacc | discriminate].
  - apply bind_Some in H as (cfg & Hc & H). apply bind_Some in H as (l & Hl & H).
    apply bind_Some in H as (L & HL & H). injection H as <-. simpl.
    apply accounted_enqueue; done.
  - apply bind_Some in H as (L & HL & H).
    destruct (Z.ltb_spec (activeCount L) (limit_concurrency L)); [| discriminate].
    apply run_inv in H as (j & q & t & Hq & Hj & ->).
    match goal with
    | |- context [enforceRateLimit ?j0 ?t0 ?s0] =>
        destruct (enforce_fields j0 t0 s0) as (pc' & Hpc' & _ & -> & -> & _)
    end. simpl.
    eapply accounted_acquire; try done. lia.
  - apply bind_Some in H as (t & Ht & H).
    destruct (t_pc t) as [| lr wake | | wake | o] eqn:Hpc; try discriminate.
    + destruct (wake <=? now s); [injection H as <- | discriminate]. simpl.
      eapply accounted_retarget; try done. congruence.
    + destruct (wake <=? now s); [| discriminate].
      injection H as <-.
      destruct (enforce_fields i (set_retryCount (S (t_retryCount t)) t) s)
        as (pc' & Hpc' & _ & -> & -> & _).
      eapply accounted_retarget; try done. congruence.
  - apply bind_Some in H as (t & Ht & H).
    destruct (proj1 (Forall_lookup _ _) Hall i t Ht) as [Hloc Hb].
    destruct (t_pc t) eqn:Hpc; try discriminate.
    assert (Hleased : t_leased t = true)
      by (leased_by_pc Hb Hpc).
    assert (Hnq : t_pc t <> Queued) by congruence.
    destruct o as [r | error].
    + eapply accounted_settle; eassumption.
    + destruct (shouldRetry _ _ _).
      * injection H as <-. simpl. eapply accounted_retarget; try done.
      * eapply accounted_settle; eassumption.
Qed.

(** *** Watermarks and the log of calls *)

Lemma latest_dispatch_snoc domain log e :
  latest_dispatch domain (log ++ [e])
  = if decide (d_domain e = domain) then Some (d_time e) else latest_dispatch domain log.
Proof.
  unfold latest_dispatch. rewrite filter_app, filter_cons, filter_nil.
  destruct (decide (d_domain e = domain)).
  - rewrite fmap_app. simpl. apply last_snoc.
  - rewrite app_nil_r. reflexivity.
Qed.

Lemma latest_dispatch_Some domain log v :
  latest_dispatch domain log = Some v ->
  exists e, e ∈ log /\ d_domain e = domain /\ d_time e = v.
Proof.
  induction log as [|e log IH] using rev_ind; [discriminate |].
  rewrite latest_dispatch_snoc. destruct (decide (d_domain e = domain)).
  - intros [= <-]. exists e. split; [apply elem_of_app; right; left | done].
  - intros H. destruct (IH H) as (e' & He' & Hrest).
    exists e'. split; [apply elem_of_app; left; exact He' | exact Hrest].
Qed.

Lemma latest_dispatch_is_Some domain log :
  is_Some (latest_dispatch domain log) <-> exists e, e ∈ log /\ d_domain e = domain.
Proof.
  induction log as [|e log IH] using rev_ind.
  - split; [intros [v H]; discriminate | intros (e & He & _); inversion He].
  - rewrite latest_dispatch_snoc. destruct (decide (d_domain e = domain)).
    + split; [| eauto]. intros _. exists e. split; [apply elem_of_app; right; left | done].
    + rewrite IH. split.
      * intros (e' & He' & Hd). exists e'. split; [apply elem_of_app; left |]; done.
      * intros (e' & He' & Hd). apply elem_of_app in He' as [He' | He']; [eauto |].
        apply list_elem_of_singleton in He'. congruence.
Qed.

Lemma seen_snoc domain v log e : seen domain v log -> seen domain v (log ++ [e]).
Proof.
  intros [-> | (e' & He' & Hrest)]; [left; reflexivity | right].
  exists e'. split; [apply elem_of_app; left; exact He' | exact Hrest].
Qed.

(** The value [enforceRateLimit] reads, [lastRequestTime.get(domain) || 0]. *)
Lemma watermark_read_seen s domain :
  spaced s -> seen domain (JS.or_default (lastRequestTime (mgr s) !! domain) 0) (sent s).
Proof.
  intros Hsp. rewrite (sp_watermark s Hsp).
  destruct (latest_dispatch domain (sent s)) as [v|] eqn:E; simpl; [| left; reflexivity].
  destruct (Z.eqb_spec v 0); [left; reflexivity | right].
  apply latest_dispatch_Some, E.
Qed.

Lemma spaced_with_task i t s :
  spaced s ->
  (forall lastRequest wake, t_pc t = SpacingWait lastRequest wake ->
                            wake = lastRequest + minRequestInterval /\
                            seen (t_domain t) lastRequest (sent s)) ->
  spaced (with_task i t s).
Proof.
  intros [Hw Hs Hr Hl Hq] Ht. split; simpl; [exact Hw | exact Hs | exact Hr | exact Hl |].
  apply Forall_insert; [exact Hq | exact Ht].
Qed.

Lemma spaced_with_limit l L s : spaced s -> spaced (with_limit l L s).
Proof. intros [Hw Hs Hr Hl Hq]. split; simpl; assumption. Qed.

Lemma spaced_dispatch i t lastRequest s :
  spaced s -> lastRequest + minRequestInterval <= now s ->
  seen (t_domain t) lastRequest (sent s) ->
  spaced (dispatch i t lastRequest s).
Proof.
  intros [Hw Hs Hr Hl Hq] Hle Hseen. split; simpl.
  - intros domain. rewrite latest_dispatch_snoc, lookup_insert. simpl.
    destruct (decide (t_domain t = domain)); [reflexivity | apply Hw].
  - apply Forall_app. split; [exact Hs |]. constructor; [| constructor].
    simpl. lia.
  - intros k e Hk. destruct (decide (k < length (sent s))%nat) as [Hlt | Hge].
    + rewrite lookup_app_l in Hk by exact Hlt.
      rewrite take_app_le by lia. apply Hr, Hk.
    + assert (Hlen := lookup_lt_Some _ _ _ Hk). rewrite length_app in Hlen.
      simpl in Hlen. assert (k = length (sent s)) as -> by lia.
      rewrite lookup_app_r, Nat.sub_diag in Hk by lia. injection Hk as <-.
      rewrite take_app_length. simpl. exact Hseen.
  - intros e He. rewrite latest_dispatch_snoc. simpl.
    apply elem_of_app in He as [He | He].
    + destruct (decide (t_domain t = d_domain e)).
      * exists (now s). split; [reflexivity |].
        apply (proj1 (Forall_forall _ _) Hs e He).
      * apply Hl, He.
    + apply list_elem_of_singleton in He. subst e. simpl.
      rewrite decide_True by reflexivity. exists (now s). split; [reflexivity | lia].
  - apply Forall_insert.
    + eapply Forall_impl; [exact Hq |]. simpl. intros t' Ht' lr w Hpc.
      destruct (Ht' lr w Hpc) as [Hwk Hsn]. split; [exact Hwk |].
      apply seen_snoc, Hsn.
    + simpl. discriminate.
Qed.

Lemma spaced_enforce i t s : spaced s -> spaced (enforceRateLimit i t s).
Proof.
  intros Hsp. pose proof (watermark_read_seen s (t_domain t) Hsp) as Hseen.
  destruct (enforce_cases i t s) as [[_ ->] | [Hle ->]].
  - apply spaced_with_task; [exact Hsp |]. simpl. intros lr w [= <- <-]. done.
  - apply spaced_dispatch; [exact Hsp | lia | exact Hseen].
Qed.

Lemma spaced_run l L s s' : spaced s -> run l L s = Some s' -> spaced s'.
Proof.
  intros Hsp Hrun. apply run_inv in Hrun as (j & q & t & _ & _ & ->).
  apply spaced_enforce, spaced_with_limit, Hsp.
Qed.

Lemma spaced_settle i t o s s' : spaced s -> settle i t o s = Some s' -> spaced s'.
Proof.
  intros Hsp H. unfold settle in H.
  assert (Hmid : spaced (with_task i (set_leased false (set_pc (Settled o) t)) s))
    by (apply spaced_with_task; [exact Hsp | simpl; discriminate]).
  apply next_inv in H as (L & _ & [[_ ->] | Hrun]).
  - apply spaced_with_limit, Hmid.
  - eapply spaced_run; eassumption.
Qed.

Lemma spaced_step a s s' : spaced s -> step a s = Some s' -> spaced s'.
Proof.
  intros Hsp H. destruct a as [dt | config | l | i | i o rnd]; simpl in H.
  - destruct (Z.leb_spec 0 dt); [injection H as <- | discriminate].
    destruct Hsp as [Hw Hs Hr Hl Hq].
    split; simpl; [exact Hw | | exact Hr | exact Hl | exact Hq].
    eapply Forall_impl; [exact Hs |]. simpl. intros e He. lia.
  - apply bind_Some in H as (cfg & _ & H). apply bind_Some in H as (l & _ & H).
    apply bind_Some in H as (L & _ & H). injection H as <-.
    destruct Hsp as [Hw Hs Hr Hl Hq].
    split; simpl; [exact Hw | exact Hs | exact Hr | exact Hl |].
    apply Forall_app. split; [exact Hq |]. constructor; [| constructor].
    simpl. discriminate.
  - apply bind_Some in H as (L & _ & H).
    destruct (activeCount L <? limit_concurrency L); [| discriminate].
    eapply spaced_run; eassumption.
  - apply bind_Some in H as (t & Ht & H).
    destruct (t_pc t) as [| lr wake | | wake | o] eqn:Hpc; try discriminate.
    + destruct (Z.leb_spec wake (now s)); [injection H as <- | discriminate].
      destruct (proj1 (Forall_lookup _ _) (sp_waiting s Hsp) i t Ht lr wake Hpc)
        as [Hwk Hseen].
      apply spaced_dispatch; [exact Hsp | lia | exact Hseen].
    + destruct (wake <=? now s); [| discriminate].
      injection H as <-. apply spaced_enforce, Hsp.
  - apply bind_Some in H as (t & Ht & H).
    destruct (t_pc t) eqn:Hpc; try discriminate.
    destruct o as [r | error].
    + eapply spaced_settle; eassumption.
    + destruct (shouldRetry _ _ _).
      * injection H as <-. apply spaced_with_task; [exact Hsp |]. simpl. discriminate.
      * eapply spaced_settle; eassumption.
Qed.

(** *** Attempts and retry counts *)

Lemma attempts_of_snoc i log e :
  attempts_of i (log ++ [e])
  = (attempts_of i log + (if bool_decide (d_task e = i) then 1 else 0))%nat.
Proof. unfold attempts_of. rewrite tally_app. simpl. lia. Qed.

Lemma attempts_of_unknown i log :
  Forall (fun e => (d_task e < i)%nat) log -> attempts_of i log = 0%nat.
Proof.
  induction 1 as [|e log He _ IH]; simpl; [reflexivity |].
  unfold attempts_of in *. simpl. rewrite IH.
  rewrite bool_decide_eq_false_2 by lia. reflexivity.
Qed.

Lemma counted_with_task i t s :
  counted s -> task_counted (sent s) i t -> counted (with_task i t s).
Proof.
  intros [Hts Hk] Ht. split; simpl.
  - intros j tj Hj. destruct (decide (i = j)) as [<- | Hne].
    + rewrite list_lookup_insert_eq in Hj
        by (apply lookup_lt_Some in Hj; rewrite length_insert in Hj; exact Hj).
      injection Hj as <-. exact Ht.
    + rewrite list_lookup_insert_ne in Hj by exact Hne. apply Hts, Hj.
  - rewrite length_insert. exact Hk.
Qed.

Lemma counted_with_limit l L s : counted s -> counted (with_limit l L s).
Proof. intros [Hts Hk]. split; simpl; assumption. Qed.

Lemma counted_dispatch i t lastRequest s :
  counted s -> (i < length (tasks s))%nat ->
  attempts_of i (sent s) = t_retryCount t ->
  Z.of_nat (t_retryCount t) <= Z.max 0 (budget t) ->
  counted (dispatch i t lastRequest s).
Proof.
  intros [Hts Hk] Hlt Hatt Hb. split; simpl.
  - intros j tj Hj. unfold task_counted. rewrite attempts_of_snoc. simpl.
    destruct (decide (i = j)) as [<- | Hne].
    + rewrite list_lookup_insert_eq in Hj by exact Hlt. injection Hj as <-.
      rewrite bool_decide_eq_true_2 by reflexivity. simpl.
      split; [lia | split; [exact Hb | split; discriminate]].
    + rewrite list_lookup_insert_ne in Hj by exact Hne.
      rewrite bool_decide_eq_false_2 by exact Hne.
      rewrite Nat.add_0_r. apply Hts, Hj.
  - rewrite length_insert. apply Forall_app. split; [exact Hk |].
    constructor; [exact Hlt | constructor].
Qed.

Lemma counted_enforce i t s :
  counted s -> (i < length (tasks s))%nat ->
  attempts_of i (sent s) = t_retryCount t ->
  Z.of_nat (t_retryCount t) <= Z.max 0 (budget t) ->
  counted (enforceRateLimit i t s).
Proof.
  intros Hct Hlt Hatt Hb. destruct (enforce_cases i t s) as [[_ ->] | [_ ->]].
  - apply counted_with_task; [exact Hct |]. unfold task_counted. simpl.
    split; [lia | split; [exact Hb | split; discriminate]].
  - apply counted_dispatch; assumption.
Qed.

Lemma counted_run l L s s' :
  counted s -> run l L s = Some s' ->
  (forall j q t, queue L = j :: q -> tasks s !! j = Some t -> t_pc t = Queued) ->
  counted s'.
Proof.
  intros Hct Hrun Hq. apply run_inv in Hrun as (j & q & t & Hqueue & Hj & ->).
  pose proof (Hq j q t Hqueue Hj) as Hpc.
  destruct (ct_tasks s Hct j t Hj) as (Hatt & Hb & _ & _).
  unfold called in Hatt. rewrite Hpc in Hatt.
  apply counted_enforce.
  - apply counted_with_limit, Hct.
  - simpl. eapply lookup_lt_Some, Hj.
  - simpl. lia.
  - exact Hb.
Qed.

Lemma counted_settle i t o s s' :
  counted s -> accounted (heap (mgr s)) (tasks s) ->
  tasks s !! i = Some t -> t_pc t = InFlight ->
  (forall error, o = Threw error ->
     shouldRetry error (t_retryCount t) (budget t) = false) ->
  settle i t o s = Some s' -> counted s'.
Proof.
  intros Hct Hacc Hi Hpc Hstop H. unfold settle in H.
  destruct (ct_tasks s Hct i t Hi) as (Hatt & Hb & _ & _).
  unfold called in Hatt. rewrite Hpc in Hatt.
  assert (Hmid : counted (with_task i (set_leased false (set_pc (Settled o) t)) s)).
  { apply counted_with_task; [exact Hct |]. unfold task_counted. simpl.
    split; [exact Hatt | split; [exact Hb | split; [discriminate |]]].
    intros error [= ->]. auto. }
  apply next_inv in H as (L & HL & [[_ ->] | Hrun]).
  - apply counted_with_limit, Hmid.
  - eapply counted_run; [exact Hmid | exact Hrun |]. simpl in *.
    intros j q tj Hqueue Hj.
    destruct (Hacc _ _ HL) as (_ & _ & _ & Hq).
    destruct (Hq j) as (tj' & Htj' & _ & Hpcj & _); [rewrite Hqueue; left |].
    assert (i <> j) by (intros ->; congruence).
    rewrite list_lookup_insert_ne in Hj by assumption. congruence.
Qed.

Lemma counted_step this a s s' :
  Forall (task_ok this) (tasks s) -> accounted (heap (mgr s)) (tasks s) ->
  counted s -> step a s = Some s' -> counted s'.
Proof.
  intros Hall Hacc Hct H. destruct a as [dt | config | l | i | i o rnd]; simpl in H.
  - destruct (0 <=? dt); [injection H as <- | discriminate].
    destruct Hct as [Hts Hk]. split; simpl; assumption.
  - apply bind_Some in H as (cfg & _ & H). apply bind_Some in H as (l & _ & H).
    apply bind_Some in H as (L & _ & H). injection H as <-.
    destruct Hct as [Hts Hk]. split; simpl.
    + intros j tj Hj. destruct (decide (j < length (tasks s))%nat) as [Hlt | Hge].
      * rewrite lookup_app_l in Hj by exact Hlt. apply Hts, Hj.
      * assert (Hlen := lookup_lt_Some _ _ _ Hj). rewrite length_app in Hlen.
        simpl in Hlen. assert (j = length (tasks s)) as -> by lia.
        rewrite lookup_app_r, Nat.sub_diag in Hj by lia. injection Hj as <-.
        unfold task_counted. simpl. rewrite (attempts_of_unknown _ _ Hk).
        split; [reflexivity | split; [lia | split; discriminate]].
    + rewrite length_app. eapply Forall_impl; [exact Hk |]. simpl. intros e He. lia.
  - apply bind_Some in H as (L & HL & H).
    destruct (activeCount L <? limit_concurrency L); [| discriminate].
    eapply counted_run; [exact Hct | exact H |].
    intros j q t Hqueue Hj. destruct (Hacc _ _ HL) as (_ & _ & _ & Hq).
    destruct (Hq j) as (tj & Htj & _ & Hpc & _); [rewrite Hqueue; left |]. congruence.
  - apply bind_Some in H as (t & Ht & H).
    destruct (ct_tasks s Hct i t Ht) as (Hatt & Hb & Hoff & _).
    assert (Hlt : (i < length (tasks s))%nat) by (eapply lookup_lt_Some, Ht).
    unfold called in Hatt.
    destruct (t_pc t) as [| lr wake | | wake | o] eqn:Hpc; try discriminate.
    + destruct (wake <=? now s); [injection H as <- | discriminate].
      apply counted_dispatch; [exact Hct | exact Hlt | lia | exact Hb].
    + destruct (wake <=? now s); [| discriminate].
      injection H as <-. specialize (Hoff wake eq_refl).
      apply counted_enforce; [exact Hct | exact Hlt | simpl; lia |].
      simpl. unfold budget in *. simpl. lia.
  - apply bind_Some in H as (t & Ht & H).
    destruct (ct_tasks s Hct i t Ht) as (Hatt & Hb & _ & _).
    destruct (t_pc t) eqn:Hpc; try discriminate.
    destruct o as [r | error].
    + eapply counted_settle; try eassumption. discriminate.
    + fold (budget t) in H.
      destruct (shouldRetry error (t_retryCount t) (budget t)) eqn:Hretry.
      * injection H as <-. apply counted_with_task; [exact Hct |].
        unfold task_counted, called in *. simpl. rewrite Hpc in Hatt.
        split; [exact Hatt | split; [exact Hb | split; [| discriminate]]].
        intros _ _. apply shouldRetry_true_lt in Hretry. exact Hretry.
      * eapply counted_settle; try eassumption. intros e [= <-]. exact Hretry.
Qed.

(** *** Single-slot limiters *)

Lemma nobody_leased H ts l L :
  accounted H ts -> H !! l = Some L -> activeCount L <= 0 ->
  forall j tj, ts !! j = Some tj -> t_limiter tj = l -> t_leased tj = false.
Proof.
  intros Hacc HL Ha j tj Hj Hl. destruct (Hacc l L HL) as (Hc & _ & _).
  destruct (t_leased tj) eqn:Hb; [| reflexivity].
  assert (1 <= leases l ts)%nat; [| lia].
  unfold leases. eapply tally_lookup_pos; [exact Hj |].
  rewrite Hb, bool_decide_eq_true_2 by exact Hl. reflexivity.
Qed.

Lemma alone_leased H ts l L i ti :
  accounted H ts -> H !! l = Some L -> limit_concurrency L <= 1 ->
  ts !! i = Some ti -> t_limiter ti = l -> t_leased ti = true ->
  forall j tj, j <> i -> ts !! j = Some tj -> t_limiter tj = l -> t_leased tj = false.
Proof.
  intros Hacc HL Hcap Hi Hli Hbi j tj Hne Hj Hl.
  destruct (Hacc l L HL) as (Hc & Hle & _).
  destruct (t_leased tj) eqn:Hb; [| reflexivity].
  assert (2 <= leases l ts)%nat; [| lia].
  unfold leases. eapply (tally_two _ ts i j ti tj); try eassumption; try congruence.
  - rewrite Hbi, bool_decide_eq_true_2 by exact Hli. reflexivity.
  - rewrite Hb, bool_decide_eq_true_2 by exact Hl. reflexivity.
Qed.

Lemma single_slot_heap this m l :
  static_eq this m -> single_slot this l ->
  exists L, heap m !! l = Some L /\ limit_concurrency L <= 1.
Proof.
  intros Hs (L0 & HL0 & Hcap).
  destruct (static_heap_lookup this m l L0 Hs HL0) as (L & HL & Hc).
  exists L. split; [exact HL | lia].
Qed.

(** Calls to the same domain that are not counted are not waiting. *)
Lemma unleased_not_waiting this ts i t :
  Forall (task_ok this) ts -> locals_ok this t ->
  (forall j tj, j <> i -> ts !! j = Some tj -> t_limiter tj = t_limiter t ->
                t_leased tj = false) ->
  no_other_waiting i (t_domain t) ts.
Proof.
  intros Hall [_ Hlim] Hfree j tj lr w Hne Hj Hd Hpc.
  destruct (proj1 (Forall_lookup _ _) Hall j tj Hj) as [[_ Hlimj] Hb].
  assert (t_limiter tj = t_limiter t) by congruence.
  rewrite (Hfree j tj Hne Hj H) in Hb.
  unfold is_unsettled_started in Hb. rewrite Hpc in Hb. discriminate.
Qed.

Lemma exclusive_with_limit this l L s : exclusive this s -> exclusive this (with_limit l L s).
Proof. intros [Hf Hp]. split; simpl; assumption. Qed.

Lemma exclusive_with_task this i t s :
  exclusive this s ->
  (forall lastRequest wake, t_pc t = SpacingWait lastRequest wake ->
     single_slot this (t_limiter t) ->
     lastRequest = JS.or_default (lastRequestTime (mgr s) !! t_domain t) 0) ->
  exclusive this (with_task i t s).
Proof.
  intros [Hf Hp] Ht. split; simpl; [| exact Hp].
  intros j tj lr w Hj. destruct (decide (i = j)) as [<- | Hne].
  - rewrite list_lookup_insert_eq in Hj
      by (apply lookup_lt_Some in Hj; rewrite length_insert in Hj; exact Hj).
    injection Hj as <-. apply Ht.
  - rewrite list_lookup_insert_ne in Hj by exact Hne. eapply Hf, Hj.
Qed.

Lemma exclusive_dispatch this i t lastRequest s :
  Forall (task_ok this) (tasks s) -> spaced s -> exclusive this s ->
  locals_ok this t -> lastRequest + minRequestInterval <= now s ->
  (single_slot this (t_limiter t) ->
     lastRequest = JS.or_default (lastRequestTime (mgr s) !! t_domain t) 0 /\
     no_other_waiting i (t_domain t) (tasks s)) ->
  exclusive this (dispatch i t lastRequest s).
Proof.
  intros Hall Hsp [Hf Hp] Hloc Hle Hsingle. split; simpl.
  - intros j tj lr w Hj Hpc Hss.
    assert (Hne : j <> i).
    { intros ->. rewrite list_lookup_insert_eq in Hj
        by (apply lookup_lt_Some in Hj; rewrite length_insert in Hj; exact Hj).
      injection Hj as <-. discriminate. }
    rewrite list_lookup_insert_ne in Hj by congruence.
    destruct (decide (t_domain t = t_domain tj)) as [Hd | Hd].
    + exfalso.
      destruct (proj1 (Forall_lookup _ _) Hall j tj Hj) as [[_ Hlimj] _].
      destruct Hloc as [_ Hlim]. rewrite <- Hd, Hlim in Hlimj. injection Hlimj as Hl.
      rewrite <- Hl in Hss. destruct (Hsingle Hss) as [_ Hnone].
      apply (Hnone j tj lr w Hne Hj (eq_sym Hd) Hpc).
    + rewrite lookup_insert_ne by exact Hd. eapply Hf; eassumption.
  - intros domain l Hl Hss k1 k2 e1 e2 Hlt H1 H2 Hd1 Hd2.
    assert (Hlen2 := lookup_lt_Some _ _ _ H2). rewrite length_app in Hlen2.
    simpl in Hlen2.
    rewrite lookup_app_l in H1 by lia.
    destruct (decide (k2 < length (sent s))%nat) as [Hin | Hout].
    + rewrite lookup_app_l in H2 by exact Hin.
      eapply (Hp domain l Hl Hss k1 k2); eassumption.
    + assert (k2 = length (sent s)) as -> by lia.
      rewrite lookup_app_r, Nat.sub_diag in H2 by lia. injection H2 as <-.
      simpl in Hd2. simpl.
      destruct Hloc as [_ Hlim]. rewrite <- Hd2 in Hl, Hd1.
      rewrite Hlim in Hl. injection Hl as <-.
      destruct (Hsingle Hss) as [-> _].
      destruct (sp_latest s Hsp e1) as (v & Hv & Hev);
        [eapply list_elem_of_lookup_2, H1 |].
      rewrite Hd1 in Hv. rewrite (sp_watermark s Hsp), Hv in Hle. simpl in Hle.
      destruct (Z.eqb_spec v 0); lia.
Qed.

Lemma exclusive_enforce this i t s :
  Forall (task_ok this) (tasks s) -> spaced s -> exclusive this s ->
  locals_ok this t ->
  (single_slot this (t_limiter t) -> no_other_waiting i (t_domain t) (tasks s)) ->
  exclusive this (enforceRateLimit i t s).
Proof.
  intros Hall Hsp Hex Hloc Hsingle.
  destruct (enforce_cases i t s) as [[_ ->] | [Hle ->]].
  - apply exclusive_with_task; [exact Hex |]. simpl. intros lr w [= <- <-] _. reflexivity.
  - apply exclusive_dispatch; try assumption; [lia |]. auto.
Qed.

Lemma exclusive_run this l L s s' :
  Forall (task_ok this) (tasks s) -> spaced s -> exclusive this s ->
  run l L s = Some s' ->
  (forall j q t, queue L = j :: q -> tasks s !! j = Some t ->
     single_slot this (t_limiter t) -> no_other_waiting j (t_domain t) (tasks s)) ->
  exclusive this s'.
Proof.
  intros Hall Hsp Hex Hrun Hq. apply run_inv in Hrun as (j & q & t & Hqueue & Hj & ->).
  apply exclusive_enforce.
  - exact Hall.
  - apply spaced_with_limit, Hsp.
  - apply exclusive_with_limit, Hex.
  - apply (proj1 (Forall_lookup _ _) Hall j t Hj).
  - simpl. apply (Hq j q t Hqueue Hj).
Qed.

Lemma exclusive_settle this i t o s s' :
  static_eq this (mgr s) -> Forall (task_ok this) (tasks s) ->
  accounted (heap (mgr s)) (tasks s) -> spaced s -> exclusive this s ->
  tasks s !! i = Some t -> t_pc t = InFlight ->
  settle i t o s = Some s' -> exclusive this s'.
Proof.
  intros Hst Hall Hacc Hsp Hex Hi Hpc H. unfold settle in H.
  destruct (proj1 (Forall_lookup _ _) Hall i t Hi) as [Hloc Hb].
  assert (Hleased : t_leased t = true)
    by (leased_by_pc Hb Hpc).
  set (t' := set_leased false (set_pc (Settled o) t)) in *.
  assert (Hall' : Forall (task_ok this) (tasks (with_task i t' s))).
  { simpl. apply Forall_insert; [exact Hall |]. split; [exact Hloc | reflexivity]. }
  assert (Hmid : exclusive this (with_task i t' s))
    by (apply exclusive_with_task; [exact Hex | simpl; discriminate]).
  assert (Hspm : spaced (with_task i t' s))
    by (apply spaced_with_task; [exact Hsp | simpl; discriminate]).
  apply next_inv in H as (L & HL & [[_ ->] | Hrun]).
  - apply exclusive_with_limit, Hmid.
  - eapply exclusive_run; [exact Hall' | exact Hspm | exact Hmid | exact Hrun |].
    simpl in *. intros j q tj Hqueue Hj Hss.
    destruct (Hacc _ _ HL) as (_ & _ & _ & Hqok).
    destruct (Hqok j) as (tj0 & Htj0 & Hlj & Hpcj & _); [rewrite Hqueue; left |].
    assert (Hne : i <> j) by (intros ->; congruence).
    rewrite list_lookup_insert_ne in Hj by exact Hne.
    assert (tj0 = tj) as -> by congruence.
    destruct (single_slot_heap this (mgr s) _ Hst Hss) as (L1 & HL1 & Hcap).
    rewrite Hlj in HL1. assert (L1 = L) as -> by congruence.
    apply (unleased_not_waiting this _ j tj Hall'
             (proj1 (proj1 (Forall_lookup _ _) Hall j tj Htj0))).
    intros k tk Hkj Hk Hlk. destruct (decide (k = i)) as [-> | Hki].
    + rewrite list_lookup_insert_eq in Hk by (eapply lookup_lt_Some, Hi).
      injection Hk as <-. reflexivity.
    + rewrite list_lookup_insert_ne in Hk by congruence.
      eapply (alone_leased _ _ _ L i t Hacc HL Hcap Hi eq_refl Hleased);
        [exact Hki | exact Hk | congruence].
Qed.

Lemma exclusive_step this a s s' :
  static_eq this (mgr s) -> Forall (task_ok this) (tasks s) ->
  accounted (heap (mgr s)) (tasks s) -> spaced s -> exclusive this s ->
  step a s = Some s' -> exclusive this s'.
Proof.
  intros Hst Hall Hacc Hsp Hex H.
  destruct a as [dt | config | l | i | i o rnd]; simpl in H.
  - destruct (0 <=? dt); [injection H as <- | discriminate].
    destruct Hex as [Hf Hp]. split; simpl; assumption.
  - apply bind_Some in H as (cfg & _ & H). apply bind_Some in H as (l & _ & H).
    apply bind_Some in H as (L & _ & H). injection H as <-.
    destruct Hex as [Hf Hp]. split; simpl; [| exact Hp].
    intros j tj lr w Hj. destruct (decide (j < length (tasks s))%nat) as [Hlt | Hge].
    + rewrite lookup_app_l in Hj by exact Hlt. eapply Hf, Hj.
    + assert (Hlen := lookup_lt_Some _ _ _ Hj). rewrite length_app in Hlen.
      simpl in Hlen. assert (j = length (tasks s)) as -> by lia.
      rewrite lookup_app_r, Nat.sub_diag in Hj by lia. injection Hj as <-.
      discriminate.
  - apply bind_Some in H as (L & HL & H).
    destruct (Z.ltb_spec (activeCount L) (limit_concurrency L)); [| discriminate].
    eapply exclusive_run; [exact Hall | exact Hsp | exact Hex | exact H |].
    intros j q t Hqueue Hj Hss.
    destruct (Hacc _ _ HL) as (_ & _ & _ & Hqok).
    destruct (Hqok j) as (tj & Htj & Hlj & _); [rewrite Hqueue; left |].
    assert (tj = t) as -> by congruence.
    destruct (single_slot_heap this (mgr s) _ Hst Hss) as (L1 & HL1 & Hcap).
    rewrite Hlj in HL1. assert (L1 = L) as -> by congruence.
    apply (unleased_not_waiting this _ j t Hall
             (proj1 (proj1 (Forall_lookup _ _) Hall j t Hj))).
    intros k tk _ Hk Hlk.
    eapply (nobody_leased _ _ l L Hacc HL); [lia | exact Hk | congruence].
  - apply bind_Some in H as (t & Ht & H).
    destruct (proj1 (Forall_lookup _ _) Hall i t Ht) as [Hloc Hb].
    assert (Halone : t_leased t = true -> single_slot this (t_limiter t) ->
                     no_other_waiting i (t_domain t) (tasks s)).
    { intros Hleased Hss.
      destruct (single_slot_heap this (mgr s) _ Hst Hss) as (L & HL & Hcap).
      apply (unleased_not_waiting this _ i t Hall Hloc).
      intros k tk Hki Hk Hlk.
      eapply (alone_leased _ _ _ L i t Hacc HL Hcap Ht eq_refl Hleased);
        [exact Hki | exact Hk | exact Hlk]. }
    destruct (t_pc t) as [| lr wake | | wake | o] eqn:Hpc; try discriminate.
    + destruct (Z.leb_spec wake (now s)); [injection H as <- | discriminate].
      destruct (proj1 (Forall_lookup _ _) (sp_waiting s Hsp) i t Ht lr wake Hpc)
        as [Hwk _].
      apply exclusive_dispatch; try assumption; [lia |].
      intros Hss. split; [eapply (ex_fresh this s Hex); eassumption |].
      apply Halone; [| exact Hss].
      leased_by_pc Hb Hpc.
    + destruct (wake <=? now s); [| discriminate].
      injection H as <-. apply exclusive_enforce; try assumption. simpl.
      apply Halone. leased_by_pc Hb Hpc.
  - apply bind_Some in H as (t & Ht & H).
    destruct (t_pc t) eqn:Hpc; try discriminate.
    destruct o as [r | error].
    + eapply exclusive_settle; eassumption.
    + destruct (shouldRetry _ _ _).
      * injection H as <-. apply exclusive_with_task; [exact Hex |]. simpl. discriminate.
      * eapply exclusive_settle; eassumption.
Qed.

(** ** The invariant holds in every reachable state *)

Lemma Inv_boot this t0 : well_configured this -> Inv this (boot this t0).
Proof.
  intros Hwf. split; simpl.
  - done.
  - constructor.
  - intros l L HL.
    destruct (proj1 (Forall_lookup _ _) (wc_idle _ Hwf) l L HL) as [Ha Hq].
    rewrite Ha. split; [reflexivity | split; [lia |]].
    split; rewrite Hq; [constructor | intros j Hj; inversion Hj].
  - split; simpl.
    + intros domain. rewrite (wc_no_watermark _ Hwf). reflexivity.
    + constructor.
    + intros k e Hk. destruct k; discriminate.
    + intros e He. inversion He.
    + constructor.
  - split; simpl; [intros i t Hi; destruct i; discriminate | constructor].
  - split; simpl.
    + intros i t lr w Hi. destruct i; discriminate.
    + intros domain l _ _ k1 k2 e1 e2 _ H1. destruct k1; discriminate.
Qed.

Lemma Inv_step this a s s' : Inv this s -> step a s = Some s' -> Inv this s'.
Proof.
  intros [Hs Ht Ha Hsp Hct Hex] H. split.
  - eapply static_eq_step; eassumption.
  - eapply tasks_ok_step; eassumption.
  - eapply accounted_step; eassumption.
  - eapply spaced_step; eassumption.
  - eapply counted_step; eassumption.
  - eapply exclusive_step; eassumption.
Qed.

Lemma Inv_exec this acts s s' : Inv this s -> exec acts s = Some s' -> Inv this s'.
Proof.
  revert s. induction acts as [|a acts IH]; intros s HI H; simpl in H.
  - injection H as <-. exact HI.
  - apply bind_Some in H as (s1 & H1 & H). eapply IH; [| exact H].
    eapply Inv_step; eassumption.
Qed.

Lemma Inv_reachable this s : configured this -> reachable_from this s -> Inv this s.
Proof.
  intros Hc (t0 & acts & H). eapply Inv_exec; [| exact H].
  apply Inv_boot, configured_well, Hc.
Qed.

(** ** Consequences *)

(** The axios calls in flight to a domain are among the calls its limiter
    counts. *)
Lemma in_flight_le_leases this s domain l :
  Forall (task_ok this) (tasks s) -> getLimiter this domain = Some l ->
  (in_flight domain s <= leases l (tasks s))%nat.
Proof.
  intros Hall Hl. unfold in_flight, leases. apply tally_le.
  eapply Forall_impl; [exact Hall |]. simpl.
  intros t [[_ Hlim] Hb] H. apply andb_prop in H as [Hd Hf].
  apply bool_decide_eq_true in Hd. subst domain.
  apply andb_true_intro. split.
  - apply bool_decide_eq_true. congruence.
  - rewrite Hb. unfold is_in_flight in Hf. unfold is_unsettled_started.
    destruct (t_pc t); done.
Qed.

(** A timer set for a whole number of milliseconds from 1 to [2^31 - 1]
    is due after exactly that time. *)
Lemma setTimeout_whole (ms : Z) :
  1 <= ms <= TIMEOUT_MAX -> setTimeout (inject_Z ms) = ms.
Proof.
  intros [H1 H2]. unfold setTimeout.
  assert (E1 : Qle_bool 1 (inject_Z ms) = true).
  { apply Qle_bool_iff. change 1%Q with (inject_Z 1). rewrite <- Zle_Qle. exact H1. }
  assert (E2 : Qle_bool (inject_Z ms) (inject_Z TIMEOUT_MAX) = true).
  { apply Qle_bool_iff. rewrite <- Zle_Qle. exact H2. }
  rewrite E1, E2. simpl. apply Qfloor_Z.
Qed.

(** C5 (as amended).  When a failed attempt's response carries a
    [Retry-After] header that [parseInt] reads as [R >= 1] seconds, the wait
    before the next attempt is [R * 1000] ms capped by the policy's
    [maxDelay] (30000 when that field is absent or 0): it is [R] seconds
    verbatim when that is within the cap, it lies in [[0, maxDelay]] when
    the cap is not negative, and it depends neither on the random draw nor
    on the retry count, so the exponential-backoff formula is not used; in
    particular this holds when the header is the decimal numeral of a
    number [n >= 1].  A directive that does not read as a positive number
    ([parseInt] gives [NaN], 0 or a negative number) is not honoured: the
    exponential-backoff delay is used for it.  The retry loop sleeps for
    these delays; among interleaved calls the timer of the retry is set for
    that delay, and with a cap from 1 to [2^31 - 1] ms the next attempt
    starts no earlier than the delay after the failure. *)
Theorem retry_after_directive_honored
    (rnd : Q) (error : AxiosError) (retryCount : nat) (cfg : RateLimiterConfig)
    (s : string) (R : Z) :
  retry_after_header error = Some s -> JS.parseInt s = Some R -> 1 <= R ->
  let cap := JS.or_default (maxDelay cfg) 30000 in
  getRetryDelay rnd error retryCount cfg = inject_Z (Z.min (R * 1000) cap)
  /\ (R * 1000 <= cap -> getRetryDelay rnd error retryCount cfg = inject_Z (R * 1000))
  /\ (0 <= cap ->
      (0 <= getRetryDelay rnd error retryCount cfg)%Q /\
      (getRetryDelay rnd error retryCount cfg <= inject_Z cap)%Q)
  /\ (forall rnd' retryCount',
        getRetryDelay rnd' error retryCount' cfg = getRetryDelay rnd error retryCount cfg)
  /\ (forall error0 s0,
        retry_after_header error0 = Some s0 ->
        JS.parseInt s0 = None \/ (exists n, JS.parseInt s0 = Some n /\ n <= 0) ->
        getRetryDelay rnd error0 retryCount cfg
        = calculateBackoffDelay rnd retryCount
            (JS.or_default (baseDelay cfg) 1000) cap)
  /\ (forall error1 (n : N),
        (1 <= n)%N -> retry_after_header error1 = Some (pretty n) ->
        getRetryDelay rnd error1 retryCount cfg
        = inject_Z (Z.min (Z.of_N n * 1000) cap))
  /\ (forall fuel axios random maxRetries r k d,
        request_loop fuel axios random cfg maxRetries 0 = Some r ->
        sleeps r !! k = Some d ->
        (axios k = Threw error -> d = inject_Z (Z.min (R * 1000) cap)) /\
        (forall error0 s0, axios k = Threw error0 ->
           retry_after_header error0 = Some s0 ->
           JS.parseInt s0 = None \/ (exists n, JS.parseInt s0 = Some n /\ n <= 0) ->
           d = calculateBackoffDelay (random k) k
                 (JS.or_default (baseDelay cfg) 1000) cap))
  /\ (forall st i t draw st',
        tasks st !! i = Some t -> t_pc t = InFlight -> t_rateLimitConfig t = cfg ->
        shouldRetry error (t_retryCount t) (budget t) = true ->
        step (Responds i (Threw error) draw) st = Some st' ->
        exists t', tasks st' !! i = Some t' /\
          t_retryCount t' = t_retryCount t /\
          t_pc t' = BackingOff (now st + setTimeout (inject_Z (Z.min (R * 1000) cap))) /\
          (1 <= cap <= TIMEOUT_MAX ->
           t_pc t' = BackingOff (now st + Z.min (R * 1000) cap) /\
           forall st1 t1 st2,
             tasks st1 !! i = Some t1 -> t_pc t1 = t_pc t' ->
             step (TimerFires i) st1 = Some st2 ->
             now st + Z.min (R * 1000) cap <= now st1 /\
             exists t2, tasks st2 !! i = Some t2 /\
               t_retryCount t2 = S (t_retryCount t1))).
Proof.
  intros Hh Hp HR cap.
  assert (E : forall rnd' k', getRetryDelay rnd' error k' cfg
                              = inject_Z (Z.min (R * 1000) cap)).
  { intros. apply (getRetryDelay_directive _ _ _ _ s R); [assumption..| lia]. }
  assert (Hign : forall rnd0 k0 error0 s0,
            retry_after_header error0 = Some s0 ->
            JS.parseInt s0 = None \/ (exists n, JS.parseInt s0 = Some n /\ n <= 0) ->
            getRetryDelay rnd0 error0 k0 cfg
            = calculateBackoffDelay rnd0 k0 (JS.or_default (baseDelay cfg) 1000) cap).
  { intros rnd0 k0 error0 s0 Hh0 [Hnan | (n & Hn & Hle)].
    - unfold getRetryDelay. rewrite Hh0. simpl. rewrite Hnan. destruct s0; reflexivity.
    - apply (getRetryDelay_nonpositive _ _ _ _ s0 n); assumption. }
  split; [apply E |]. split.
  { intros Hle. rewrite E, Z.min_l by lia. reflexivity. }
  split.
  { intros Hc. rewrite E. split.
    - apply inject_Z_nonneg. lia.
    - rewrite <- Zle_Qle. lia. }
  split.
  { intros. rewrite !E. reflexivity. }
  split; [intros error0 s0; apply Hign |].
  split.
  { intros error1 n Hn Hh1.
    apply (getRetryDelay_directive _ _ _ _ (pretty n) (Z.of_N n));
      [exact Hh1 | apply parseInt_pretty | lia]. }
  split.
  { intros fuel axios random maxRetries r k d Hrun Hk.
    destruct (request_loop_sleeps _ _ _ _ _ _ _ _ _ Hrun Hk) as [error' [He Hd]].
    simpl in He, Hd. split.
    - intros Hax. rewrite Hax in He. injection He as <-. rewrite Hd. apply E.
    - intros error0 s0 Hax Hh0 Hbad. rewrite Hax in He. injection He as <-.
      rewrite Hd. apply Hign with s0; assumption. }
  intros st i t draw st' Hi Hpc Hcfg Hretry Hstep.
  assert (Hlt : (i < length (tasks st))%nat) by (eapply lookup_lt_Some, Hi).
  simpl in Hstep. rewrite Hi in Hstep. simpl in Hstep.
  fold (budget t) in Hstep. rewrite Hpc, Hretry, Hcfg, E in Hstep. injection Hstep as <-.
  eexists. split; [apply list_lookup_insert_eq; exact Hlt |].
  split; [reflexivity |]. split; [reflexivity |].
  intros Hcap.
  assert (Hwhole : setTimeout (inject_Z (Z.min (R * 1000) cap)) = Z.min (R * 1000) cap)
    by (apply setTimeout_whole; lia).
  simpl. rewrite Hwhole. split; [reflexivity |].
  intros st1 t1 st2 Hi1 Hpc1 Hfire. simpl in Hfire, Hpc1.
  rewrite Hi1 in Hfire. simpl in Hfire. rewrite Hpc1 in Hfire.
  destruct (Z.leb_spec (now st + Z.min (R * 1000) cap) (now st1)); [| discriminate].
  split; [assumption |]. injection Hfire as <-.
  destruct (enforce_fields i (set_retryCount (S (t_retryCount t1)) t1) st1)
    as (pc' & _ & _ & -> & _).
  eexists. split; [apply list_lookup_insert_eq; eapply lookup_lt_Some, Hi1 |].
  reflexivity.
Qed.

(** Every limiter of a manager was built with a concurrency [pLimit]
    accepts. *)
Lemma configured_caps_positive this : configured this -> caps_positive this.
Proof.
  unfold caps_positive. induction 1 as [|domain config this Hc IH Hret].
  - constructor.
  - rewrite (configureRateLimit_returns domain config this Hret). simpl.
    apply Forall_app. split; [exact IH |]. repeat constructor. simpl.
    apply configureRateLimit_throws_iff, Hret.
Qed.

(** C4 (as amended).  In every state the manager can reach, under any
    interleaving of any number of calls, the number of axios calls in flight
    to a domain is at most the capacity of the domain's limiter, which is
    [concurrency || 2] of the policy resolved for the domain: the configured
    concurrency when that is 1 or more, and 2 when the policy's concurrency
    is 0 or absent.  The limiter counts at least the calls in flight and
    never more than its capacity. *)
Theorem in_flight_never_exceeds_concurrency
    (this : SafeRequestManager) (s : System) (domain : string)
    (cfg : RateLimiterConfig) :
  configured this -> reachable_from this s ->
  getConfig this domain = Some cfg ->
  let cap := JS.or_default (concurrency cfg) 2 in
  1 <= cap
  /\ Z.of_nat (in_flight domain s) <= cap
  /\ (forall c, concurrency cfg = Some c -> 1 <= c ->
        cap = c /\ Z.of_nat (in_flight domain s) <= c)
  /\ (concurrency cfg = None \/ concurrency cfg = Some 0 ->
        cap = 2 /\ Z.of_nat (in_flight domain s) <= 2)
  /\ (exists l L, getLimiter this domain = Some l /\ heap (mgr s) !! l = Some L /\
        limit_concurrency L = cap /\
        Z.of_nat (in_flight domain s) <= activeCount L <= cap).
Proof.
  intros Hconf Hreach Hcfg cap.
  pose proof (configured_well this Hconf) as Hwf.
  destruct (Inv_reachable this s Hconf Hreach) as [Hs Ht Ha _ _ _].
  destruct (resolved_limiter this domain cfg Hwf Hcfg) as [l Hl].
  destruct (resolved_cap this domain cfg l Hwf Hcfg Hl) as (L0 & HL0 & Hcap0).
  destruct (static_heap_lookup this (mgr s) l L0 Hs HL0) as (L & HL & Hcap).
  destruct (Ha l L HL) as (Hcount & Hle & _).
  pose proof (in_flight_le_leases this s domain l Ht Hl) as Hin.
  pose proof (proj1 (Forall_lookup _ _) (configured_caps_positive this Hconf) l L0 HL0)
    as Hpos. simpl in Hpos.
  rewrite Hcap, Hcap0 in Hle. fold cap in Hle, Hcap0. rewrite Hcap0 in Hpos.
  assert (Hbound : Z.of_nat (in_flight domain s) <= cap) by lia.
  split; [exact Hpos |]. split; [exact Hbound |]. split.
  { intros c Hc Hc1. assert (cap = c); [| lia].
    subst cap. rewrite Hc. unfold JS.or_default. destruct (Z.eqb_spec c 0); [lia | reflexivity]. }
  split.
  { intros Hnone. assert (cap = 2); [| lia].
    subst cap. destruct Hnone as [-> | ->]; reflexivity. }
  exists l, L. split; [exact Hl |]. split; [exact HL |].
  split; [congruence |]. lia.
Qed.

(** C2 (as amended).  The governor keeps the domain's concurrency slot for
    the whole request: in every reachable state a call is counted by its
    limiter exactly when its callback has started and not settled, so a call
    sleeping in a retry backoff holds a slot; the transition of a failed
    attempt into the backoff sleep and the wake-up for the next attempt both
    leave the limiters unchanged (no release, no new acquisition). *)
Theorem slot_held_through_backoff
    (this : SafeRequestManager) (s : System) (i : nat) (t : Task) :
  configured this -> reachable_from this s -> tasks s !! i = Some t ->
  (t_leased t = true <->
     match t_pc t with
     | SpacingWait _ _ | InFlight | BackingOff _ => True
     | Queued | Settled _ => False
     end)
  /\ (forall wake, t_pc t = BackingOff wake ->
        t_leased t = true /\
        exists L, heap (mgr s) !! t_limiter t = Some L /\
          activeCount L = Z.of_nat (leases (t_limiter t) (tasks s)) /\
          1 <= activeCount L <= Z.max 0 (limit_concurrency L))
  /\ (forall error rnd s',
        t_pc t = InFlight ->
        shouldRetry error (t_retryCount t)
          (JS.or_default (maxRetries (t_rateLimitConfig t)) 3) = true ->
        step (Responds i (Threw error) rnd) s = Some s' ->
        heap (mgr s') = heap (mgr s) /\
        exists t', tasks s' !! i = Some t' /\ t_leased t' = true /\
          t_pc t' = BackingOff (now s + setTimeout
                      (getRetryDelay rnd error (t_retryCount t) (t_rateLimitConfig t))))
  /\ (forall wake s',
        t_pc t = BackingOff wake -> step (TimerFires i) s = Some s' ->
        heap (mgr s') = heap (mgr s) /\
        exists t', tasks s' !! i = Some t' /\ t_leased t' = true /\
          t_retryCount t' = S (t_retryCount t)).
Proof.
  intros Hconf Hreach Hi.
  pose proof (configured_well this Hconf) as Hwf.
  destruct (Inv_reachable this s Hconf Hreach) as [Hs Ht Ha _ _ _].
  destruct (proj1 (Forall_lookup _ _) Ht i t Hi) as [[_ Hlim] Hb].
  assert (Hlt : (i < length (tasks s))%nat) by (eapply lookup_lt_Some, Hi).
  split.
  { rewrite Hb. unfold is_unsettled_started. destruct (t_pc t); split; done. }
  split.
  { intros wake Hpc.
    assert (Hleased : t_leased t = true)
      by (leased_by_pc Hb Hpc).
    split; [exact Hleased |].
    destruct (limiter_allocated this _ _ Hwf Hlim) as [L0 HL0].
    destruct (static_heap_lookup this (mgr s) _ L0 Hs HL0) as (L & HL & _).
    destruct (Ha _ L HL) as (Hcount & Hle & _).
    exists L. split; [exact HL |]. split; [exact Hcount |].
    assert (1 <= leases (t_limiter t) (tasks s))%nat; [| lia].
    unfold leases. eapply tally_lookup_pos; [exact Hi |].
    rewrite Hleased, bool_decide_eq_true_2 by done. reflexivity. }
  split.
  { intros error rnd s' Hpc Hretry Hstep. simpl in Hstep.
    rewrite Hi in Hstep. simpl in Hstep. rewrite Hpc, Hretry in Hstep.
    injection Hstep as <-. simpl. split; [reflexivity |].
    eexists. split; [apply list_lookup_insert_eq; exact Hlt |].
    simpl. split; [| reflexivity].
    leased_by_pc Hb Hpc. }
  intros wake s' Hpc Hstep. simpl in Hstep.
  rewrite Hi in Hstep. simpl in Hstep. rewrite Hpc in Hstep.
  destruct (wake <=? now s); [| discriminate].
  injection Hstep as <-.
  destruct (enforce_fields i (set_retryCount (S (t_retryCount t)) t) s)
    as (pc' & _ & _ & -> & -> & _).
  split; [reflexivity |].
  eexists. split; [apply list_lookup_insert_eq; exact Hlt |].
  simpl. split; [| reflexivity].
  leased_by_pc Hb Hpc.
Qed.

(** The duration of a spacing wait: once the clock reads a time that is
    not negative, [waitTime] is between 1 and 100, and [setTimeout] takes it
    as it is. *)
Lemma spacing_wait_duration this s domain :
  Inv this s -> 0 <= now s ->
  let lastRequest := JS.or_default (lastRequestTime (mgr s) !! domain) 0 in
  let waitTime := minRequestInterval - (now s - lastRequest) in
  now s - lastRequest < minRequestInterval ->
  1 <= waitTime <= 100 /\ setTimeout (inject_Z waitTime) = waitTime.
Proof.
  intros HI Hnow lastRequest waitTime Hlt.
  assert (Hpast : lastRequest <= now s).
  { subst lastRequest. rewrite (sp_watermark s (inv_spaced this s HI)).
    destruct (latest_dispatch domain (sent s)) as [v|] eqn:E; simpl; [| exact Hnow].
    apply latest_dispatch_Some in E as (e & He & _ & <-).
    pose proof (proj1 (Forall_forall _ _) (sp_sent s (inv_spaced this s HI)) e He) as [_ Hle].
    destruct (Z.eqb_spec (d_time e) 0); [exact Hnow | exact Hle]. }
  unfold minRequestInterval in *.
  assert (Hrange : 1 <= waitTime <= 100) by (subst waitTime; lia).
  split; [exact Hrange |]. apply setTimeout_whole. unfold TIMEOUT_MAX. lia.
Qed.

(** C3 (as amended).  In every reachable state: a call in its spacing wait
    holds a concurrency slot (the wait happens inside the limiter callback)
    and wakes [minRequestInterval] after the watermark it read; every axios
    call was issued at least [minRequestInterval] after the watermark its
    [enforceRateLimit] read, and that watermark is 0 or the issue time of an
    earlier call to the same domain; the watermark of a domain is the
    issue time of the latest call to it, recorded when the call is issued;
    and on a domain whose policy has concurrency 1 any two calls are issued
    at least [minRequestInterval] apart. *)
Theorem spacing_wait_inside_slot
    (this : SafeRequestManager) (s : System) :
  configured this -> reachable_from this s ->
  (forall i t lastRequest wake,
      tasks s !! i = Some t -> t_pc t = SpacingWait lastRequest wake ->
      t_leased t = true /\
      (exists L, heap (mgr s) !! t_limiter t = Some L /\ 1 <= activeCount L) /\
      wake = lastRequest + minRequestInterval /\
      seen (t_domain t) lastRequest (sent s))
  /\ (forall k e, sent s !! k = Some e ->
        d_lastRequest e + minRequestInterval <= d_time e /\
        seen (d_domain e) (d_lastRequest e) (take k (sent s)))
  /\ (forall domain,
        lastRequestTime (mgr s) !! domain = latest_dispatch domain (sent s))
  /\ (forall i t lastRequest wake s',
        tasks s !! i = Some t -> t_pc t = SpacingWait lastRequest wake ->
        step (TimerFires i) s = Some s' ->
        wake <= now s /\
        lastRequestTime (mgr s') !! t_domain t = Some (now s) /\
        heap (mgr s') = heap (mgr s) /\
        exists e, sent s' = sent s ++ [e] /\ d_task e = i /\
          d_domain e = t_domain t /\ d_time e = now s)
  /\ (forall domain cfg,
        getConfig this domain = Some cfg -> concurrency cfg = Some 1 ->
        pairwise_spaced domain (sent s)).
Proof.
  intros Hconf Hreach.
  pose proof (configured_well this Hconf) as Hwf.
  destruct (Inv_reachable this s Hconf Hreach) as [Hs Ht Ha Hsp Hct Hex].
  split.
  { intros i t lr wake Hi Hpc.
    destruct (proj1 (Forall_lookup _ _) Ht i t Hi) as [[_ Hlim] Hb].
    destruct (proj1 (Forall_lookup _ _) (sp_waiting s Hsp) i t Hi lr wake Hpc)
      as [Hwk Hseen].
    assert (Hleased : t_leased t = true)
      by (leased_by_pc Hb Hpc).
    split; [exact Hleased |]. split; [| done].
    destruct (limiter_allocated this _ _ Hwf Hlim) as [L0 HL0].
    destruct (static_heap_lookup this (mgr s) _ L0 Hs HL0) as (L & HL & _).
    destruct (Ha _ L HL) as (Hcount & _ & _).
    exists L. split; [exact HL |].
    assert (1 <= leases (t_limiter t) (tasks s))%nat; [| lia].
    unfold leases. eapply tally_lookup_pos; [exact Hi |].
    rewrite Hleased, bool_decide_eq_true_2 by done. reflexivity. }
  split.
  { intros k e Hk. split; [| apply (sp_read s Hsp), Hk].
    apply (proj1 (Forall_lookup _ _) (sp_sent s Hsp) k e Hk). }
  split; [apply (sp_watermark s Hsp) |].
  split.
  { intros i t lr wake s' Hi Hpc Hstep. simpl in Hstep.
    rewrite Hi in Hstep. simpl in Hstep. rewrite Hpc in Hstep.
    destruct (Z.leb_spec wake (now s)); [| discriminate].
    injection Hstep as <-. simpl. split; [assumption |].
    split; [apply lookup_insert_eq |]. split; [reflexivity |].
    eexists. split; [reflexivity |]. done. }
  intros domain cfg Hcfg Hone.
  destruct (resolved_limiter this domain cfg Hwf Hcfg) as [l Hl].
  destruct (resolved_cap this domain cfg l Hwf Hcfg Hl) as (L0 & HL0 & Hcap0).
  apply (ex_pairwise this s Hex domain l Hl).
  exists L0. split; [exact HL0 |]. rewrite Hcap0, Hone. simpl. lia.
Qed.

(** C8 (as amended).  Watermarks are per domain and lazy: in every
    reachable state a domain has a watermark exactly when a call to it has
    been issued, and its value depends on the calls to that domain only.
    Concurrency gates are not: they are created when the manager is
    configured, one per configured domain, and none is created afterwards;
    distinct configured domains have distinct gates, while every domain
    without a policy of its own uses the gate stored under ['default'], so
    all such domains share that one gate. *)
Theorem domain_state_layout
    (this : SafeRequestManager) (s : System) :
  configured this -> reachable_from this s ->
  (forall domain,
      is_Some (lastRequestTime (mgr s) !! domain) <->
      exists e, e ∈ sent s /\ d_domain e = domain)
  /\ (forall domain,
        lastRequestTime (mgr s) !! domain = latest_dispatch domain (sent s))
  /\ (limiters (mgr s) = limiters this /\
      length (heap (mgr s)) = length (heap this))
  /\ (forall d1 d2 l,
        limiters this !! d1 = Some l -> limiters this !! d2 = Some l -> d1 = d2)
  /\ (forall domain, rateLimitConfig this !! domain = None ->
        getLimiter this domain = limiters this !! "default"%string)
  /\ (forall d1 d2,
        rateLimitConfig this !! d1 = None -> rateLimitConfig this !! d2 = None ->
        getLimiter this d1 = getLimiter this d2)
  /\ (forall i t, tasks s !! i = Some t ->
        getLimiter this (t_domain t) = Some (t_limiter t)).
Proof.
  intros Hconf Hreach.
  pose proof (configured_well this Hconf) as Hwf.
  destruct (Inv_reachable this s Hconf Hreach) as [Hs Ht Ha Hsp Hct Hex].
  split.
  { intros domain. rewrite (sp_watermark s Hsp). apply latest_dispatch_is_Some. }
  split; [apply (sp_watermark s Hsp) |].
  split.
  { destruct Hs as (H1 & _ & H3). split; [done |].
    apply (f_equal length) in H3. rewrite !length_fmap in H3. done. }
  split; [apply (wc_distinct _ Hwf) |].
  split; [intros domain Hd; apply (unconfigured_gets_default this domain Hwf Hd) |].
  split.
  { intros d1 d2 H1 H2.
    rewrite (proj2 (unconfigured_gets_default this d1 Hwf H1)).
    rewrite (proj2 (unconfigured_gets_default this d2 Hwf H2)). reflexivity. }
  intros i t Hi. apply (proj1 (Forall_lookup _ _) Ht i t Hi).
Qed.

(** ** One call among the others *)

(** What settling does to the call that settles: it keeps its place, and
    whatever call is started in its stead is another one. *)
Lemma settle_effect this s i t o :
  well_configured this -> Inv this s ->
  tasks s !! i = Some t -> t_pc t = InFlight ->
  exists s', settle i t o s = Some s' /\
    tasks s' !! i = Some (set_leased false (set_pc (Settled o) t)) /\
    attempts_of i (sent s') = attempts_of i (sent s).
Proof.
  intros Hwf [Hs Ht Ha _ _ _] Hi Hpc.
  destruct (proj1 (Forall_lookup _ _) Ht i t Hi) as [[_ Hlim] _].
  destruct (limiter_allocated this _ _ Hwf Hlim) as [L0 HL0].
  destruct (static_heap_lookup this (mgr s) _ L0 Hs HL0) as (L & HL & _).
  assert (Hlt : (i < length (tasks s))%nat) by (eapply lookup_lt_Some, Hi).
  unfold settle, next. simpl. rewrite HL. simpl.
  destruct (queue L) as [|j q] eqn:Hq.
  - eexists. split; [reflexivity |]. simpl.
    split; [apply list_lookup_insert_eq; exact Hlt | reflexivity].
  - destruct (Ha _ _ HL) as (_ & _ & _ & Hqok).
    destruct (Hqok j) as (tj & Htj & _ & Hpcj & _); [rewrite Hq; left |].
    assert (Hne : i <> j) by (intros ->; congruence).
    unfold run. simpl. rewrite list_lookup_insert_ne by exact Hne.
    rewrite Htj. simpl. eexists. split; [reflexivity |].
    match goal with
    | |- context [enforceRateLimit ?j0 ?t0 ?s0] =>
        destruct (enforce_cases j0 t0 s0) as [[_ ->] | [_ ->]]
    end; simpl.
    + split; [| reflexivity].
      rewrite list_lookup_insert_ne by congruence.
      apply list_lookup_insert_eq; exact Hlt.
    + split.
      * rewrite list_lookup_insert_ne by congruence.
        apply list_lookup_insert_eq; exact Hlt.
      * rewrite attempts_of_snoc. simpl.
        rewrite bool_decide_eq_false_2 by congruence. lia.
Qed.

(** C7.  A failure whose response carries a client-error status other than
    429 and which is not a timeout is never retried, whatever the retry
    count and budget: the loop throws that error at the attempt where it
    occurs, and a request whose first attempt fails this way rejects with
    it after exactly one axios call and no sleep.  Among interleaved calls
    likewise: when such a failure arrives the call settles with that error
    in the same step and makes no further attempt. *)
Theorem client_error_rejected_after_one_attempt
    (this : SafeRequestManager) (config : AxiosRequestConfig)
    (axios : nat -> Outcome) (random : nat -> Q) (error : AxiosError)
    (cfg : RateLimiterConfig) (l : nat) :
  getConfig this (getDomain (JS.or_string (url config) "")) = Some cfg ->
  getLimiter this (getDomain (JS.or_string (url config) "")) = Some l ->
  non_retryable_client_error error = true ->
  (forall retryCount maxRetries, shouldRetry error retryCount maxRetries = false)
  /\ (forall fuel rlc maxRetries retryCount,
        axios retryCount = Threw error ->
        request_loop (S fuel) axios random rlc maxRetries retryCount
        = Some {| outcome := Threw error; attempts := 1; sleeps := [] |})
  /\ (axios 0%nat = Threw error ->
      request this config axios random
      = Some {| outcome := Threw error; attempts := 1; sleeps := [] |})
  /\ (forall s i t rnd,
        configured this -> reachable_from this s ->
        tasks s !! i = Some t -> t_pc t = InFlight ->
        exists s' t',
          step (Responds i (Threw error) rnd) s = Some s' /\
          tasks s' !! i = Some t' /\ t_pc t' = Settled (Threw error) /\
          t_leased t' = false /\
          attempts_of i (sent s') = attempts_of i (sent s) /\
          (t_retryCount t = 0%nat -> attempts_of i (sent s') = 1%nat)).
Proof.
  intros Hc Hl Hne.
  assert (Hs : forall k N, shouldRetry error k N = false)
    by (intros; apply shouldRetry_client_error; exact Hne).
  split; [exact Hs |].
  assert (Hloop : forall fuel rlc N k, axios k = Threw error ->
            request_loop (S fuel) axios random rlc N k
            = Some {| outcome := Threw error; attempts := 1; sleeps := [] |}).
  { intros fuel rlc N k Hk. simpl. rewrite Hk, Hs. reflexivity. }
  split; [exact Hloop |]. split.
  { intros H0. unfold request. rewrite Hc, Hl. simpl. rewrite H0, Hs. reflexivity. }
  intros s i t rnd Hconf Hreach Hi Hpc.
  pose proof (configured_well this Hconf) as Hwf.
  pose proof (Inv_reachable this s Hconf Hreach) as HI.
  destruct (settle_effect this s i t (Threw error) Hwf HI Hi Hpc)
    as (s' & Hstep & Hi' & Hatt).
  exists s'. eexists. simpl. rewrite Hi. simpl. rewrite Hpc, Hs.
  split; [exact Hstep |]. split; [exact Hi' |]. simpl.
  split; [reflexivity |]. split; [reflexivity |]. split; [exact Hatt |].
  intros H0. rewrite Hatt.
  destruct (ct_tasks s (inv_counted this s HI) i t Hi) as (Ha & _).
  unfold called in Ha. rewrite Hpc, H0 in Ha. exact Ha.
Qed.

(** C1 (as amended).  For a policy with [maxRetries = N >= 1] and a request
    all of whose attempts fail with a retryable outcome, [request] calls
    axios exactly [N + 1] times, sleeps [N] times, and then rejects with the
    error of the last attempt.  Among interleaved calls likewise: a call
    under that policy that has rejected with a retryable error has made
    exactly [N + 1] axios calls. *)
Theorem exhausted_after_N_plus_1_attempts
    (this : SafeRequestManager) (config : AxiosRequestConfig)
    (axios : nat -> Outcome) (random : nat -> Q)
    (cfg : RateLimiterConfig) (l : nat) (N : Z) :
  getConfig this (getDomain (JS.or_string (url config) "")) = Some cfg ->
  getLimiter this (getDomain (JS.or_string (url config) "")) = Some l ->
  maxRetries cfg = Some N -> 1 <= N ->
  ((forall k, exists error, axios k = Threw error /\ retryable error = true) ->
   exists error r,
     axios (Z.to_nat N) = Threw error /\
     request this config axios random = Some r /\
     outcome r = Threw error /\
     Z.of_nat (attempts r) = N + 1 /\
     Z.of_nat (length (sleeps r)) = N)
  /\ (forall s i t error,
        configured this -> reachable_from this s ->
        tasks s !! i = Some t -> t_rateLimitConfig t = cfg ->
        t_pc t = Settled (Threw error) -> retryable error = true ->
        Z.of_nat (attempts_of i (sent s)) = N + 1 /\
        Z.of_nat (t_retryCount t) = N).
Proof.
  intros Hc Hl HN Hpos. split.
  { intros Hall. unfold request. rewrite Hc, Hl. simpl.
    rewrite HN. unfold JS.or_default.
    destruct (Z.eqb_spec N 0) as [|_]; [lia |].
    destruct (request_loop_all_retryable (S (Z.to_nat N)) axios random cfg N 0)
      as [error [r [He [Hrun [Ho [Ha Hs]]]]]]; [simpl; lia | simpl; lia | exact Hall |].
    exists error, r. repeat split; [exact He | exact Hrun | exact Ho | lia | lia]. }
  intros s i t error Hconf Hreach Hi Hcfg Hpc Hretry.
  pose proof (Inv_reachable this s Hconf Hreach) as HI.
  destruct (ct_tasks s (inv_counted this s HI) i t Hi) as (Ha & Hb & _ & Hstop).
  specialize (Hstop error Hpc). unfold called in Ha. rewrite Hpc in Ha.
  assert (HB : budget t = N).
  { unfold budget. rewrite Hcfg, HN. unfold JS.or_default.
    destruct (Z.eqb_spec N 0); [lia | reflexivity]. }
  rewrite HB in *.
  assert (N <= Z.of_nat (t_retryCount t)).
  { destruct (Z_lt_le_dec (Z.of_nat (t_retryCount t)) N) as [Hlt | Hge]; [| exact Hge].
    rewrite (shouldRetry_retryable error _ N Hretry Hlt) in Hstop. discriminate. }
  lia.
Qed.

(** C6.  Without a retry-after directive the delay computed for retry
    attempt [k] is [min(baseDelay * 2^k + jitter, maxDelay)] with
    [jitter = Math.random() * baseDelay * 0.5]: the jitter ranges over
    [[0, baseDelay * 0.5]] as the draw ranges over [[0, 1)] (every value
    below the upper end is the image of a draw), the delay lies between
    [baseDelay * 2^k] and [baseDelay * 2^k + baseDelay * 0.5], both clamped
    above by [maxDelay], and for [k = 0] between [baseDelay] and
    [1.5 * baseDelay], clamped.  In the loop the [i]-th sleep is computed
    with retry count [i], the value before the increment, so the first
    retry uses [k = 0]; among interleaved calls likewise, the sleep that
    follows a call's [n]-th axios call is computed with retry count
    [n - 1]. *)
Theorem backoff_delay_formula_and_bounds
    (rnd : Q) (k : nat) (base cap : Z) :
  0 <= base -> (0 <= rnd)%Q -> (rnd < 1)%Q ->
  let e := (inject_Z base * inject_Z (2 ^ Z.of_nat k))%Q in
  let jitter := (rnd * inject_Z base * (1 # 2))%Q in
  let half := (inject_Z base * (1 # 2))%Q in
  let d := calculateBackoffDelay rnd k base cap in
  (d == Qmin (e + jitter) (inject_Z cap))%Q
  /\ ((0 <= jitter)%Q /\ (jitter <= half)%Q)
  /\ (forall j : Q, (0 <= j)%Q -> (j < half)%Q ->
        exists r : Q, (0 <= r)%Q /\ (r < 1)%Q /\ (r * inject_Z base * (1 # 2) == j)%Q)
  /\ ((Qmin e (inject_Z cap) <= d)%Q /\ (d <= Qmin (e + half) (inject_Z cap))%Q)
  /\ (k = 0%nat ->
        (Qmin (inject_Z base) (inject_Z cap) <= d)%Q /\
        (d <= Qmin ((3 # 2) * inject_Z base) (inject_Z cap))%Q)
  /\ (forall fuel axios random cfg maxRetries r i sl,
        request_loop fuel axios random cfg maxRetries 0 = Some r ->
        sleeps r !! i = Some sl ->
        exists error, axios i = Threw error /\
          sl = getRetryDelay (random i) error i cfg /\
          (JS.truthy (retry_after_header error) = false ->
           sl = calculateBackoffDelay (random i) i
                  (JS.or_default (baseDelay cfg) 1000)
                  (JS.or_default (maxDelay cfg) 30000)))
  /\ (forall this s i t error draw s',
        configured this -> reachable_from this s ->
        tasks s !! i = Some t -> t_pc t = InFlight ->
        shouldRetry error (t_retryCount t) (budget t) = true ->
        step (Responds i (Threw error) draw) s = Some s' ->
        attempts_of i (sent s) = S (t_retryCount t) /\
        exists t', tasks s' !! i = Some t' /\
          t_pc t' = BackingOff (now s + setTimeout
                      (getRetryDelay draw error (t_retryCount t) (t_rateLimitConfig t)))).
Proof.
  intros Hb H0 H1 e jitter half d.
  destruct (jitter_bounds rnd base Hb H0 H1) as [J0 J1].
  pose proof (inject_Z_nonneg base Hb) as Hq.
  split; [reflexivity |]. split; [split; assumption |]. split.
  { intros j Hj0 Hj1. subst half.
    assert (Hpos : (0 < inject_Z base)%Q) by lra.
    exists (j * 2 / inject_Z base)%Q.
    assert (Hne : ~ (inject_Z base == 0)%Q) by lra.
    split; [| split].
    - apply Qle_shift_div_l; [exact Hpos | lra].
    - apply Qlt_shift_div_r; [exact Hpos | lra].
    - field. exact Hne. }
  split.
  { subst d e jitter half. unfold calculateBackoffDelay. split.
    - apply Qmin_mono_l. lra.
    - apply Qmin_mono_l. lra. }
  split.
  { intros ->. subst d e jitter half. unfold calculateBackoffDelay.
    change (inject_Z (2 ^ Z.of_nat 0)) with 1%Q. split.
    - apply Qmin_mono_l. lra.
    - apply Qmin_mono_l. lra. }
  split.
  { intros fuel axios random cfg maxRetries r i sl Hrun Hi.
    destruct (request_loop_sleeps _ _ _ _ _ _ _ _ _ Hrun Hi) as [error [He Hd]].
    simpl in He, Hd. exists error. split; [exact He |]. split; [exact Hd |].
    intros Hno. rewrite Hd. apply getRetryDelay_no_directive. exact Hno. }
  intros this s i t error draw s' Hconf Hreach Hi Hpc Hretry Hstep.
  pose proof (Inv_reachable this s Hconf Hreach) as HI.
  destruct (ct_tasks s (inv_counted this s HI) i t Hi) as (Ha & _).
  unfold called in Ha. rewrite Hpc in Ha. split; [lia |].
  simpl in Hstep. rewrite Hi in Hstep. simpl in Hstep.
  fold (budget t) in Hstep. rewrite Hpc, Hretry in Hstep. injection Hstep as <-.
  eexists. split; [apply list_lookup_insert_eq; eapply lookup_lt_Some, Hi |].
  reflexivity.
Qed.

(** * Further properties of the governor *)

(** ** The decision table, in closed form *)

Lemma shouldRetry_closed_form error retryCount maxRetries :
  shouldRetry error retryCount maxRetries
  = (Z.of_nat retryCount <? maxRetries)
    && match response error with
       | None => true
       | Some resp =>
           (status resp =? 429) || is_timeout_code (code error) || (500 <=? status resp)
       end.
Proof.
  unfold shouldRetry.
  destruct (Z.geb_spec (Z.of_nat retryCount) maxRetries) as [Hge | Hlt].
  { destruct (Z.ltb_spec (Z.of_nat retryCount) maxRetries); [lia | reflexivity]. }
  destruct (Z.ltb_spec (Z.of_nat retryCount) maxRetries); [| lia].
  simpl. destruct (response error) as [resp|]; [| reflexivity].
  destruct (Z.eqb_spec (status resp) 429), (Z.eqb_spec (status resp) 503),
           (Z.eqb_spec (status resp) 502), (Z.eqb_spec (status resp) 504),
           (is_timeout_code (code error)), (Z.geb_spec (status resp) 400),
           (Z.ltb_spec (status resp) 500), (Z.geb_spec (status resp) 500),
           (Z.leb_spec 500 (status resp)); simpl; try reflexivity; lia.
Qed.

(** X3.  The decision table of [shouldRetry] in closed form: a failure is
    retried exactly when the retry count is below the budget and the error
    has no response, or carries a timeout code, or has status 429 or a
    status of 500 or more.  So the listed statuses 502, 503, 504 add nothing
    to the 5xx rule; a timeout code overrides every status, a client error
    or a status below 400 included; and a rejected response with a status
    below 400, or with a client-error status other than 429, is retried
    only when it carries a timeout code.  The decision is monotone: with a
    smaller retry count and a larger budget a retried failure is still
    retried. *)
Theorem shouldRetry_decision
    (error : AxiosError) (retryCount : nat) (maxRetries : Z) :
  (shouldRetry error retryCount maxRetries = true <->
     Z.of_nat retryCount < maxRetries /\
     (response error = None \/ is_timeout_code (code error) = true \/
      exists resp, response error = Some resp /\ (status resp = 429 \/ 500 <= status resp)))
  /\ (is_timeout_code (code error) = true ->
        shouldRetry error retryCount maxRetries
        = (Z.of_nat retryCount <? maxRetries))
  /\ (forall resp, response error = Some resp ->
        status resp < 400 \/ (status resp < 500 /\ status resp <> 429) ->
        shouldRetry error retryCount maxRetries
        = (Z.of_nat retryCount <? maxRetries) && is_timeout_code (code error))
  /\ (forall k' N', (retryCount <= k')%nat -> N' <= maxRetries ->
        shouldRetry error k' N' = true ->
        shouldRetry error retryCount maxRetries = true).
Proof.
  assert (Hcf : forall k N, shouldRetry error k N = true <->
     Z.of_nat k < N /\
     (response error = None \/ is_timeout_code (code error) = true \/
      exists resp, response error = Some resp /\ (status resp = 429 \/ 500 <= status resp))).
  { intros k N. rewrite shouldRetry_closed_form, andb_true_iff, Z.ltb_lt.
    apply and_iff_compat_l.
    destruct (response error) as [resp|].
    - rewrite !orb_true_iff, Z.eqb_eq, Z.leb_le. split.
      + intros [[H | H] | H]; [right; right; eauto | right; left; exact H |
                               right; right; eauto].
      + intros [H | [H | (r & [= <-] & [H | H])]]; [discriminate | auto..].
    - split; [auto | reflexivity]. }
  split; [apply Hcf |]. split.
  { intros Hto. rewrite shouldRetry_closed_form, Hto.
    destruct (response error) as [resp|]; [| apply andb_true_r].
    rewrite orb_true_r. apply andb_true_r. }
  split.
  - intros resp Hr Hlt. rewrite shouldRetry_closed_form, Hr. f_equal.
    destruct (Z.eqb_spec (status resp) 429), (Z.leb_spec 500 (status resp));
      try lia; apply orb_false_r.
  - intros k' N' Hk HN H. apply Hcf in H as [Hlt Hc]. apply Hcf. split; [lia | exact Hc].
Qed.

(** ** Every delay is within the cap *)

Lemma Qmin_le_r (x m : Q) : (Qmin x m <= m)%Q.
Proof. destruct (Q.min_spec x m) as [[? ->]|[? ->]]; lra. Qed.

Lemma Qmin_nonneg (x m : Q) : (0 <= x)%Q -> (0 <= m)%Q -> (0 <= Qmin x m)%Q.
Proof. intros. destruct (Q.min_spec x m) as [[? ->]|[? ->]]; lra. Qed.

Lemma pow2_ge_1 (k : nat) : (1 <= inject_Z (2 ^ Z.of_nat k))%Q.
Proof.
  change 1%Q with (inject_Z 1). rewrite <- Zle_Qle.
  assert (0 < 2 ^ Z.of_nat k) by (apply Z.pow_pos_nonneg; lia). lia.
Qed.

Lemma pow2_succ (k : nat) :
  (inject_Z (2 ^ Z.of_nat (S k)) == 2 * inject_Z (2 ^ Z.of_nat k))%Q.
Proof.
  rewrite Nat2Z.inj_succ, Z.pow_succ_r by lia. rewrite inject_Z_mult. reflexivity.
Qed.

Lemma getRetryDelay_cases rnd error retryCount cfg :
  let cap := JS.or_default (maxDelay cfg) 30000 in
  getRetryDelay rnd error retryCount cfg
  = calculateBackoffDelay rnd retryCount (JS.or_default (baseDelay cfg) 1000) cap
  \/ exists n, 0 < n /\ getRetryDelay rnd error retryCount cfg = inject_Z (Z.min n cap).
Proof.
  intros cap. unfold getRetryDelay. fold cap.
  destruct (JS.truthy (retry_after_header error)); [| left; reflexivity].
  destruct (JS.parseInt _) as [n|]; [| left; reflexivity].
  destruct (Z.gtb_spec (n * 1000) 0); [right | left; reflexivity].
  exists (n * 1000). split; [lia | reflexivity].
Qed.

Lemma getRetryDelay_le_cap rnd error retryCount cfg :
  (getRetryDelay rnd error retryCount cfg <= inject_Z (JS.or_default (maxDelay cfg) 30000))%Q.
Proof.
  destruct (getRetryDelay_cases rnd error retryCount cfg) as [-> | (n & _ & ->)].
  - apply Qmin_le_r.
  - rewrite <- Zle_Qle. lia.
Qed.

Lemma getRetryDelay_nonneg rnd error retryCount cfg :
  0 <= JS.or_default (baseDelay cfg) 1000 -> 0 <= JS.or_default (maxDelay cfg) 30000 ->
  (0 <= rnd)%Q ->
  (0 <= getRetryDelay rnd error retryCount cfg)%Q.
Proof.
  intros Hb Hc Hr.
  destruct (getRetryDelay_cases rnd error retryCount cfg) as [-> | (n & Hn & ->)].
  - unfold calculateBackoffDelay.
    pose proof (inject_Z_nonneg _ Hb). pose proof (inject_Z_nonneg _ Hc).
    pose proof (pow2_ge_1 retryCount).
    apply Qmin_nonneg; [nra | assumption].
  - apply inject_Z_nonneg. lia.
Qed.

Lemma Qsum_bound (l : list Q) (m : Q) :
  Forall (fun x => (x <= m)%Q) l -> (Qsum l <= inject_Z (Z.of_nat (length l)) * m)%Q.
Proof.
  induction 1 as [|x l Hx _ IH]; simpl Qsum; simpl length.
  - change (inject_Z (Z.of_nat 0)) with 0%Q. lra.
  - rewrite Nat2Z.inj_succ. unfold Z.succ. rewrite inject_Z_plus.
    change (inject_Z 1) with 1%Q. lra.
Qed.

(** ** Where the loop ends *)

Lemma stops_exhausted axios maxRetries k :
  maxRetries <= Z.of_nat k -> stops axios maxRetries k = true.
Proof.
  intros H. unfold stops. destruct (axios k); [reflexivity |].
  rewrite shouldRetry_exhausted by exact H. reflexivity.
Qed.

Lemma stops_false axios maxRetries k :
  stops axios maxRetries k = false ->
  exists error, axios k = Threw error /\ shouldRetry error k maxRetries = true.
Proof.
  unfold stops. destruct (axios k) as [|error]; [discriminate |].
  intros H. exists error. split; [reflexivity |]. apply negb_false_iff, H.
Qed.

(** The loop entered with [retryCount = k0] ends at the first attempt at
    which it stops. *)
Lemma request_loop_first_stop fuel axios random cfg maxRetries k0 k :
  (forall j, (k0 <= j < k0 + k)%nat -> stops axios maxRetries j = false) ->
  stops axios maxRetries (k0 + k) = true -> (k < fuel)%nat ->
  exists r, request_loop fuel axios random cfg maxRetries k0 = Some r /\
    outcome r = axios (k0 + k)%nat /\ attempts r = S k /\ length (sleeps r) = k.
Proof.
  revert fuel k0. induction k as [|k IH]; intros fuel k0 Hgo Hstop Hfuel;
    (destruct fuel as [|fuel]; [lia |]); simpl.
  - rewrite Nat.add_0_r in Hstop |- *. unfold stops in Hstop.
    destruct (axios k0) as [resp|error]; [eauto |].
    apply negb_true_iff in Hstop. rewrite Hstop. eauto.
  - destruct (stops_false axios maxRetries k0) as (error & He & Hr); [apply Hgo; lia |].
    rewrite He, Hr.
    destruct (IH fuel (S k0)) as (r & Hrun & Ho & Ha & Hs).
    + intros j Hj. apply Hgo. lia.
    + replace (S k0 + k)%nat with (k0 + S k)%nat by lia. exact Hstop.
    + lia.
    + rewrite Hrun. simpl. eexists. split; [reflexivity |]. simpl.
      replace (k0 + S k)%nat with (S k0 + k)%nat by lia. auto.
Qed.

(** There is a first attempt at which the loop stops, at retry count
    [max 0 maxRetries] at the latest. *)
Lemma first_stop_exists axios maxRetries :
  exists k, Z.of_nat k <= Z.max 0 maxRetries /\ stops axios maxRetries k = true /\
    forall j, (j < k)%nat -> stops axios maxRetries j = false.
Proof.
  assert (H : forall n, (exists k, (k <= n)%nat /\ stops axios maxRetries k = true /\
                           forall j, (j < k)%nat -> stops axios maxRetries j = false)
                        \/ forall j, (j <= n)%nat -> stops axios maxRetries j = false).
  { induction n as [|n [(k & Hk & Hs & Hm) | Hnone]].
    - destruct (stops axios maxRetries 0) eqn:E.
      + left. exists 0%nat. split; [lia |]. split; [exact E |]. intros j Hj. lia.
      + right. intros j Hj. replace j with 0%nat by lia. exact E.
    - left. exists k. split; [lia | auto].
    - destruct (stops axios maxRetries (S n)) eqn:E.
      + left. exists (S n). split; [lia |]. split; [exact E |].
        intros j Hj. apply Hnone. lia.
      + right. intros j Hj. destruct (decide (j = S n)) as [-> | Hne]; [exact E |].
        apply Hnone. lia. }
  destruct (H (Z.to_nat (Z.max 0 maxRetries))) as [(k & Hk & Hs & Hm) | Hnone].
  - exists k. split; [lia | auto].
  - specialize (Hnone (Z.to_nat (Z.max 0 maxRetries)) ltac:(lia)).
    rewrite stops_exhausted in Hnone by lia. discriminate.
Qed.

Lemma request_loop_counts fuel axios random cfg maxRetries k0 r :
  request_loop fuel axios random cfg maxRetries k0 = Some r ->
  attempts r = S (length (sleeps r)) /\
  Z.of_nat (length (sleeps r)) <= Z.max 0 (maxRetries - Z.of_nat k0).
Proof.
  revert k0 r. induction fuel as [|fuel IH]; intros k0 r H; [discriminate |].
  simpl in H. destruct (axios k0) as [resp|error].
  - injection H as <-. simpl. split; [reflexivity | lia].
  - destruct (shouldRetry error k0 maxRetries) eqn:Hs.
    + apply shouldRetry_true_lt in Hs.
      destruct (request_loop fuel axios random cfg maxRetries (S k0)) as [r'|] eqn:E;
        [| discriminate].
      injection H as <-. simpl. destruct (IH _ _ E) as [Ha Hl]. split; [lia | lia].
    + injection H as <-. simpl. split; [reflexivity | lia].
Qed.

Lemma request_resolved this config axios random r :
  request this config axios random = Some r ->
  exists cfg l,
    getConfig this (getDomain (JS.or_string (url config) "")) = Some cfg /\
    getLimiter this (getDomain (JS.or_string (url config) "")) = Some l.
Proof.
  unfold request. intros H. apply bind_Some in H as (cfg & Hc & H).
  apply bind_Some in H as (l & Hl & _). eauto.
Qed.

(** X1.  [request] ends at the first attempt that succeeds or whose
    failure [shouldRetry] refuses: there is always such an attempt, the
    promise settles with that attempt's outcome after exactly that many
    axios calls, and each earlier attempt was followed by the sleep
    [getRetryDelay] computes for its error and retry count.  In particular a
    success that comes after [k] retried failures is returned.  [get] and
    [post] run the same loop for the URL they are given. *)
Theorem request_ends_at_first_stop
    (this : SafeRequestManager) (config : AxiosRequestConfig)
    (axios : nat -> Outcome) (random : nat -> Q)
    (cfg : RateLimiterConfig) (l : nat) :
  getConfig this (getDomain (JS.or_string (url config) "")) = Some cfg ->
  getLimiter this (getDomain (JS.or_string (url config) "")) = Some l ->
  let N := JS.or_default (maxRetries cfg) 3 in
  (exists k r,
     request this config axios random = Some r /\
     stops axios N k = true /\ (forall j, (j < k)%nat -> stops axios N j = false) /\
     outcome r = axios k /\ attempts r = S k /\ length (sleeps r) = k /\
     (forall j, (j < k)%nat -> exists error,
        axios j = Threw error /\ shouldRetry error j N = true /\
        sleeps r !! j = Some (getRetryDelay (random j) error j cfg)))
  /\ (forall k resp,
        (forall j, (j < k)%nat -> exists error,
           axios j = Threw error /\ shouldRetry error j N = true) ->
        axios k = Fulfilled resp ->
        exists r, request this config axios random = Some r /\
          outcome r = Fulfilled resp /\ attempts r = S k)
  /\ (forall u c,
        JS.or_string (url config) "" = u ->
        get this u c axios random = request this config axios random /\
        post this u c axios random = request this config axios random).
Proof.
  intros Hc Hl N.
  assert (Hat : forall k,
            stops axios N k = true -> (forall j, (j < k)%nat -> stops axios N j = false) ->
            exists r, request this config axios random = Some r /\
              outcome r = axios k /\ attempts r = S k /\ length (sleeps r) = k /\
              (forall j, (j < k)%nat -> exists error,
                 axios j = Threw error /\ shouldRetry error j N = true /\
                 sleeps r !! j = Some (getRetryDelay (random j) error j cfg))).
  { intros k Hs Hm.
    assert (Hk : (k < S (Z.to_nat N))%nat).
    { destruct k as [|k]; [lia |].
      destruct (stops_false axios N k (Hm k ltac:(lia))) as (e & _ & Hr).
      apply shouldRetry_true_lt in Hr. lia. }
    destruct (request_loop_first_stop (S (Z.to_nat N)) axios random cfg N 0 k)
      as (r & Hrun & Ho & Ha & Hlen); [intros j Hj; apply Hm; lia | exact Hs | exact Hk |].
    exists r. rewrite (request_unfold _ _ _ _ _ _ Hc Hl). fold N.
    split; [exact Hrun |]. split; [exact Ho |]. split; [exact Ha |].
    split; [exact Hlen |]. intros j Hj.
    destruct (stops_false axios N j (Hm j Hj)) as (e & He & Hr).
    exists e. split; [exact He |]. split; [exact Hr |].
    destruct (lookup_lt_is_Some_2 (sleeps r) j) as [d Hd]; [lia |].
    destruct (request_loop_sleeps _ _ _ _ _ _ _ _ _ Hrun Hd) as (e' & He' & Hd').
    simpl in He', Hd'. rewrite He in He'. injection He' as <-. congruence. }
  split.
  { destruct (first_stop_exists axios N) as (k & _ & Hs & Hm).
    destruct (Hat k Hs Hm) as (r & Hrun & Hrest).
    exists k, r. split; [exact Hrun |]. split; [exact Hs |]. split; [exact Hm |].
    exact Hrest. }
  split.
  { intros k resp Hfail Hok.
    destruct (Hat k) as (r & Hrun & Ho & Ha & _).
    - unfold stops. rewrite Hok. reflexivity.
    - intros j Hj. destruct (Hfail j Hj) as (e & He & Hr).
      unfold stops. rewrite He, Hr. reflexivity.
    - exists r. split; [exact Hrun |]. split; [congruence | exact Ha]. }
  intros u c Hu. unfold get, post, request. simpl. rewrite Hu.
  destruct u; simpl; split; reflexivity.
Qed.

(** X2.  Whatever the outcomes, a request makes at least one and at most
    [max 0 (maxRetries || 3) + 1] axios calls, and sleeps once between two
    consecutive calls.  Among interleaved calls likewise: in every reachable
    state the number of axios calls a call has made is at most that bound,
    its retry count is at most [max 0 (maxRetries || 3)], and while it is
    in flight it has made one call more than its retry count. *)
Theorem attempts_never_exceed_budget
    (this : SafeRequestManager) (config : AxiosRequestConfig)
    (axios : nat -> Outcome) (random : nat -> Q) (r : Run) (cfg : RateLimiterConfig) :
  getConfig this (getDomain (JS.or_string (url config) "")) = Some cfg ->
  request this config axios random = Some r ->
  let retries := JS.or_default (maxRetries cfg) 3 in
  ((1 <= attempts r)%nat /\ Z.of_nat (attempts r) <= Z.max 0 retries + 1 /\
   attempts r = S (length (sleeps r)))
  /\ (forall s i t,
        configured this -> reachable_from this s -> tasks s !! i = Some t ->
        Z.of_nat (attempts_of i (sent s)) <= Z.max 0 (budget t) + 1 /\
        Z.of_nat (t_retryCount t) <= Z.max 0 (budget t) /\
        (t_pc t = InFlight -> attempts_of i (sent s) = S (t_retryCount t))).
Proof.
  intros Hc Hrun retries. split.
  - destruct (request_resolved _ _ _ _ _ Hrun) as (cfg' & l & Hc' & Hl).
    rewrite (request_unfold _ _ _ _ _ _ Hc' Hl) in Hrun.
    assert (cfg' = cfg) as -> by congruence. fold retries in Hrun.
    destruct (request_loop_counts _ _ _ _ _ _ _ Hrun) as [Ha Hl']. lia.
  - intros s i t Hconf Hreach Hi.
    pose proof (Inv_reachable this s Hconf Hreach) as HI.
    destruct (ct_tasks s (inv_counted this s HI) i t Hi) as (Ha & Hb & _ & _).
    rewrite Ha. split; [destruct (called t); lia |]. split; [exact Hb |].
    unfold called. intros ->. lia.
Qed.

(** X4.  No wait between two attempts exceeds the policy's cap
    [maxDelay || 30000], with or without a [Retry-After] header; the waits
    of a whole request add up to at most [max 0 (maxRetries || 3)] times the
    cap; and no wait is negative when the base delay and the cap are not
    and the random draws are not. *)
Theorem retry_delays_within_cap
    (this : SafeRequestManager) (config : AxiosRequestConfig)
    (axios : nat -> Outcome) (random : nat -> Q) (r : Run) (cfg : RateLimiterConfig) :
  getConfig this (getDomain (JS.or_string (url config) "")) = Some cfg ->
  request this config axios random = Some r ->
  let cap := JS.or_default (maxDelay cfg) 30000 in
  let retries := JS.or_default (maxRetries cfg) 3 in
  (forall rnd error k, (getRetryDelay rnd error k cfg <= inject_Z cap)%Q)
  /\ Forall (fun d => (d <= inject_Z cap)%Q) (sleeps r)
  /\ (0 <= cap -> (Qsum (sleeps r) <= inject_Z (Z.max 0 retries) * inject_Z cap)%Q)
  /\ (0 <= JS.or_default (baseDelay cfg) 1000 -> 0 <= cap ->
      (forall k, (0 <= random k)%Q) ->
      Forall (fun d => (0 <= d)%Q) (sleeps r)).
Proof.
  intros Hc Hrun cap retries.
  destruct (request_resolved _ _ _ _ _ Hrun) as (cfg' & l & Hc' & Hl).
  rewrite (request_unfold _ _ _ _ _ _ Hc' Hl) in Hrun.
  assert (cfg' = cfg) as -> by congruence. fold retries in Hrun.
  assert (Hdel : forall d, d ∈ sleeps r -> exists rnd error k,
                   d = getRetryDelay rnd error k cfg /\ rnd = random k).
  { intros d Hd. apply list_elem_of_lookup in Hd as [j Hj].
    destruct (request_loop_sleeps _ _ _ _ _ _ _ _ _ Hrun Hj) as (e & _ & ->).
    eauto. }
  assert (Hall : Forall (fun d => (d <= inject_Z cap)%Q) (sleeps r)).
  { apply Forall_forall. intros d Hd. destruct (Hdel d Hd) as (rnd & e & k & -> & _).
    apply getRetryDelay_le_cap. }
  split; [intros; apply getRetryDelay_le_cap |]. split; [exact Hall |]. split.
  { intros Hcap. pose proof (Qsum_bound _ _ Hall) as Hsum.
    destruct (request_loop_counts _ _ _ _ _ _ _ Hrun) as [_ Hlen].
    pose proof (inject_Z_nonneg cap Hcap) as Hq.
    assert (Hle : (inject_Z (Z.of_nat (length (sleeps r))) <= inject_Z (Z.max 0 retries))%Q)
      by (rewrite <- Zle_Qle; lia).
    nra. }
  intros Hb Hcap Hrnd. apply Forall_forall. intros d Hd.
  destruct (Hdel d Hd) as (rnd & e & k & -> & ->).
  apply getRetryDelay_nonneg; auto.
Qed.

(** X5.  The exponential term dominates the jitter: whatever the two
    random draws, the backoff computed for retry count [k + 1] is at least
    the one computed for [k].  Once [baseDelay * 2^k] has reached [maxDelay]
    the delay is exactly [maxDelay] and carries no jitter any more; as long
    as [baseDelay * 2^k + baseDelay] stays within [maxDelay] the delay is
    the unclamped sum. *)
Theorem backoff_grows_until_capped
    (r1 r2 : Q) (k : nat) (base cap : Z) :
  0 <= base -> (0 <= r1)%Q -> (r1 < 1)%Q -> (0 <= r2)%Q ->
  (calculateBackoffDelay r1 k base cap <= calculateBackoffDelay r2 (S k) base cap)%Q
  /\ (cap <= base * 2 ^ Z.of_nat k ->
      (calculateBackoffDelay r1 k base cap == inject_Z cap)%Q /\
      (calculateBackoffDelay r2 (S k) base cap == inject_Z cap)%Q)
  /\ (base * 2 ^ Z.of_nat k + base <= cap ->
      (calculateBackoffDelay r1 k base cap
       == inject_Z base * inject_Z (2 ^ Z.of_nat k) + r1 * inject_Z base * (1 # 2))%Q).
Proof.
  intros Hb H0 H1 H2.
  pose proof (inject_Z_nonneg base Hb) as Hq.
  pose proof (pow2_ge_1 k) as Hp. pose proof (pow2_succ k) as Hs.
  unfold calculateBackoffDelay. split; [| split].
  - apply Qmin_mono_l. rewrite Hs. nra.
  - intros Hcap.
    assert (Hc : (inject_Z cap <= inject_Z base * inject_Z (2 ^ Z.of_nat k))%Q)
      by (rewrite <- inject_Z_mult, <- Zle_Qle; exact Hcap).
    split.
    + destruct (Q.min_spec (inject_Z base * inject_Z (2 ^ Z.of_nat k)
                            + r1 * inject_Z base * (1 # 2)) (inject_Z cap))
        as [[Hlt ->] | [Hle ->]]; [nra | reflexivity].
    + destruct (Q.min_spec (inject_Z base * inject_Z (2 ^ Z.of_nat (S k))
                            + r2 * inject_Z base * (1 # 2)) (inject_Z cap))
        as [[Hlt ->] | [Hle ->]]; [rewrite Hs in Hlt; nra | reflexivity].
  - intros Hcap.
    assert (Hc : (inject_Z base * inject_Z (2 ^ Z.of_nat k) + inject_Z base
                  <= inject_Z cap)%Q)
      by (rewrite <- inject_Z_mult, <- inject_Z_plus, <- Zle_Qle; exact Hcap).
    destruct (Q.min_spec (inject_Z base * inject_Z (2 ^ Z.of_nat k)
                          + r1 * inject_Z base * (1 # 2)) (inject_Z cap))
      as [[Hlt ->] | [Hle ->]]; [reflexivity | nra].
Qed.

(** ** Registering a policy *)

(** X6.  [configureRateLimit] stores the policy before it builds the
    limiter, and stores it whether or not the limiter can be built.  The
    call throws exactly when the policy's [concurrency] is negative.  When
    it returns, the domain has a new idle limiter of capacity
    [concurrency || 2], an object that did not exist before, also when the
    domain had a limiter already.  When it throws, no limiter is installed
    and none is changed: the domain has the new policy together with the
    limiter it resolved to before, so that a request to it is retried
    according to the new policy behind the old limiter.  In both cases the
    entries of the other domains and the existing limiter objects stay. *)
Theorem configureRateLimit_lookup
    (this : SafeRequestManager) (domain : string) (config : RateLimiterConfig) :
  let this' := configureRateLimit domain config this in
  let c := JS.or_default (concurrency config) 2 in
  getConfig this' domain = Some config
  /\ (forall d, d <> domain ->
        rateLimitConfig this' !! d = rateLimitConfig this !! d /\
        limiters this' !! d = limiters this !! d)
  /\ (forall l L, heap this !! l = Some L -> heap this' !! l = Some L)
  /\ (configureRateLimit_throws config = true <->
        exists k, concurrency config = Some k /\ k < 0)
  /\ (configureRateLimit_throws config = false ->
        1 <= c /\
        exists l, getLimiter this' domain = Some l /\ heap this !! l = None /\
          heap this' !! l
          = Some {| limit_concurrency := c; activeCount := 0; queue := [] |} /\
          forall config2,
            configureRateLimit_throws config2 = false ->
            let this2 := configureRateLimit domain config2 this' in
            getConfig this2 domain = Some config2 /\
            exists l2, getLimiter this2 domain = Some l2 /\ l2 <> l /\
              heap this2 !! l = heap this' !! l)
  /\ (configureRateLimit_throws config = true ->
        limiters this' = limiters this /\ heap this' = heap this /\
        getLimiter this' domain = getLimiter this domain /\
        (forall d, is_Some (getStats this' !! d) <-> is_Some (getStats this !! d)) /\
        forall req axios random l,
          getDomain (JS.or_string (url req) "") = domain ->
          getLimiter this domain = Some l ->
          request this' req axios random
          = request_loop (S (Z.to_nat (JS.or_default (maxRetries config) 3))) axios random
              config (JS.or_default (maxRetries config) 3) 0).
Proof.
  intros this' c.
  assert (Hcfg : rateLimitConfig this' !! domain = Some config).
  { subst this'. unfold configureRateLimit.
    destruct (pLimit _); simpl; apply lookup_insert_eq. }
  assert (Hneg : configureRateLimit_throws config = true <->
                 exists k, concurrency config = Some k /\ k < 0).
  { unfold configureRateLimit_throws, pLimit, JS.or_default.
    destruct (concurrency config) as [k|]; simpl.
    - destruct (Z.eqb_spec k 0) as [-> | Hk]; simpl.
      + split; [discriminate | intros (k & [= <-] & Hlt); lia].
      + destruct (Z.leb_spec 1 k); split; try discriminate; try reflexivity.
        * intros (k' & [= <-] & Hlt). lia.
        * intros _. exists k. split; [reflexivity | lia].
    - split; [discriminate | intros (k & Hk & _); discriminate]. }
  split; [unfold getConfig; rewrite Hcfg; reflexivity |].
  split.
  { intros d Hd. subst this'. unfold configureRateLimit.
    destruct (pLimit _); simpl; rewrite ?lookup_insert_ne by congruence; done. }
  split.
  { intros l L HL. subst this'. unfold configureRateLimit.
    destruct (pLimit _); simpl; [| exact HL].
    rewrite lookup_app_l; [exact HL | eapply lookup_lt_Some, HL]. }
  split; [exact Hneg |]. split.
  { intros Hret. split; [apply configureRateLimit_throws_iff, Hret |].
    subst this'. rewrite (configureRateLimit_returns domain config this Hret).
    exists (length (heap this)). unfold getLimiter. simpl. rewrite lookup_insert_eq.
    split; [reflexivity |]. split; [apply lookup_ge_None; lia |]. split.
    { rewrite lookup_app_r, Nat.sub_diag by lia. reflexivity. }
    intros config2 Hret2. cbv zeta.
    rewrite (configureRateLimit_returns domain config2 _ Hret2).
    unfold getConfig. simpl. rewrite !lookup_insert_eq.
    split; [reflexivity |]. eexists. split; [reflexivity |].
    rewrite length_app. simpl. split; [lia |].
    apply lookup_app_l. rewrite length_app. simpl. lia. }
  intros Hthrows.
  assert (Hst : this' = {| heap := heap this; limiters := limiters this;
                           rateLimitConfig := <[domain := config]> (rateLimitConfig this);
                           lastRequestTime := lastRequestTime this |}).
  { subst this'. unfold configureRateLimit. unfold configureRateLimit_throws in Hthrows.
    destruct (pLimit _); [discriminate | reflexivity]. }
  rewrite Hst. simpl. split; [reflexivity |]. split; [reflexivity |].
  split; [reflexivity |]. split.
  { intros d. unfold getStats. rewrite !map_lookup_imap. simpl.
    destruct (limiters this !! d) as [l|]; simpl; [| done].
    destruct (heap this !! l); simpl; split; eauto. }
  intros req axios random l Hdom Hl. unfold request. rewrite Hdom.
  unfold getConfig at 1. simpl. rewrite lookup_insert_eq. simpl.
  change (getLimiter _ domain) with (getLimiter this domain). rewrite Hl. reflexivity.
Qed.

(** ** The log of calls and the evolution of the calls *)

Lemma same_call_refl t : same_call t t.
Proof. repeat split. Qed.

Lemma same_call_trans t1 t2 t3 : same_call t1 t2 -> same_call t2 t3 -> same_call t1 t3.
Proof. unfold same_call. intros (? & ? & ? & ?) (? & ? & ? & ?). repeat split; congruence. Qed.

Lemma task_evolves_refl t : task_evolves t t.
Proof. split; [apply same_call_refl |]. split; [lia | reflexivity]. Qed.

Lemma task_evolves_trans t1 t2 t3 :
  task_evolves t1 t2 -> task_evolves t2 t3 -> task_evolves t1 t3.
Proof.
  intros (Hs1 & Hr1 & Hd1) (Hs2 & Hr2 & Hd2).
  split; [eapply same_call_trans; eassumption |]. split; [lia |].
  intros o Hpc. rewrite (Hd1 o Hpc) in *. apply (Hd2 o Hpc).
Qed.

Lemma evolves_refl s : evolves s s.
Proof.
  split; [lia | exists []; rewrite app_nil_r; reflexivity |].
  intros i t Hi. exists t. split; [exact Hi | apply task_evolves_refl].
Qed.

Lemma evolves_trans s1 s2 s3 : evolves s1 s2 -> evolves s2 s3 -> evolves s1 s3.
Proof.
  intros [Hc1 [n1 Hl1] Ht1] [Hc2 [n2 Hl2] Ht2]. split; [lia | |].
  - exists (n1 ++ n2). rewrite Hl2, Hl1, app_assoc. reflexivity.
  - intros i t Hi. destruct (Ht1 i t Hi) as (t' & Hi' & He1).
    destruct (Ht2 i t' Hi') as (t'' & Hi'' & He2).
    exists t''. split; [exact Hi'' | eapply task_evolves_trans; eassumption].
Qed.

Lemma evolves_with_task i t t' s :
  tasks s !! i = Some t -> task_evolves t t' -> evolves s (with_task i t' s).
Proof.
  intros Hi He. split; simpl; [lia | exists []; rewrite app_nil_r; reflexivity |].
  intros j tj Hj. destruct (decide (i = j)) as [<- | Hne].
  - exists t'. split; [apply list_lookup_insert_eq; eapply lookup_lt_Some, Hi |].
    congruence.
  - exists tj. rewrite list_lookup_insert_ne by exact Hne.
    split; [exact Hj | apply task_evolves_refl].
Qed.

Lemma evolves_with_limit l L s : evolves s (with_limit l L s).
Proof.
  split; simpl; [lia | exists []; rewrite app_nil_r; reflexivity |].
  intros i t Hi. exists t. split; [exact Hi | apply task_evolves_refl].
Qed.

Lemma evolves_dispatch i t0 t lastRequest s :
  tasks s !! i = Some t0 -> task_evolves t0 (set_pc InFlight t) ->
  evolves s (dispatch i t lastRequest s).
Proof.
  intros Hi He. split; simpl; [lia | eexists; reflexivity |].
  intros j tj Hj. destruct (decide (i = j)) as [<- | Hne].
  - eexists. split; [apply list_lookup_insert_eq; eapply lookup_lt_Some, Hi |].
    congruence.
  - exists tj. rewrite list_lookup_insert_ne by exact Hne.
    split; [exact Hj | apply task_evolves_refl].
Qed.

(** A call that moves on keeps its fixed locals. *)
Lemma task_evolves_set_pc pc t0 t :
  same_call t0 t -> (t_retryCount t0 <= t_retryCount t)%nat ->
  (forall o, t_pc t0 <> Settled o) -> task_evolves t0 (set_pc pc t).
Proof.
  intros Hs Hr Hn. split; [exact Hs |]. split; [exact Hr |].
  intros o Hpc. destruct (Hn o Hpc).
Qed.

Lemma evolves_enforce i t0 t s :
  tasks s !! i = Some t0 -> same_call t0 t ->
  (t_retryCount t0 <= t_retryCount t)%nat -> (forall o, t_pc t0 <> Settled o) ->
  evolves s (enforceRateLimit i t s).
Proof.
  intros Hi Hs Hr Hn. destruct (enforce_cases i t s) as [[_ ->] | [_ ->]].
  - eapply evolves_with_task; [exact Hi |]. apply task_evolves_set_pc; assumption.
  - eapply evolves_dispatch; [exact Hi |]. apply task_evolves_set_pc; assumption.
Qed.

Lemma evolves_run l L s s' :
  run l L s = Some s' ->
  (forall j q t, queue L = j :: q -> tasks s !! j = Some t -> t_pc t = Queued) ->
  evolves s s'.
Proof.
  intros Hrun Hq. apply run_inv in Hrun as (j & q & t & Hqueue & Hj & ->).
  pose proof (Hq j q t Hqueue Hj) as Hpc.
  eapply evolves_trans; [apply (evolves_with_limit l) |].
  eapply evolves_enforce; [exact Hj | repeat split | simpl; lia |].
  intros o. rewrite Hpc. discriminate.
Qed.

Lemma evolves_settle i t o s s' :
  accounted (heap (mgr s)) (tasks s) ->
  tasks s !! i = Some t -> t_pc t = InFlight ->
  settle i t o s = Some s' -> evolves s s'.
Proof.
  intros Hacc Hi Hpc H. unfold settle in H.
  assert (Hmid : evolves s (with_task i (set_leased false (set_pc (Settled o) t)) s)).
  { eapply evolves_with_task; [exact Hi |]. split; [repeat split |].
    split; [simpl; lia |]. intros o'. rewrite Hpc. discriminate. }
  eapply evolves_trans; [exact Hmid |].
  apply next_inv in H as (L & HL & [[_ ->] | Hrun]); [apply evolves_with_limit |].
  eapply evolves_run; [exact Hrun |]. simpl in *.
  intros j q tj Hqueue Hj.
  destruct (Hacc _ _ HL) as (_ & _ & _ & Hqok).
  destruct (Hqok j) as (tj' & Htj' & _ & Hpcj & _); [rewrite Hqueue; left |].
  assert (i <> j) by (intros ->; congruence).
  rewrite list_lookup_insert_ne in Hj by assumption. congruence.
Qed.

Lemma evolves_step this a s s' : Inv this s -> step a s = Some s' -> evolves s s'.
Proof.
  intros [_ _ Hacc _ _ _] H. destruct a as [dt | config | l | i | i o rnd]; simpl in H.
  - destruct (Z.leb_spec 0 dt); [injection H as <- | discriminate].
    split; simpl; [lia | exists []; rewrite app_nil_r; reflexivity |].
    intros i t Hi. exists t. split; [exact Hi | apply task_evolves_refl].
  - apply bind_Some in H as (cfg & _ & H). apply bind_Some in H as (l & _ & H).
    apply bind_Some in H as (L & _ & H). injection H as <-.
    split; simpl; [lia | exists []; rewrite app_nil_r; reflexivity |].
    intros i t Hi. exists t. split; [| apply task_evolves_refl].
    rewrite lookup_app_l; [exact Hi | eapply lookup_lt_Some, Hi].
  - apply bind_Some in H as (L & HL & H).
    destruct (activeCount L <? limit_concurrency L); [| discriminate].
    eapply evolves_run; [exact H |].
    intros j q t Hqueue Hj. destruct (Hacc _ _ HL) as (_ & _ & _ & Hq).
    destruct (Hq j) as (tj & Htj & _ & Hpc & _); [rewrite Hqueue; left |]. congruence.
  - apply bind_Some in H as (t & Ht & H).
    destruct (t_pc t) as [| lr wake | | wake | o] eqn:Hpc; try discriminate.
    + destruct (wake <=? now s); [injection H as <- | discriminate].
      eapply evolves_dispatch; [exact Ht |].
      apply task_evolves_set_pc; [apply same_call_refl | lia |].
      intros o. rewrite Hpc. discriminate.
    + destruct (wake <=? now s); [| discriminate].
      injection H as <-. eapply evolves_enforce; [exact Ht | repeat split | simpl; lia |].
      intros o. rewrite Hpc. discriminate.
  - apply bind_Some in H as (t & Ht & H).
    destruct (t_pc t) eqn:Hpc; try discriminate.
    destruct o as [r | error].
    + eapply evolves_settle; eassumption.
    + destruct (shouldRetry _ _ _).
      * injection H as <-. eapply evolves_with_task; [exact Ht |].
        apply task_evolves_set_pc; [apply same_call_refl | lia |].
        intros o. rewrite Hpc. discriminate.
      * eapply evolves_settle; eassumption.
Qed.

Lemma evolves_exec this acts s s' : Inv this s -> exec acts s = Some s' -> evolves s s'.
Proof.
  revert s. induction acts as [|a acts IH]; intros s HI H; simpl in H.
  - injection H as <-. apply evolves_refl.
  - apply bind_Some in H as (s1 & H1 & H).
    eapply evolves_trans; [eapply evolves_step; eassumption |].
    eapply IH; [eapply Inv_step; eassumption | exact H].
Qed.

(** *** The log records who called, where, and with which timeout *)

Lemma logged_with_limit l L s : logged s -> logged (with_limit l L s).
Proof. intros [Ho Hord Hp]. split; simpl; assumption. Qed.

Lemma logged_with_task i t t' s :
  logged s -> tasks s !! i = Some t -> same_call t t' -> logged (with_task i t' s).
Proof.
  intros [Ho Hord Hp] Hi (Hc & Hd & Hr & _). split; simpl; [| exact Hord | exact Hp].
  eapply Forall_impl; [exact Ho |]. simpl. intros e (te & Hte & Hde & Hto).
  destruct (decide (d_task e = i)) as [Heq | Hne].
  - rewrite Heq in *. exists t'.
    split; [apply list_lookup_insert_eq; eapply lookup_lt_Some, Hi |].
    rewrite Hi in Hte. injection Hte as <-. rewrite Hc, Hd, Hr. done.
  - exists te. rewrite list_lookup_insert_ne by congruence. done.
Qed.

Lemma logged_dispatch i t0 t lastRequest s :
  logged s -> tasks s !! i = Some t0 -> same_call t0 t ->
  logged (dispatch i t lastRequest s).
Proof.
  intros Hlg Hi Hs.
  assert (Hlt : (i < length (tasks s))%nat) by (eapply lookup_lt_Some, Hi).
  destruct (logged_with_task i t0 (set_pc InFlight t) s Hlg Hi Hs) as [Ho _ _].
  destruct Hlg as [_ Hord Hp]. simpl in Ho. split; simpl.
  - apply Forall_app. split; [exact Ho |]. constructor; [| constructor]. simpl.
    eexists. split; [apply list_lookup_insert_eq; exact Hlt |]. done.
  - intros k1 k2 e1 e2 Hle H1 H2.
    assert (Hlen2 := lookup_lt_Some _ _ _ H2). rewrite length_app in Hlen2.
    simpl in Hlen2.
    destruct (decide (k2 < length (sent s))%nat) as [Hin | Hout].
    + rewrite lookup_app_l in H1 by lia. rewrite lookup_app_l in H2 by lia.
      exact (Hord k1 k2 e1 e2 Hle H1 H2).
    + assert (k2 = length (sent s)) as -> by lia.
      rewrite lookup_app_r, Nat.sub_diag in H2 by lia. injection H2 as <-. simpl.
      destruct (decide (k1 < length (sent s))%nat) as [Hin1 | Hout1].
      * rewrite lookup_app_l in H1 by lia.
        apply (proj1 (Forall_lookup _ _) Hp k1 e1 H1).
      * assert (k1 = length (sent s)) as -> by lia.
        rewrite lookup_app_r, Nat.sub_diag in H1 by lia. injection H1 as <-. simpl. lia.
  - apply Forall_app. split; [exact Hp |]. constructor; [simpl; lia | constructor].
Qed.

Lemma logged_enforce i t0 t s :
  logged s -> tasks s !! i = Some t0 -> same_call t0 t ->
  logged (enforceRateLimit i t s).
Proof.
  intros Hlg Hi Hs. destruct (enforce_cases i t s) as [[_ ->] | [_ ->]].
  - eapply logged_with_task; eassumption.
  - eapply logged_dispatch; eassumption.
Qed.

Lemma logged_run l L s s' : logged s -> run l L s = Some s' -> logged s'.
Proof.
  intros Hlg Hrun. apply run_inv in Hrun as (j & q & t & _ & Hj & ->).
  eapply logged_enforce; [apply logged_with_limit, Hlg | exact Hj | repeat split].
Qed.

Lemma logged_settle i t o s s' :
  logged s -> tasks s !! i = Some t -> settle i t o s = Some s' -> logged s'.
Proof.
  intros Hlg Hi H. unfold settle in H.
  assert (Hmid : logged (with_task i (set_leased false (set_pc (Settled o) t)) s))
    by (eapply logged_with_task; [exact Hlg | exact Hi | repeat split]).
  apply next_inv in H as (L & _ & [[_ ->] | Hrun]).
  - apply logged_with_limit, Hmid.
  - eapply logged_run; eassumption.
Qed.

Lemma logged_step a s s' : logged s -> step a s = Some s' -> logged s'.
Proof.
  intros Hlg H. destruct a as [dt | config | l | i | i o rnd]; simpl in H.
  - destruct (Z.leb_spec 0 dt); [injection H as <- | discriminate].
    destruct Hlg as [Ho Hord Hp]. split; simpl; [exact Ho | exact Hord |].
    eapply Forall_impl; [exact Hp |]. simpl. intros e He. lia.
  - apply bind_Some in H as (cfg & _ & H). apply bind_Some in H as (l & _ & H).
    apply bind_Some in H as (L & _ & H). injection H as <-.
    destruct Hlg as [Ho Hord Hp]. split; simpl; [| exact Hord | exact Hp].
    eapply Forall_impl; [exact Ho |]. simpl. intros e (te & Hte & Hrest).
    exists te. split; [| exact Hrest].
    rewrite lookup_app_l; [exact Hte | eapply lookup_lt_Some, Hte].
  - apply bind_Some in H as (L & _ & H).
    destruct (activeCount L <? limit_concurrency L); [| discriminate].
    eapply logged_run; eassumption.
  - apply bind_Some in H as (t & Ht & H).
    destruct (t_pc t) as [| lr wake | | wake | o]; try discriminate.
    + destruct (wake <=? now s); [injection H as <- | discriminate].
      eapply logged_dispatch; [exact Hlg | exact Ht | apply same_call_refl].
    + destruct (wake <=? now s); [| discriminate].
      injection H as <-. eapply logged_enforce; [exact Hlg | exact Ht | repeat split].
  - apply bind_Some in H as (t & Ht & H).
    destruct (t_pc t); try discriminate.
    destruct o as [r | error].
    + eapply logged_settle; eassumption.
    + destruct (shouldRetry _ _ _).
      * injection H as <-. eapply logged_with_task; [exact Hlg | exact Ht | repeat split].
      * eapply logged_settle; eassumption.
Qed.

Lemma logged_exec acts s s' : logged s -> exec acts s = Some s' -> logged s'.
Proof.
  revert s. induction acts as [|a acts IH]; intros s Hlg H; simpl in H.
  - injection H as <-. exact Hlg.
  - apply bind_Some in H as (s1 & H1 & H). eapply IH; [| exact H].
    eapply logged_step; eassumption.
Qed.

Lemma logged_reachable this s : reachable_from this s -> logged s.
Proof.
  intros (t0 & acts & H). eapply logged_exec; [| exact H].
  split; simpl; [constructor | | constructor].
  intros k1 k2 e1 e2 _ H1. destruct k1; discriminate.
Qed.

Lemma requestTimeout_nonzero config cfg : requestTimeout config cfg <> 0.
Proof.
  unfold requestTimeout, JS.or_default.
  destruct (req_timeout config) as [v|]; [destruct (Z.eqb_spec v 0); [| exact n] |];
    (destruct (timeout cfg) as [w|]; [destruct (Z.eqb_spec w 0); [| assumption] |]); lia.
Qed.

(** X7.  Every axios call the manager issues carries a timeout that is
    not 0: the caller's [config.timeout] when that is given and not 0, else
    the [timeout] of the policy resolved for the call's domain when that is
    given and not 0, else 10000.  So a caller's [timeout: 0] (no timeout, for
    axios) is replaced by the policy's. *)
Theorem every_call_carries_a_timeout
    (this : SafeRequestManager) (s : System) (e : Dispatch) :
  configured this -> reachable_from this s -> e ∈ sent s ->
  exists t cfg,
    tasks s !! d_task e = Some t /\ d_domain e = t_domain t /\
    getConfig this (d_domain e) = Some cfg /\
    d_timeout e = JS.or_default (req_timeout (t_config t))
                    (JS.or_default (timeout cfg) 10000) /\
    d_timeout e <> 0 /\
    (forall v, req_timeout (t_config t) = Some v -> v <> 0 -> d_timeout e = v) /\
    (req_timeout (t_config t) = None \/ req_timeout (t_config t) = Some 0 ->
     d_timeout e = JS.or_default (timeout cfg) 10000) /\
    (req_timeout (t_config t) = None \/ req_timeout (t_config t) = Some 0 ->
     timeout cfg = None \/ timeout cfg = Some 0 -> d_timeout e = 10000).
Proof.
  intros Hconf Hreach He.
  destruct (Inv_reachable this s Hconf Hreach) as [_ Ht _ _ _ _].
  destruct (logged_reachable this s Hreach) as [Ho _ _].
  destruct (proj1 (Forall_forall _ _) Ho e He) as (t & Hi & Hd & Hto).
  destruct (proj1 (Forall_lookup _ _) Ht _ t Hi) as [[Hcfg _] _].
  exists t, (t_rateLimitConfig t). rewrite Hd, Hto.
  split; [exact Hi |]. split; [reflexivity |]. split; [exact Hcfg |].
  split; [reflexivity |]. split; [apply requestTimeout_nonzero |].
  unfold requestTimeout, JS.or_default. split; [| split].
  - intros v -> Hv. destruct (Z.eqb_spec v 0); [contradiction | reflexivity].
  - intros [-> | ->]; reflexivity.
  - intros [-> | ->] [-> | ->]; reflexivity.
Qed.

(** ** Monitoring *)

Lemma enqueued_insert_started H ts i t' :
  enqueued H ts -> t_pc t' <> Queued -> enqueued H (<[i := t']> ts).
Proof.
  intros Henq Hpc j t Hj Hq. destruct (decide (i = j)) as [<- | Hne].
  - apply list_lookup_insert_Some in Hj as [(_ & <- & _) | [? _]]; congruence.
  - rewrite list_lookup_insert_ne in Hj by exact Hne. apply (Henq j t Hj Hq).
Qed.

Lemma enqueued_same_queue H ts l L L' :
  enqueued H ts -> H !! l = Some L -> queue L' = queue L ->
  enqueued (<[l := L']> H) ts.
Proof.
  intros Henq HL Hq j t Hj Hpc. destruct (Henq j t Hj Hpc) as (L1 & HL1 & Hin).
  destruct (decide (t_limiter t = l)) as [Heq | Hne]; [rewrite Heq in * |].
  - exists L'. split; [apply list_lookup_insert_eq; eapply lookup_lt_Some, HL |].
    rewrite Hq. rewrite HL in HL1. injection HL1 as <-. exact Hin.
  - exists L1. rewrite list_lookup_insert_ne by congruence. done.
Qed.

Lemma enqueued_pop H ts l L L' j q t' :
  enqueued H ts -> H !! l = Some L -> queue L = j :: q -> queue L' = q ->
  t_pc t' <> Queued ->
  enqueued (<[l := L']> H) (<[j := t']> ts).
Proof.
  intros Henq HL Hq Hq' Hpc k t Hk Hpck.
  destruct (decide (j = k)) as [<- | Hne].
  - apply list_lookup_insert_Some in Hk as [(_ & <- & _) | [? _]]; congruence.
  - rewrite list_lookup_insert_ne in Hk by exact Hne.
    destruct (Henq k t Hk Hpck) as (L1 & HL1 & Hin).
    destruct (decide (t_limiter t = l)) as [Heq | Hnl]; [rewrite Heq in * |].
    + exists L'. split; [apply list_lookup_insert_eq; eapply lookup_lt_Some, HL |].
      rewrite HL in HL1. injection HL1 as <-. rewrite Hq in Hin. rewrite Hq'.
      apply elem_of_cons in Hin as [-> | Hin]; [congruence | exact Hin].
    + exists L1. rewrite list_lookup_insert_ne by congruence. done.
Qed.

Lemma enqueued_run l L0 L s s' :
  enqueued (heap (mgr s)) (tasks s) -> heap (mgr s) !! l = Some L0 ->
  queue L = queue L0 -> run l L s = Some s' ->
  enqueued (heap (mgr s')) (tasks s').
Proof.
  intros Henq HL Hq Hrun. apply run_inv in Hrun as (j & q & t & Hqueue & Hj & ->).
  match goal with
  | |- context [enforceRateLimit ?j0 ?t0 ?s0] =>
      destruct (enforce_fields j0 t0 s0) as (pc' & Hpc' & _ & -> & -> & _)
  end. simpl.
  eapply enqueued_pop; [exact Henq | exact HL | rewrite <- Hq; exact Hqueue | reflexivity | exact Hpc'].
Qed.

Lemma enqueued_settle i t o s s' :
  enqueued (heap (mgr s)) (tasks s) -> settle i t o s = Some s' ->
  enqueued (heap (mgr s')) (tasks s').
Proof.
  intros Henq H. unfold settle in H.
  assert (Hmid : enqueued (heap (mgr s))
                   (<[i := set_leased false (set_pc (Settled o) t)]> (tasks s)))
    by (apply enqueued_insert_started; [exact Henq | discriminate]).
  apply next_inv in H as (L & HL & [[_ ->] | Hrun]); simpl in *.
  - eapply enqueued_same_queue; [exact Hmid | exact HL | reflexivity].
  - eapply (enqueued_run _ L _
              (with_task i (set_leased false (set_pc (Settled o) t)) s));
      [exact Hmid | exact HL | | exact Hrun]. reflexivity.
Qed.

Lemma enqueued_step a s s' :
  enqueued (heap (mgr s)) (tasks s) -> step a s = Some s' ->
  enqueued (heap (mgr s')) (tasks s').
Proof.
  intros Henq H. destruct a as [dt | config | l | i | i o rnd]; simpl in H.
  - destruct (0 <=? dt); [injection H as <-; exact Henq | discriminate].
  - apply bind_Some in H as (cfg & _ & H). apply bind_Some in H as (l & _ & H).
    apply bind_Some in H as (L & HL & H). injection H as <-. simpl.
    assert (Hlt : (l < length (heap (mgr s)))%nat) by (eapply lookup_lt_Some, HL).
    intros j t Hj Hpc. destruct (decide (j < length (tasks s))%nat) as [Hin | Hout].
    + rewrite lookup_app_l in Hj by exact Hin.
      destruct (Henq j t Hj Hpc) as (L1 & HL1 & Hin1).
      destruct (decide (t_limiter t = l)) as [Heq | Hne]; [rewrite Heq in * |].
      * eexists. split; [apply list_lookup_insert_eq; exact Hlt |]. simpl.
        rewrite HL in HL1. injection HL1 as <-. apply elem_of_app. left. exact Hin1.
      * exists L1. rewrite list_lookup_insert_ne by congruence. done.
    + assert (Hlen := lookup_lt_Some _ _ _ Hj). rewrite length_app in Hlen.
      simpl in Hlen. assert (j = length (tasks s)) as -> by lia.
      rewrite lookup_app_r, Nat.sub_diag in Hj by lia. injection Hj as <-. simpl.
      eexists. split; [apply list_lookup_insert_eq; exact Hlt |]. simpl.
      apply elem_of_app. right. left.
  - apply bind_Some in H as (L & HL & H).
    destruct (activeCount L <? limit_concurrency L); [| discriminate].
    eapply enqueued_run; [exact Henq | exact HL | reflexivity | exact H].
  - apply bind_Some in H as (t & Ht & H).
    destruct (t_pc t) as [| lr wake | | wake | o]; try discriminate.
    + destruct (wake <=? now s); [injection H as <- | discriminate]. simpl.
      apply enqueued_insert_started; [exact Henq | discriminate].
    + destruct (wake <=? now s); [| discriminate].
      injection H as <-.
      destruct (enforce_fields i (set_retryCount (S (t_retryCount t)) t) s)
        as (pc' & Hpc' & _ & -> & -> & _).
      apply enqueued_insert_started; [exact Henq | exact Hpc'].
  - apply bind_Some in H as (t & Ht & H).
    destruct (t_pc t); try discriminate.
    destruct o as [r | error].
    + eapply enqueued_settle; eassumption.
    + destruct (shouldRetry _ _ _).
      * injection H as <-. simpl.
        apply enqueued_insert_started; [exact Henq | discriminate].
      * eapply enqueued_settle; eassumption.
Qed.

Lemma enqueued_exec acts s s' :
  enqueued (heap (mgr s)) (tasks s) -> exec acts s = Some s' ->
  enqueued (heap (mgr s')) (tasks s').
Proof.
  revert s. induction acts as [|a acts IH]; intros s Henq H; simpl in H.
  - injection H as <-. exact Henq.
  - apply bind_Some in H as (s1 & H1 & H). eapply IH; [| exact H].
    eapply enqueued_step; eassumption.
Qed.

Lemma enqueued_reachable this s :
  reachable_from this s -> enqueued (heap (mgr s)) (tasks s).
Proof.
  intros (t0 & acts & H). eapply enqueued_exec; [| exact H].
  intros j t Hj. destruct j; discriminate.
Qed.

(** A duplicate-free list of positions that holds exactly the positions of
    the elements satisfying [P] has as many entries as there are such
    elements. *)
Lemma tally_positions {A} (P : A -> bool) (l : list A) (q : list nat) :
  NoDup q ->
  (forall j, j ∈ q <-> exists x, l !! j = Some x /\ P x = true) ->
  length q = tally P l.
Proof.
  revert q. induction l as [|y l IH] using rev_ind; intros q Hnd Hq.
  - destruct q as [|j q]; [reflexivity |].
    destruct (proj1 (Hq j) ltac:(left)) as (x & Hx & _). destruct j; discriminate.
  - rewrite tally_app. simpl. rewrite Nat.add_0_r.
    destruct (P y) eqn:Hy.
    + assert (Hin : length l ∈ q).
      { apply Hq. exists y. rewrite lookup_app_r, Nat.sub_diag by lia. done. }
      apply elem_of_Permutation in Hin as [q' Hperm].
      rewrite Hperm in Hnd. apply NoDup_cons in Hnd as [Hnot Hnd'].
      rewrite Hperm. simpl. rewrite (IH q' Hnd'); [lia |].
      intros j. split.
      * intros Hj. destruct (proj1 (Hq j)) as (x & Hx & HP);
          [rewrite Hperm; right; exact Hj |].
        exists x. split; [| exact HP].
        assert (j <> length l) by (intros ->; contradiction).
        assert (Hlt := lookup_lt_Some _ _ _ Hx). rewrite length_app in Hlt.
        simpl in Hlt. rewrite lookup_app_l in Hx by lia. exact Hx.
      * intros (x & Hx & HP).
        assert (Hlt := lookup_lt_Some _ _ _ Hx).
        assert (Hj : j ∈ q).
        { apply Hq. exists x. rewrite lookup_app_l by exact Hlt. done. }
        rewrite Hperm in Hj. apply elem_of_cons in Hj as [-> | Hj]; [lia | exact Hj].
    + rewrite (IH q Hnd); [lia |]. intros j. rewrite Hq. split.
      * intros (x & Hx & HP).
        assert (Hlt := lookup_lt_Some _ _ _ Hx). rewrite length_app in Hlt.
        simpl in Hlt. destruct (decide (j = length l)) as [-> | Hne].
        -- rewrite lookup_app_r, Nat.sub_diag in Hx by lia. injection Hx as <-.
           congruence.
        -- exists x. rewrite lookup_app_l in Hx by lia. done.
      * intros (x & Hx & HP). exists x.
        rewrite lookup_app_l by (eapply lookup_lt_Some, Hx). done.
Qed.

Lemma tally_ext {A} (P Q : A -> bool) (l : list A) :
  Forall (fun x => P x = Q x) l -> tally P l = tally Q l.
Proof. induction 1 as [|x l Hx _ IH]; simpl; [reflexivity | rewrite Hx, IH; reflexivity]. Qed.

Lemma tally_none {A} (P : A -> bool) (l : list A) :
  Forall (fun x => P x = false) l -> tally P l = 0%nat.
Proof. induction 1 as [|x l Hx _ IH]; simpl; [reflexivity | rewrite Hx, IH; reflexivity]. Qed.

(** What a limiter object counts, in terms of the calls submitted to it. *)
Lemma limiter_counts this s l L :
  Inv this s -> enqueued (heap (mgr s)) (tasks s) -> heap (mgr s) !! l = Some L ->
  activeCount L
  = Z.of_nat (tally (fun t => bool_decide (t_limiter t = l) && is_unsettled_started t)
                (tasks s))
  /\ length (queue L)
     = tally (fun t => bool_decide (t_limiter t = l)
                       && match t_pc t with Queued => true | _ => false end) (tasks s).
Proof.
  intros [_ Ht Ha _ _ _] Henq HL. destruct (Ha l L HL) as (Hc & _ & Hnd & Hq). split.
  - rewrite Hc. f_equal. unfold leases. apply tally_ext.
    eapply Forall_impl; [exact Ht |]. simpl. intros t [_ Hb]. rewrite Hb. reflexivity.
  - apply tally_positions; [exact Hnd |]. intros j. split.
    + intros Hj. destruct (Hq j Hj) as (t & Hj' & Hl & Hpc & _).
      exists t. split; [exact Hj' |]. rewrite Hpc, bool_decide_eq_true_2 by exact Hl.
      reflexivity.
    + intros (t & Hj & HP). apply andb_prop in HP as [Hl Hpc].
      apply bool_decide_eq_true in Hl.
      destruct (t_pc t) eqn:E; try discriminate.
      destruct (Henq j t Hj E) as (L1 & HL1 & Hin).
      rewrite Hl, HL in HL1. injection HL1 as <-. exact Hin.
Qed.

(** The calls a limiter counts are those whose domain is counted under the
    key the limiter is stored at. *)
Lemma stats_key_limiter this domain l d ld :
  well_configured this -> getLimiter this domain = Some l ->
  limiters this !! d = Some ld ->
  stats_key this domain = d <-> l = ld.
Proof.
  intros Hwf Hl Hd. unfold getLimiter in Hl. unfold stats_key.
  destruct (limiters this !! domain) as [l'|] eqn:E.
  - injection Hl as <-. split.
    + intros <-. congruence.
    + intros <-. eapply (wc_distinct _ Hwf); eassumption.
  - split.
    + intros <-. congruence.
    + intros <-. eapply (wc_distinct _ Hwf); eassumption.
Qed.

Lemma tally_by_key this (P : Task -> bool) ts d l :
  well_configured this -> Forall (task_ok this) ts -> limiters this !! d = Some l ->
  tally (fun t => bool_decide (t_limiter t = l) && P t) ts
  = tally (fun t => bool_decide (stats_key this (t_domain t) = d) && P t) ts.
Proof.
  intros Hwf Hall Hd. apply tally_ext. eapply Forall_impl; [exact Hall |]. simpl.
  intros t [[_ Hl] _]. f_equal. apply bool_decide_ext. symmetry.
  eapply stats_key_limiter; eassumption.
Qed.

Lemma getStats_lookup this d :
  getStats this !! d
  = l ← limiters this !! d; L ← heap this !! l;
    Some {| st_activeCount := activeCount L; st_pendingCount := length (queue L);
            st_config := rateLimitConfig this !! d |}.
Proof. unfold getStats. rewrite map_lookup_imap. reflexivity. Qed.

(** An entry of [getStats] in a reachable state: the key has a limiter,
    allocated, and the entry reads its counters. *)
Lemma getStats_entry this s d st :
  well_configured this -> Inv this s -> getStats (mgr s) !! d = Some st ->
  exists l L, limiters this !! d = Some l /\ heap (mgr s) !! l = Some L /\
    st_activeCount st = activeCount L /\ st_pendingCount st = length (queue L) /\
    st_config st = rateLimitConfig this !! d.
Proof.
  intros Hwf HI Hst. destruct (inv_static this s HI) as (El & Ec & _).
  rewrite getStats_lookup, <- El, <- Ec in Hst.
  apply bind_Some in Hst as (l & Hl & Hst). apply bind_Some in Hst as (L & HL & Hst).
  injection Hst as <-. exists l, L. done.
Qed.

(** X9.  [getStats] is exact.  In every reachable state it has one entry
    per configured domain, with that domain's policy; [activeCount] is the
    number of calls counted under that key whose callback has started and
    not settled, at most [max 0 (concurrency || 2)]; [pendingCount] is the
    number of those still waiting to start.  A call is counted under its
    own domain when the domain is configured and under ['default']
    otherwise, and every submitted call is counted under some key. *)
Theorem getStats_reports_exact_counts
    (this : SafeRequestManager) (s : System) :
  configured this -> reachable_from this s ->
  (forall d, is_Some (getStats (mgr s) !! d) <-> is_Some (rateLimitConfig this !! d))
  /\ (forall d st, getStats (mgr s) !! d = Some st ->
        st_config st = rateLimitConfig this !! d /\
        st_activeCount st = Z.of_nat (started_on this d (tasks s)) /\
        st_pendingCount st = waiting_on this d (tasks s) /\
        (forall cfg, st_config st = Some cfg ->
           st_activeCount st <= Z.max 0 (JS.or_default (concurrency cfg) 2)))
  /\ (forall t, t ∈ tasks s ->
        is_Some (getStats (mgr s) !! stats_key this (t_domain t))).
Proof.
  intros Hconf Hreach.
  pose proof (configured_well this Hconf) as Hwf.
  pose proof (Inv_reachable this s Hconf Hreach) as HI.
  pose proof (enqueued_reachable this s Hreach) as Henq.
  assert (Hkeys : forall d, is_Some (getStats (mgr s) !! d)
                            <-> is_Some (rateLimitConfig this !! d)).
  { intros d. destruct (inv_static this s HI) as (El & Ec & _).
    rewrite getStats_lookup, <- El. split.
    - intros [st Hst]. apply bind_Some in Hst as (l & Hl & _).
      destruct (rateLimitConfig this !! d) eqn:E; [eauto |].
      apply (wc_same_keys _ Hwf) in E. congruence.
    - intros [cfg Hcfg]. destruct (limiters this !! d) as [l|] eqn:E.
      + destruct (wc_cap _ Hwf d l cfg E Hcfg) as (L0 & HL0 & _).
        destruct (static_heap_lookup this (mgr s) l L0 (inv_static this s HI) HL0)
          as (L & HL & _).
        simpl. rewrite HL. simpl. eauto.
      + apply (wc_same_keys _ Hwf) in E. congruence. }
  split; [exact Hkeys |]. split.
  { intros d st Hst.
    destruct (getStats_entry this s d st Hwf HI Hst) as (l & L & Hl & HL & -> & -> & ->).
    destruct (limiter_counts this s l L HI Henq HL) as [Hact Hpend].
    split; [reflexivity |]. split.
    { rewrite Hact. f_equal. apply tally_by_key; [exact Hwf | apply HI | exact Hl]. }
    split.
    { rewrite Hpend. apply tally_by_key; [exact Hwf | apply HI | exact Hl]. }
    intros cfg Hcfg.
    destruct (wc_cap _ Hwf d l cfg Hl Hcfg) as (L0 & HL0 & Hcap0).
    destruct (static_heap_lookup this (mgr s) l L0 (inv_static this s HI) HL0)
      as (L' & HL' & Hcap).
    rewrite HL in HL'. injection HL' as <-.
    destruct (inv_acct this s HI l L HL) as (_ & Hle & _). rewrite <- Hcap0, <- Hcap.
    exact Hle. }
  intros t Hin. apply Hkeys.
  destruct (proj1 (Forall_forall _ _) (inv_tasks this s HI) t Hin) as [[_ Hl] _].
  unfold getLimiter in Hl. unfold stats_key.
  destruct (limiters this !! t_domain t) eqn:E.
  - destruct (rateLimitConfig this !! t_domain t) eqn:E'; [eauto |].
    apply (wc_same_keys _ Hwf) in E'. congruence.
  - destruct (rateLimitConfig this !! "default"%string) eqn:E'; [eauto |].
    apply (wc_same_keys _ Hwf) in E'. congruence.
Qed.

(** A limiter none of whose calls is unsettled is idle. *)
Lemma limiter_idle this s :
  Inv this s -> enqueued (heap (mgr s)) (tasks s) ->
  forall l L, heap (mgr s) !! l = Some L ->
    (forall t, t ∈ tasks s -> t_limiter t = l -> is_settled t = true) ->
    activeCount L = 0 /\ queue L = [].
Proof.
  intros HI Henq l L HL Hall.
  destruct (limiter_counts this s l L HI Henq HL) as [Hact Hpend].
  rewrite tally_none in Hact, Hpend.
  - split; [exact Hact | apply nil_length_inv, Hpend].
  - apply Forall_forall. intros t Hin.
    destruct (decide (t_limiter t = l)) as [Hl | Hl].
    + specialize (Hall t Hin Hl). unfold is_settled in Hall.
      destruct (t_pc t); try discriminate. apply andb_false_r.
    + rewrite bool_decide_eq_false_2 by exact Hl. reflexivity.
  - apply Forall_forall. intros t Hin.
    destruct (decide (t_limiter t = l)) as [Hl | Hl].
    + specialize (Hall t Hin Hl). unfold is_settled, is_unsettled_started in *.
      destruct (t_pc t); try discriminate. apply andb_false_r.
    + rewrite bool_decide_eq_false_2 by exact Hl. reflexivity.
Qed.

(** X10.  No slot is leaked, whichever way a call ends.  In every
    reachable state a limiter all of whose calls have settled has
    [activeCount = 0] and an empty queue; when every call has settled
    [getStats] reports 0 active and 0 pending for every domain; and a
    settled call holds no slot. *)
Theorem no_slot_is_leaked
    (this : SafeRequestManager) (s : System) :
  configured this -> reachable_from this s ->
  (forall l L, heap (mgr s) !! l = Some L ->
     (forall t, t ∈ tasks s -> t_limiter t = l -> is_settled t = true) ->
     activeCount L = 0 /\ queue L = [])
  /\ (Forall (fun t => is_settled t = true) (tasks s) ->
      forall d st, getStats (mgr s) !! d = Some st ->
        st_activeCount st = 0 /\ st_pendingCount st = 0%nat)
  /\ (forall i t, tasks s !! i = Some t -> is_settled t = true -> t_leased t = false).
Proof.
  intros Hconf Hreach.
  pose proof (configured_well this Hconf) as Hwf.
  pose proof (Inv_reachable this s Hconf Hreach) as HI.
  pose proof (enqueued_reachable this s Hreach) as Henq.
  pose proof (limiter_idle this s HI Henq) as Hidle.
  split; [exact Hidle |]. split.
  - intros Hall d st Hst.
    destruct (getStats_entry this s d st Hwf HI Hst) as (l & L & Hl & HL & -> & -> & _).
    destruct (Hidle l L HL) as [-> ->]; [| done].
    intros t Hin _. apply (proj1 (Forall_forall _ _) Hall t Hin).
  - intros i t Hi Hs.
    destruct (proj1 (Forall_lookup _ _) (inv_tasks this s HI) i t Hi) as [_ Hb].
    rewrite Hb. unfold is_settled in Hs. unfold is_unsettled_started.
    destruct (t_pc t); done.
Qed.

(** ** No call is ever stuck *)

Lemma exec_app acts1 acts2 s :
  exec (acts1 ++ acts2) s = s1 ← exec acts1 s; exec acts2 s1.
Proof.
  revert s. induction acts1 as [|a acts1 IH]; intros s; simpl; [reflexivity |].
  destruct (step a s) as [s1|]; simpl; [apply IH | reflexivity].
Qed.

Lemma enforce_length i t s :
  length (tasks (enforceRateLimit i t s)) = length (tasks s).
Proof.
  destruct (enforce_fields i t s) as (pc' & _ & _ & -> & _). apply length_insert.
Qed.

Lemma run_length l L s s' :
  run l L s = Some s' -> length (tasks s') = length (tasks s).
Proof.
  intros H. apply run_inv in H as (j & q & t & _ & _ & ->).
  rewrite enforce_length. reflexivity.
Qed.

Lemma settle_length i t o s s' :
  settle i t o s = Some s' -> length (tasks s') = length (tasks s).
Proof.
  unfold settle. intros H. apply next_inv in H as (L & _ & [[_ ->] | Hrun]).
  - simpl. apply length_insert.
  - rewrite (run_length _ _ _ _ Hrun). simpl. apply length_insert.
Qed.

(** Only a new [request] adds a call. *)
Lemma step_length a s s' :
  step a s = Some s' -> (forall config, a <> Call config) ->
  length (tasks s') = length (tasks s).
Proof.
  intros H Hn. destruct a as [dt | config | l | i | i o rnd]; simpl in H.
  - destruct (0 <=? dt); [injection H as <-; reflexivity | discriminate].
  - destruct (Hn config eq_refl).
  - apply bind_Some in H as (L & _ & H).
    destruct (activeCount L <? limit_concurrency L); [| discriminate].
    eapply run_length, H.
  - apply bind_Some in H as (t & _ & H).
    destruct (t_pc t) as [| lr wake | | wake | o]; try discriminate.
    + destruct (wake <=? now s); [injection H as <- | discriminate]. simpl.
      apply length_insert.
    + destruct (wake <=? now s); [| discriminate].
      injection H as <-. apply enforce_length.
  - apply bind_Some in H as (t & _ & H).
    destruct (t_pc t); try discriminate.
    destruct o as [r | error].
    + eapply settle_length, H.
    + destruct (shouldRetry _ _ _).
      * injection H as <-. simpl. apply length_insert.
      * eapply settle_length, H.
Qed.

(** A call in flight settles when its response arrives. *)
Lemma in_flight_can_settle this s j t :
  well_configured this -> Inv this s ->
  tasks s !! j = Some t -> t_pc t = InFlight ->
  exists acts s', settles_in s j acts s'.
Proof.
  intros Hwf HI Hj Hpc.
  destruct (settle_effect this s j t (Fulfilled ok_response) Hwf HI Hj Hpc)
    as (s' & Hs & Hj' & _).
  assert (Hstep : step (Responds j (Fulfilled ok_response) 0) s = Some s')
    by (simpl; rewrite Hj; simpl; rewrite Hpc; exact Hs).
  exists [Responds j (Fulfilled ok_response) 0], s'. split; [| split].
  - cbn [exec]. rewrite Hstep. reflexivity.
  - eapply step_length; [exact Hstep | discriminate].
  - eexists. split; [exact Hj' | reflexivity].
Qed.

Lemma settles_in_after a s s1 j acts s' :
  step a s = Some s1 -> (forall config, a <> Call config) ->
  settles_in s1 j acts s' -> settles_in s j (a :: acts) s'.
Proof.
  intros Hstep Hn (Hexec & Hlen & Hset). split; [| split; [| exact Hset]].
  - cbn [exec]. rewrite Hstep. exact Hexec.
  - rewrite Hlen. eapply step_length; eassumption.
Qed.

(** A call in its spacing wait is dispatched when its timer fires. *)
Lemma waiting_can_settle this s j t lastRequest wake :
  well_configured this -> Inv this s ->
  tasks s !! j = Some t -> t_pc t = SpacingWait lastRequest wake ->
  exists acts s', settles_in s j acts s'.
Proof.
  intros Hwf HI Hj Hpc.
  set (dt := Z.max 0 (wake - now s)).
  set (s1 := {| mgr := mgr s; now := now s + dt; tasks := tasks s; sent := sent s |}).
  assert (H1 : step (Tick dt) s = Some s1).
  { simpl. destruct (Z.leb_spec 0 dt); [reflexivity | lia]. }
  assert (H2 : step (TimerFires j) s1 = Some (dispatch j t lastRequest s1)).
  { simpl. rewrite Hj. simpl. rewrite Hpc.
    destruct (Z.leb_spec wake (now s + dt)); [reflexivity | lia]. }
  pose proof (Inv_step this _ _ _ (Inv_step this _ _ _ HI H1) H2) as HI2.
  destruct (in_flight_can_settle this (dispatch j t lastRequest s1) j
              (set_pc InFlight t) Hwf HI2) as (acts & s' & Hset).
  - simpl. apply list_lookup_insert_eq. eapply lookup_lt_Some, Hj.
  - reflexivity.
  - exists (Tick dt :: TimerFires j :: acts), s'.
    eapply settles_in_after; [exact H1 | discriminate |].
    eapply settles_in_after; [exact H2 | discriminate | exact Hset].
Qed.

(** A call whose callback has started and not settled can settle. *)
Lemma started_can_settle this s j t :
  well_configured this -> Inv this s ->
  tasks s !! j = Some t -> is_unsettled_started t = true ->
  exists acts s', settles_in s j acts s'.
Proof.
  intros Hwf HI Hj Hst. unfold is_unsettled_started in Hst.
  destruct (t_pc t) as [| lr wake | | wake | o] eqn:Hpc; try discriminate.
  - eapply waiting_can_settle; eassumption.
  - eapply in_flight_can_settle; eassumption.
  - set (dt := Z.max 0 (wake - now s)).
    set (s1 := {| mgr := mgr s; now := now s + dt; tasks := tasks s; sent := sent s |}).
    set (t1 := set_retryCount (S (t_retryCount t)) t).
    assert (H1 : step (Tick dt) s = Some s1).
    { simpl. destruct (Z.leb_spec 0 dt); [reflexivity | lia]. }
    assert (H2 : step (TimerFires j) s1 = Some (enforceRateLimit j t1 s1)).
    { simpl. rewrite Hj. simpl. rewrite Hpc.
      destruct (Z.leb_spec wake (now s + dt)); [reflexivity | lia]. }
    pose proof (Inv_step this _ _ _ (Inv_step this _ _ _ HI H1) H2) as HI2.
    assert (Hlt : (j < length (tasks s1))%nat) by (eapply lookup_lt_Some, Hj).
    assert (Hnext : exists acts s', settles_in (enforceRateLimit j t1 s1) j acts s').
    { destruct (enforce_cases j t1 s1) as [[_ E] | [_ E]]; rewrite E in HI2 |- *.
      - eapply waiting_can_settle;
          [exact Hwf | exact HI2 | simpl; apply list_lookup_insert_eq; exact Hlt
          | reflexivity].
      - eapply in_flight_can_settle;
          [exact Hwf | exact HI2 | simpl; apply list_lookup_insert_eq; exact Hlt
          | reflexivity]. }
    destruct Hnext as (acts & s' & Hset).
    exists (Tick dt :: TimerFires j :: acts), s'.
    eapply settles_in_after; [exact H1 | discriminate |].
    eapply settles_in_after; [exact H2 | discriminate | exact Hset].
Qed.

Lemma unsettled_decreases ts ts' j t t' :
  length ts' = length ts ->
  (forall i x, ts !! i = Some x -> exists x', ts' !! i = Some x' /\
     (is_settled x = true -> is_settled x' = true)) ->
  ts !! j = Some t -> ts' !! j = Some t' ->
  is_settled t = false -> is_settled t' = true ->
  (unsettled ts' < unsettled ts)%nat.
Proof.
  assert (Hle : forall ts ts', length ts' = length ts ->
            (forall i x, ts !! i = Some x -> exists x', ts' !! i = Some x' /\
               (is_settled x = true -> is_settled x' = true)) ->
            (unsettled ts' <= unsettled ts)%nat).
  { clear. induction ts as [|x ts IH]; intros [|x' ts'] Hlen Hmon;
      try discriminate; [reflexivity |].
    unfold unsettled in *. simpl.
    destruct (Hmon 0%nat x eq_refl) as (y & [= <-] & Hx).
    specialize (IH ts' ltac:(simpl in Hlen; lia) (fun i => Hmon (S i))).
    destruct (is_settled x); [rewrite Hx by reflexivity |]; simpl;
      destruct (is_settled x'); simpl; lia. }
  revert ts' j. induction ts as [|x ts IH]; intros [|x' ts'] j Hlen Hmon Hj Hj' Hs Hs';
    try discriminate.
  destruct j as [|j]; simpl in Hj, Hj'.
  - injection Hj as ->. injection Hj' as ->.
    specialize (Hle ts ts' ltac:(simpl in Hlen; lia) (fun i => Hmon (S i))).
    unfold unsettled in *. simpl. rewrite Hs, Hs'. simpl. lia.
  - specialize (IH ts' j ltac:(simpl in Hlen; lia) (fun i => Hmon (S i)) Hj Hj' Hs Hs').
    destruct (Hmon 0%nat x eq_refl) as (y & [= <-] & Hx).
    unfold unsettled in *. simpl.
    destruct (is_settled x); [rewrite Hx by reflexivity |]; simpl;
      destruct (is_settled x'); simpl; lia.
Qed.

Lemma settles_in_decreases this s j t acts s' :
  Inv this s -> tasks s !! j = Some t -> is_settled t = false ->
  settles_in s j acts s' -> (unsettled (tasks s') < unsettled (tasks s))%nat.
Proof.
  intros HI Hj Hs (Hexec & Hlen & t' & Hj' & Hs').
  destruct (evolves_exec this acts s s' HI Hexec) as [_ _ Hev].
  eapply unsettled_decreases; try eassumption.
  intros i x Hi. destruct (Hev i x Hi) as (x' & Hi' & _ & _ & Hkeep).
  exists x'. split; [exact Hi' |]. unfold is_settled. intros Hx.
  destruct (t_pc x) eqn:E; try discriminate. rewrite (Hkeep _ eq_refl), E. reflexivity.
Qed.

Lemma static_heap_lookup_inv this m l L :
  static_eq this m -> heap m !! l = Some L ->
  exists L0, heap this !! l = Some L0 /\ limit_concurrency L0 = limit_concurrency L.
Proof.
  intros (_ & _ & Hcaps) HL.
  assert (H : (limit_concurrency <$> heap this) !! l = Some (limit_concurrency L))
    by (rewrite Hcaps, list_lookup_fmap, HL; reflexivity).
  rewrite list_lookup_fmap in H. destruct (heap this !! l) as [L0|]; [| discriminate].
  injection H as H. eauto.
Qed.

(** While some call is unsettled, some schedule without new requests
    settles one more call. *)
Lemma one_more_settles this s :
  well_configured this -> caps_positive this -> Inv this s ->
  enqueued (heap (mgr s)) (tasks s) -> (0 < unsettled (tasks s))%nat ->
  exists acts s', exec acts s = Some s' /\ length (tasks s') = length (tasks s) /\
    (unsettled (tasks s') < unsettled (tasks s))%nat.
Proof.
  intros Hwf Hcaps HI Henq Hpos.
  destruct (decide (Exists (fun t => is_unsettled_started t = true) (tasks s)))
    as [Hex | Hnone].
  - apply Exists_exists in Hex as (t & Hin & Hst).
    apply list_elem_of_lookup in Hin as [j Hj].
    destruct (started_can_settle this s j t Hwf HI Hj Hst) as (acts & s' & Hset).
    exists acts, s'. split; [apply Hset |]. split; [apply Hset |].
    eapply settles_in_decreases; [exact HI | exact Hj | | exact Hset].
    unfold is_unsettled_started in Hst. unfold is_settled. destruct (t_pc t); done.
  - apply not_Exists_Forall in Hnone; [| intros t; apply _].
    assert (Hidle : Forall (fun t => is_unsettled_started t = false) (tasks s)).
    { eapply Forall_impl; [exact Hnone |]. simpl. intros t Ht.
      destruct (is_unsettled_started t); [contradiction | reflexivity]. }
    assert (exists i t, tasks s !! i = Some t /\ t_pc t = Queued) as (i & t & Hi & Hpc).
    { destruct (decide (Exists (fun t => is_settled t = false) (tasks s))) as [Hex | Hall].
      - apply Exists_exists in Hex as (t & Hin & Hs).
        apply list_elem_of_lookup in Hin as [i Hi]. exists i, t. split; [exact Hi |].
        pose proof (proj1 (Forall_lookup _ _) Hidle i t Hi) as Hn.
        unfold is_settled in Hs. unfold is_unsettled_started in Hn.
        destruct (t_pc t); done.
      - apply not_Exists_Forall in Hall; [| intros t; apply _].
        unfold unsettled in Hpos. rewrite tally_none in Hpos; [lia |].
        eapply Forall_impl; [exact Hall |]. simpl. intros t Ht.
        destruct (is_settled t); [reflexivity | contradiction]. }
    destruct (Henq i t Hi Hpc) as (L & HL & Hin).
    destruct (queue L) as [|j q] eqn:Hq; [inversion Hin |].
    destruct (inv_acct this s HI _ L HL) as (Hc & _ & _ & Hqok).
    destruct (Hqok j) as (tj & Hj & _ & Hpcj & _); [rewrite Hq; left |].
    assert (Hact : activeCount L = 0).
    { rewrite Hc. unfold leases. rewrite tally_none; [reflexivity |].
      apply Forall_lookup. intros k tk Hk.
      destruct (proj1 (Forall_lookup _ _) (inv_tasks this s HI) k tk Hk) as [_ Hb].
      rewrite Hb, (proj1 (Forall_lookup _ _) Hidle k tk Hk). apply andb_false_r. }
    destruct (static_heap_lookup_inv this (mgr s) _ L (inv_static this s HI) HL)
      as (L0 & HL0 & Hcap).
    pose proof (proj1 (Forall_lookup _ _) Hcaps _ L0 HL0) as Hcap0. simpl in Hcap0.
    set (l := t_limiter t) in *.
    assert (exists s1, step (Start l) s = Some s1) as [s1 H1].
    { simpl. rewrite HL. simpl.
      destruct (Z.ltb_spec (activeCount L) (limit_concurrency L)); [| lia].
      unfold run. rewrite Hq, Hj. simpl. eauto. }
    pose proof (Inv_step this _ _ _ HI H1) as HI1.
    assert (exists t1, tasks s1 !! j = Some t1 /\ is_unsettled_started t1 = true)
      as (t1 & Hj1 & Hst1).
    { simpl in H1. rewrite HL in H1. simpl in H1.
      destruct (activeCount L <? limit_concurrency L); [| discriminate].
      apply run_inv in H1 as (j' & q' & tj' & Hq' & Hj' & ->).
      rewrite Hq in Hq'. injection Hq' as <- <-.
      match goal with
      | |- context [enforceRateLimit ?j0 ?t0 ?s0] =>
          destruct (enforce_fields j0 t0 s0) as (pc' & _ & Hst' & -> & _)
      end.
      eexists. split; [apply list_lookup_insert_eq; eapply lookup_lt_Some, Hj' |].
      exact Hst'. }
    destruct (started_can_settle this s1 j t1 Hwf HI1 Hj1 Hst1) as (acts & s' & Hset).
    pose proof (settles_in_after (Start l) s s1 j acts s' H1 ltac:(discriminate) Hset)
      as Hset'.
    exists (Start l :: acts), s'. split; [apply Hset' |]. split; [apply Hset' |].
    eapply settles_in_decreases; [exact HI | exact Hj | | exact Hset'].
    unfold is_settled. rewrite Hpcj. reflexivity.
Qed.

Lemma can_drain this n s :
  well_configured this -> caps_positive this -> Inv this s ->
  enqueued (heap (mgr s)) (tasks s) -> (unsettled (tasks s) <= n)%nat ->
  exists acts s', exec acts s = Some s' /\ length (tasks s') = length (tasks s) /\
    unsettled (tasks s') = 0%nat.
Proof.
  intros Hwf Hcaps. revert s. induction n as [|n IH]; intros s HI Henq Hn.
  - exists [], s. split; [reflexivity |]. split; [reflexivity | lia].
  - destruct (decide (unsettled (tasks s) = 0%nat)) as [Hz | Hnz].
    + exists [], s. split; [reflexivity |]. split; [reflexivity | exact Hz].
    + destruct (one_more_settles this s Hwf Hcaps HI Henq ltac:(lia))
        as (acts1 & s1 & H1 & Hlen1 & Hdec).
      destruct (IH s1) as (acts2 & s2 & H2 & Hlen2 & Hz);
        [eapply Inv_exec; eassumption | eapply enqueued_exec; eassumption | lia |].
      exists (acts1 ++ acts2), s2. rewrite exec_app, H1. simpl.
      split; [exact H2 |]. split; [lia | exact Hz].
Qed.

Lemma unsettled_zero ts :
  unsettled ts = 0%nat -> Forall (fun t => is_settled t = true) ts.
Proof.
  unfold unsettled. induction ts as [|t ts IH]; simpl; intros H; [constructor |].
  destruct (is_settled t) eqn:E; simpl in H; [| lia].
  constructor; [exact E | apply IH; lia].
Qed.

(** X11.  The governor cannot get stuck.  When every limiter was built
    with a concurrency of at least 1, from every reachable state there is a
    schedule, without new requests, after which every submitted call has
    settled and every limiter is idle again; the calls already settled keep
    their outcome. *)
Theorem every_call_can_settle
    (this : SafeRequestManager) (s : System) :
  configured this -> caps_positive this -> reachable_from this s ->
  exists acts s',
    exec acts s = Some s' /\
    length (tasks s') = length (tasks s) /\
    Forall (fun t => is_settled t = true) (tasks s') /\
    Forall (fun L => activeCount L = 0 /\ queue L = []) (heap (mgr s')) /\
    (forall i t o, tasks s !! i = Some t -> t_pc t = Settled o -> tasks s' !! i = Some t).
Proof.
  intros Hconf Hcaps Hreach.
  pose proof (configured_well this Hconf) as Hwf.
  pose proof (Inv_reachable this s Hconf Hreach) as HI.
  pose proof (enqueued_reachable this s Hreach) as Henq.
  destruct (can_drain this (unsettled (tasks s)) s Hwf Hcaps HI Henq (le_n _))
    as (acts & s' & Hexec & Hlen & Hz).
  pose proof (unsettled_zero _ Hz) as Hall.
  exists acts, s'. split; [exact Hexec |]. split; [exact Hlen |].
  split; [exact Hall |]. split.
  - apply Forall_lookup. intros l L HL.
    eapply (limiter_idle this s');
      [eapply Inv_exec; eassumption | eapply enqueued_exec; eassumption | exact HL |].
    intros t Hin _. apply (proj1 (Forall_forall _ _) Hall t Hin).
  - intros i t o Hi Hpc.
    destruct (ev_tasks s s' (evolves_exec this acts s s' HI Hexec) i t Hi)
      as (t' & Hi' & _ & _ & Hkeep).
    rewrite (Hkeep o Hpc) in Hi'. exact Hi'.
Qed.

(** ** [Retry-After] values that are not a plain number of seconds *)

Lemma parseInt_letter c rest :
  JS.is_letter c = true -> JS.parseInt (String c rest) = None.
Proof.
  intros H. destruct c as [[] [] [] [] [] [] [] []]; try discriminate H; reflexivity.
Qed.

Lemma digits_is_Some rest acc : is_Some acc -> is_Some (JS.digits 10 rest acc).
Proof.
  revert acc. induction rest as [|c rest IH]; intros acc Hacc; simpl; [exact Hacc |].
  destruct (JS.digit_value c) as [v|]; [| exact Hacc].
  destruct (v <? 10); [apply IH; eauto | exact Hacc].
Qed.

Lemma digits_no_leading_digit rest acc :
  JS.digits 10 rest None = None -> JS.digits 10 rest acc = acc.
Proof.
  destruct rest as [|c rest]; [reflexivity |]. simpl.
  destruct (JS.digit_value c) as [v|]; [| reflexivity].
  destruct (v <? 10); [| reflexivity].
  intros H. destruct (digits_is_Some rest (Some (0 * 10 + v))) as [x Hx]; [eauto |].
  simpl in H. rewrite H in Hx. discriminate.
Qed.

Lemma pretty_N_go_app (x : N) (s rest : string) :
  (pretty_N_go x s ++ rest)%string = pretty_N_go x (s ++ rest)%string.
Proof.
  revert s. induction (N.lt_wf_0 x) as [x _ IH]. intros s.
  destruct (decide (x = 0)%N) as [-> | Hx].
  - rewrite !pretty_N_go_0. reflexivity.
  - rewrite (pretty_N_go_step x s), (pretty_N_go_step x (s ++ rest)) by lia.
    rewrite IH by (apply N.div_lt; lia). reflexivity.
Qed.

(** [parseInt] reads the leading decimal numeral and ignores what follows. *)
Lemma parseInt_pretty_prefix (n : N) (rest : string) :
  (1 <= n)%N -> JS.digits 10 rest None = None ->
  JS.parseInt (pretty n ++ rest) = Some (Z.of_N n).
Proof.
  intros Hn Hrest. unfold pretty, pretty_N.
  rewrite decide_False by lia. rewrite pretty_N_go_app.
  change ("" ++ rest)%string with rest.
  assert (Hpos : (0 < n)%N) by lia.
  destruct (pretty_go_head n rest Hpos) as (c & tl & Heq & Hc).
  rewrite Heq, (parseInt_leading_digit c tl Hc), <- Heq.
  destruct (digits_pretty_go n Hpos) as (k & _ & Hgo).
  rewrite Hgo, digits_no_leading_digit by exact Hrest. simpl. f_equal. lia.
Qed.

(** The white-space characters, one by one. *)
Lemma is_ws_cases (c : N) :
  JS.is_ws c = true ->
  c ∈ [0x09; 0x0A; 0x0B; 0x0C; 0x0D; 0x20; 0xA0; 0x1680; 0x2000; 0x2001; 0x2002;
       0x2003; 0x2004; 0x2005; 0x2006; 0x2007; 0x2008; 0x2009; 0x200A; 0x2028;
       0x2029; 0x202F; 0x205F; 0x3000; 0xFEFF]%N.
Proof.
  unfold JS.is_ws. rewrite !orb_true_iff, !andb_true_iff, !N.leb_le, !N.eqb_eq.
  intros H. rewrite !elem_of_cons. lia.
Qed.

(** [parseInt] skips a leading white-space character, whichever it is. *)
Lemma parseInt_skips_white_space (c : N) (s : string) :
  JS.is_ws c = true -> JS.parseInt (JS.utf8 c ++ s) = JS.parseInt s.
Proof.
  intros H. apply is_ws_cases in H. unfold JS.parseInt.
  assert (E : JS.trimStart (JS.utf8 c ++ s) = JS.trimStart s); [| rewrite E; reflexivity].
  repeat (apply elem_of_cons in H as [-> | H]; [reflexivity |]). inversion H.
Qed.

(** X12.  A [Retry-After] header is used only when [parseInt] reads a
    positive number from it.  A header that [parseInt] cannot read (for
    instance an HTTP date, which starts with a letter), one that reads as 0
    or less, an empty one and a missing one all leave the exponential
    backoff in place.  Of a header that starts with the decimal numeral of
    [n >= 1] followed by other text only the numeral is used: the wait is
    [n] seconds, capped; and white space before the numeral, of any kind
    JavaScript knows (a no-break space for instance), is skipped. *)
Theorem retry_after_unusable_is_ignored
    (rnd : Q) (error : AxiosError) (retryCount : nat) (cfg : RateLimiterConfig) :
  let backoff :=
    calculateBackoffDelay rnd retryCount
      (JS.or_default (baseDelay cfg) 1000) (JS.or_default (maxDelay cfg) 30000) in
  (forall s, retry_after_header error = Some s ->
     JS.parseInt s = None \/ (exists n, JS.parseInt s = Some n /\ n <= 0) ->
     getRetryDelay rnd error retryCount cfg = backoff)
  /\ (forall c rest, retry_after_header error = Some (String c rest) ->
        JS.is_letter c = true -> getRetryDelay rnd error retryCount cfg = backoff)
  /\ (retry_after_header error = None \/ retry_after_header error = Some EmptyString ->
      getRetryDelay rnd error retryCount cfg = backoff)
  /\ (forall (n : N) rest, (1 <= n)%N -> JS.digits 10 rest None = None ->
        retry_after_header error = Some (pretty n ++ rest)%string ->
        getRetryDelay rnd error retryCount cfg
        = inject_Z (Z.min (Z.of_N n * 1000) (JS.or_default (maxDelay cfg) 30000)))
  /\ (forall (c : N) (n : N), JS.is_ws c = true -> (1 <= n)%N ->
        retry_after_header error = Some (JS.utf8 c ++ pretty n)%string ->
        getRetryDelay rnd error retryCount cfg
        = inject_Z (Z.min (Z.of_N n * 1000) (JS.or_default (maxDelay cfg) 30000))).
Proof.
  intros backoff.
  assert (Hnan : forall s, retry_after_header error = Some s -> JS.parseInt s = None ->
                   getRetryDelay rnd error retryCount cfg = backoff).
  { intros s Hh Hp. unfold getRetryDelay. rewrite Hh. simpl. rewrite Hp.
    destruct s; reflexivity. }
  split.
  { intros s Hh [Hp | (n & Hp & Hn)]; [eapply Hnan; eassumption |].
    eapply getRetryDelay_nonpositive; eassumption. }
  split.
  { intros c rest Hh Hc. eapply Hnan; [exact Hh | apply parseInt_letter, Hc]. }
  split.
  { intros [Hh | Hh]; apply getRetryDelay_no_directive; rewrite Hh; reflexivity. }
  split.
  { intros n rest Hn Hrest Hh.
    eapply getRetryDelay_directive;
      [exact Hh | apply parseInt_pretty_prefix; assumption | lia]. }
  intros c n Hc Hn Hh.
  eapply getRetryDelay_directive;
    [exact Hh | rewrite (parseInt_skips_white_space c _ Hc); apply parseInt_pretty | lia].
Qed.

(** ** Calls start in the order of submission *)

Lemma fifo_insert_started H ts i t t' :
  fifo H ts -> ts !! i = Some t -> t_pc t <> Queued ->
  t_limiter t' = t_limiter t -> t_pc t' <> Queued ->
  fifo H (<[i := t']> ts).
Proof.
  intros [Hs Hf] Hi Hpc Hl Hpc'. split; [exact Hs |].
  assert (Hlt : (i < length ts)%nat) by (eapply lookup_lt_Some, Hi).
  intros a b ta tb Ha Hb Hlim Hqa Hqb.
  destruct (decide (a = i)) as [-> | Hna].
  { rewrite list_lookup_insert_eq in Ha by exact Hlt. injection Ha as <-. contradiction. }
  rewrite list_lookup_insert_ne in Ha by congruence.
  destruct (decide (b = i)) as [-> | Hnb].
  - rewrite list_lookup_insert_eq in Hb by exact Hlt. injection Hb as <-.
    apply (Hf a i ta t Ha Hi); [congruence | exact Hqa | exact Hpc].
  - rewrite list_lookup_insert_ne in Hb by congruence.
    apply (Hf a b ta tb Ha Hb Hlim Hqa Hqb).
Qed.

Lemma fifo_same_queue H ts l L L' :
  fifo H ts -> H !! l = Some L -> queue L' = queue L -> fifo (<[l := L']> H) ts.
Proof.
  intros [Hs Hf] HL Hq. split; [| exact Hf].
  intros l1 L1 HL1. destruct (decide (l1 = l)) as [-> | Hne].
  - rewrite list_lookup_insert_eq in HL1 by (eapply lookup_lt_Some, HL).
    injection HL1 as <-. rewrite Hq. apply (Hs l L HL).
  - rewrite list_lookup_insert_ne in HL1 by congruence. apply (Hs l1 L1 HL1).
Qed.

Lemma fifo_pop H ts l L L' j q tj t' :
  fifo H ts -> enqueued H ts -> H !! l = Some L -> queue L = j :: q -> queue L' = q ->
  ts !! j = Some tj -> t_limiter tj = l -> t_limiter t' = l -> t_pc t' <> Queued ->
  fifo (<[l := L']> H) (<[j := t']> ts).
Proof.
  intros [Hs Hf] Henq HL Hq Hq' Hj Hlj Hl' Hpc'.
  assert (Hlt : (j < length ts)%nat) by (eapply lookup_lt_Some, Hj).
  pose proof (Hs l L HL) as Hsorted. rewrite Hq in Hsorted.
  apply StronglySorted_inv in Hsorted as [Hsq Hall].
  split.
  - intros l1 L1 HL1. destruct (decide (l1 = l)) as [-> | Hne].
    + rewrite list_lookup_insert_eq in HL1 by (eapply lookup_lt_Some, HL).
      injection HL1 as <-. rewrite Hq'. exact Hsq.
    + rewrite list_lookup_insert_ne in HL1 by congruence. apply (Hs l1 L1 HL1).
  - intros a b ta tb Ha Hb Hlim Hqa Hqb.
    destruct (decide (a = j)) as [-> | Hna].
    { rewrite list_lookup_insert_eq in Ha by exact Hlt. injection Ha as <-.
      contradiction. }
    rewrite list_lookup_insert_ne in Ha by congruence.
    destruct (decide (b = j)) as [-> | Hnb].
    + rewrite list_lookup_insert_eq in Hb by exact Hlt. injection Hb as <-.
      destruct (Henq a ta Ha Hqa) as (L1 & HL1 & Hin).
      rewrite Hlim, Hl', HL in HL1. injection HL1 as <-.
      rewrite Hq in Hin. apply elem_of_cons in Hin as [-> | Hin]; [congruence |].
      apply (proj1 (Forall_forall _ _) Hall a Hin).
    + rewrite list_lookup_insert_ne in Hb by congruence.
      apply (Hf a b ta tb Ha Hb Hlim Hqa Hqb).
Qed.

Lemma fifo_run l L0 L s s' :
  fifo (heap (mgr s)) (tasks s) -> enqueued (heap (mgr s)) (tasks s) ->
  heap (mgr s) !! l = Some L0 -> queue L = queue L0 ->
  (forall j, j ∈ queue L0 -> exists t, tasks s !! j = Some t /\ t_limiter t = l) ->
  run l L s = Some s' -> fifo (heap (mgr s')) (tasks s').
Proof.
  intros Hf Henq HL Hq Hqok Hrun.
  apply run_inv in Hrun as (j & q & t & Hqueue & Hj & ->).
  match goal with
  | |- context [enforceRateLimit ?j0 ?t0 ?s0] =>
      destruct (enforce_fields j0 t0 s0) as (pc' & Hpc' & _ & -> & -> & _)
  end. simpl.
  destruct (Hqok j) as (t0 & Hj0 & Hl0); [rewrite <- Hq, Hqueue; left |].
  rewrite Hj in Hj0. injection Hj0 as <-.
  eapply fifo_pop; [exact Hf | exact Henq | exact HL | rewrite <- Hq; exact Hqueue
                   | reflexivity | exact Hj | exact Hl0 | exact Hl0 | exact Hpc'].
Qed.

Lemma fifo_settle i t o s s' :
  accounted (heap (mgr s)) (tasks s) ->
  fifo (heap (mgr s)) (tasks s) -> enqueued (heap (mgr s)) (tasks s) ->
  tasks s !! i = Some t -> t_pc t = InFlight ->
  settle i t o s = Some s' -> fifo (heap (mgr s')) (tasks s').
Proof.
  intros Hacc Hf Henq Hi Hpc H. unfold settle in H.
  set (t' := set_leased false (set_pc (Settled o) t)) in *.
  assert (Hmid : fifo (heap (mgr s)) (<[i := t']> (tasks s))).
  { eapply fifo_insert_started; [exact Hf | exact Hi | congruence | reflexivity |].
    discriminate. }
  assert (Henq' : enqueued (heap (mgr s)) (<[i := t']> (tasks s)))
    by (apply enqueued_insert_started; [exact Henq | discriminate]).
  apply next_inv in H as (L & HL & [[_ ->] | Hrun]); simpl in *.
  - eapply fifo_same_queue; [exact Hmid | exact HL | reflexivity].
  - eapply (fifo_run _ L _ (with_task i t' s));
      [exact Hmid | exact Henq' | exact HL | | | exact Hrun]; [reflexivity |].
    simpl. intros j Hin. destruct (Hacc _ _ HL) as (_ & _ & _ & Hqok).
    destruct (Hqok j Hin) as (tj & Hj & Hlj & Hpcj & _).
    exists tj. split; [| exact Hlj].
    rewrite list_lookup_insert_ne; [exact Hj |]. intros ->. congruence.
Qed.

Lemma fifo_step a s s' :
  accounted (heap (mgr s)) (tasks s) ->
  fifo (heap (mgr s)) (tasks s) -> enqueued (heap (mgr s)) (tasks s) ->
  step a s = Some s' -> fifo (heap (mgr s')) (tasks s').
Proof.
  intros Hacc Hf Henq H. destruct a as [dt | config | l | i | i o rnd]; simpl in H.
  - destruct (0 <=? dt); [injection H as <-; exact Hf | discriminate].
  - apply bind_Some in H as (cfg & _ & H). apply bind_Some in H as (l & _ & H).
    apply bind_Some in H as (L & HL & H). injection H as <-. simpl.
    assert (Hlt : (l < length (heap (mgr s)))%nat) by (eapply lookup_lt_Some, HL).
    destruct Hf as [Hs Hfi]. split.
    + intros l1 L1 HL1. destruct (decide (l1 = l)) as [-> | Hne].
      * rewrite list_lookup_insert_eq in HL1 by exact Hlt. injection HL1 as <-. simpl.
        destruct (Hacc _ _ HL) as (_ & _ & _ & Hqok).
        pose proof (Hs l L HL) as Hsorted. clear -Hsorted Hqok.
        induction Hsorted as [|x q Hsq IH Hall]; simpl.
        -- repeat constructor.
        -- constructor.
           ++ apply IH. intros j Hj. apply Hqok. right. exact Hj.
           ++ apply Forall_app. split; [exact Hall |]. constructor; [| constructor].
              destruct (Hqok x) as (t & Ht & _); [left |].
              eapply lookup_lt_Some, Ht.
      * rewrite list_lookup_insert_ne in HL1 by congruence. apply (Hs l1 L1 HL1).
    + intros a b ta tb Ha Hb Hlim Hqa Hqb.
      assert (Hb' : tasks s !! b = Some tb).
      { destruct (decide (b < length (tasks s))%nat) as [Hin | Hout].
        - rewrite lookup_app_l in Hb by exact Hin. exact Hb.
        - assert (Hlen := lookup_lt_Some _ _ _ Hb). rewrite length_app in Hlen.
          simpl in Hlen. assert (b = length (tasks s)) as -> by lia.
          rewrite lookup_app_r, Nat.sub_diag in Hb by lia. injection Hb as <-.
          simpl in Hqb. contradiction. }
      destruct (decide (a < length (tasks s))%nat) as [Hin | Hout].
      * rewrite lookup_app_l in Ha by exact Hin.
        apply (Hfi a b ta tb Ha Hb' Hlim Hqa Hqb).
      * apply lookup_lt_Some in Hb'. lia.
  - apply bind_Some in H as (L & HL & H).
    destruct (activeCount L <? limit_concurrency L); [| discriminate].
    eapply fifo_run; [exact Hf | exact Henq | exact HL | reflexivity | | exact H].
    intros j Hin. destruct (Hacc _ _ HL) as (_ & _ & _ & Hqok).
    destruct (Hqok j Hin) as (tj & Hj & Hlj & _). eauto.
  - apply bind_Some in H as (t & Ht & H).
    destruct (t_pc t) as [| lr wake | | wake | o] eqn:Hpc; try discriminate.
    + destruct (wake <=? now s); [injection H as <- | discriminate]. simpl.
      eapply fifo_insert_started; [exact Hf | exact Ht | congruence | reflexivity |].
      discriminate.
    + destruct (wake <=? now s); [| discriminate].
      injection H as <-.
      destruct (enforce_fields i (set_retryCount (S (t_retryCount t)) t) s)
        as (pc' & Hpc' & _ & -> & -> & _).
      eapply fifo_insert_started; [exact Hf | exact Ht | congruence | reflexivity |].
      exact Hpc'.
  - apply bind_Some in H as (t & Ht & H).
    destruct (t_pc t) eqn:Hpc; try discriminate.
    destruct o as [r | error].
    + eapply fifo_settle; eassumption.
    + destruct (shouldRetry _ _ _).
      * injection H as <-. simpl.
        eapply fifo_insert_started; [exact Hf | exact Ht | congruence | reflexivity |].
        discriminate.
      * eapply fifo_settle; eassumption.
Qed.

Lemma fifo_exec this acts s s' :
  Inv this s -> fifo (heap (mgr s)) (tasks s) -> enqueued (heap (mgr s)) (tasks s) ->
  exec acts s = Some s' -> fifo (heap (mgr s')) (tasks s').
Proof.
  revert s. induction acts as [|a acts IH]; intros s HI Hf Henq H; simpl in H.
  - injection H as <-. exact Hf.
  - apply bind_Some in H as (s1 & H1 & H). eapply IH; [| | | exact H].
    + eapply Inv_step; eassumption.
    + eapply fifo_step; [apply HI | exact Hf | exact Henq | exact H1].
    + eapply enqueued_step; eassumption.
Qed.

Lemma fifo_reachable this s :
  configured this -> reachable_from this s -> fifo (heap (mgr s)) (tasks s).
Proof.
  intros Hconf (t0 & acts & H).
  pose proof (configured_well this Hconf) as Hwf.
  eapply fifo_exec; [apply Inv_boot, Hwf | | | exact H].
  - split; simpl.
    + intros l L HL.
      destruct (proj1 (Forall_lookup _ _) (wc_idle _ Hwf) l L HL) as [_ ->].
      constructor.
    + intros i j ti tj Hi. destruct i; discriminate.
  - intros j t Hj. destruct j; discriminate.
Qed.

(** X13.  Calls behind one limiter start in the order in which [request]
    was called: in every reachable state, of two calls that resolve to the
    same limiter (two calls to the same domain, or to two domains without a
    policy of their own), the later one has not started while the earlier
    one is still waiting; and each limiter's queue holds its waiting calls
    in the order of submission. *)
Theorem calls_start_in_submission_order
    (this : SafeRequestManager) (s : System) :
  configured this -> reachable_from this s ->
  (forall i j ti tj,
     tasks s !! i = Some ti -> tasks s !! j = Some tj -> (i < j)%nat ->
     getLimiter this (t_domain ti) = getLimiter this (t_domain tj) ->
     t_pc ti = Queued -> t_pc tj = Queued)
  /\ (forall i j ti tj,
        tasks s !! i = Some ti -> tasks s !! j = Some tj -> (i < j)%nat ->
        t_domain ti = t_domain tj -> t_pc ti = Queued -> t_pc tj = Queued)
  /\ (forall l L, heap (mgr s) !! l = Some L ->
        StronglySorted lt (queue L) /\
        forall j, j ∈ queue L <->
          exists t, tasks s !! j = Some t /\ t_limiter t = l /\ t_pc t = Queued).
Proof.
  intros Hconf Hreach.
  pose proof (Inv_reachable this s Hconf Hreach) as HI.
  pose proof (enqueued_reachable this s Hreach) as Henq.
  destruct (fifo_reachable this s Hconf Hreach) as [Hsorted Hf].
  assert (Hord : forall i j ti tj,
            tasks s !! i = Some ti -> tasks s !! j = Some tj -> (i < j)%nat ->
            getLimiter this (t_domain ti) = getLimiter this (t_domain tj) ->
            t_pc ti = Queued -> t_pc tj = Queued).
  { intros i j ti tj Hi Hj Hlt Hl Hq.
    destruct (proj1 (Forall_lookup _ _) (inv_tasks this s HI) i ti Hi) as [[_ Hli] _].
    destruct (proj1 (Forall_lookup _ _) (inv_tasks this s HI) j tj Hj) as [[_ Hlj] _].
    destruct (t_pc tj) eqn:Hpcj; [reflexivity | exfalso..];
      (assert (j < i)%nat; [| lia]);
      apply (Hf i j ti tj Hi Hj); try congruence. }
  split; [exact Hord |]. split.
  { intros i j ti tj Hi Hj Hlt Hd. apply (Hord i j ti tj Hi Hj Hlt). rewrite Hd. done. }
  intros l L HL. split; [apply (Hsorted l L HL) |].
  destruct (inv_acct this s HI l L HL) as (_ & _ & _ & Hqok).
  intros j. split.
  - intros Hin. destruct (Hqok j Hin) as (t & Hj & Hl & Hpc & _). eauto.
  - intros (t & Hj & Hl & Hpc). destruct (Henq j t Hj Hpc) as (L1 & HL1 & Hin).
    rewrite Hl, HL in HL1. injection HL1 as <-. exact Hin.
Qed.

(** ** Limiters do not interfere *)

Lemma untouched_refl this l s : untouched this l s s.
Proof. split; done. Qed.

Lemma untouched_trans this l s1 s2 s3 :
  untouched this l s1 s2 -> untouched this l s2 s3 -> untouched this l s1 s3.
Proof.
  intros [Hl1 Ht1 Hw1] [Hl2 Ht2 Hw2]. split.
  - rewrite Hl2. exact Hl1.
  - intros j t Hlim. rewrite (Ht1 j t Hlim). apply (Ht2 j t Hlim).
  - intros d Hd. rewrite (Hw2 d Hd). apply (Hw1 d Hd).
Qed.

Lemma insert_other_limiter l (ts : list Task) i t0 t' j t :
  ts !! i = Some t0 -> t_limiter t0 <> l -> t_limiter t' <> l -> t_limiter t = l ->
  ts !! j = Some t <-> <[i := t']> ts !! j = Some t.
Proof.
  intros Hi H0 H' Hlim. destruct (decide (i = j)) as [<- | Hne].
  - rewrite list_lookup_insert_eq by (eapply lookup_lt_Some, Hi). rewrite Hi.
    split; intros [= <-]; contradiction.
  - rewrite list_lookup_insert_ne by exact Hne. reflexivity.
Qed.

Lemma untouched_with_task this l i t0 t' s :
  tasks s !! i = Some t0 -> t_limiter t0 <> l -> t_limiter t' <> l ->
  untouched this l s (with_task i t' s).
Proof.
  intros Hi H0 H'. split; simpl; [reflexivity | | reflexivity].
  intros j t Hlim. eapply insert_other_limiter; eassumption.
Qed.

Lemma untouched_with_limit this l l0 L s :
  l0 <> l -> untouched this l s (with_limit l0 L s).
Proof.
  intros Hne. split; simpl; [| reflexivity | reflexivity].
  apply list_lookup_insert_ne. exact Hne.
Qed.

Lemma untouched_dispatch this l i t0 t lastRequest s :
  tasks s !! i = Some t0 -> t_limiter t0 <> l -> t_limiter t <> l ->
  getLimiter this (t_domain t) = Some (t_limiter t) ->
  untouched this l s (dispatch i t lastRequest s).
Proof.
  intros Hi H0 H' Hloc. split; simpl; [reflexivity | |].
  - intros j tj Hlim. eapply insert_other_limiter; eassumption.
  - intros d Hd. apply lookup_insert_ne. intros <-. congruence.
Qed.

Lemma untouched_enforce this l i t0 t s :
  tasks s !! i = Some t0 -> t_limiter t0 <> l -> t_limiter t <> l ->
  getLimiter this (t_domain t) = Some (t_limiter t) ->
  untouched this l s (enforceRateLimit i t s).
Proof.
  intros Hi H0 H' Hloc. destruct (enforce_cases i t s) as [[_ ->] | [_ ->]].
  - eapply untouched_with_task; eassumption.
  - eapply untouched_dispatch; eassumption.
Qed.

Lemma untouched_run this l l0 L s s' :
  Forall (task_ok this) (tasks s) -> l0 <> l ->
  (forall j q t, queue L = j :: q -> tasks s !! j = Some t -> t_limiter t = l0) ->
  run l0 L s = Some s' -> untouched this l s s'.
Proof.
  intros Hall Hne Hq Hrun. apply run_inv in Hrun as (j & q & t & Hqueue & Hj & ->).
  pose proof (Hq j q t Hqueue Hj) as Hlj.
  destruct (proj1 (Forall_lookup _ _) Hall j t Hj) as [[_ Hloc] _].
  eapply untouched_trans; [apply (untouched_with_limit this l l0), Hne |].
  eapply untouched_enforce; [exact Hj | congruence | simpl; congruence | exact Hloc].
Qed.

Lemma untouched_settle this l i t o s s' :
  Forall (task_ok this) (tasks s) -> accounted (heap (mgr s)) (tasks s) ->
  tasks s !! i = Some t -> t_pc t = InFlight -> t_limiter t <> l ->
  settle i t o s = Some s' -> untouched this l s s'.
Proof.
  intros Hall Hacc Hi Hpc Hne H. unfold settle in H.
  set (t' := set_leased false (set_pc (Settled o) t)) in *.
  assert (Hmid : untouched this l s (with_task i t' s))
    by (eapply untouched_with_task; [exact Hi | exact Hne | exact Hne]).
  eapply untouched_trans; [exact Hmid |].
  apply next_inv in H as (L & HL & [[_ ->] | Hrun]).
  - apply untouched_with_limit. exact Hne.
  - destruct (proj1 (Forall_lookup _ _) Hall i t Hi) as [Hloc _].
    eapply untouched_run; [| exact Hne | | exact Hrun].
    + simpl. apply Forall_insert; [exact Hall |]. split; [exact Hloc | reflexivity].
    + simpl in *. intros j q tj Hqueue Hj.
      destruct (Hacc _ _ HL) as (_ & _ & _ & Hqok).
      destruct (Hqok j) as (tj' & Htj' & Hlj & Hpcj & _); [rewrite Hqueue; left |].
      assert (i <> j) by (intros ->; congruence).
      rewrite list_lookup_insert_ne in Hj by assumption. congruence.
Qed.

Lemma untouched_step this l a s s' :
  Inv this s -> step a s = Some s' -> concerns a s <> Some l ->
  untouched this l s s'.
Proof.
  intros [Hst Hall Hacc _ _ _] H Hc.
  destruct a as [dt | config | l0 | i | i o rnd]; simpl in H, Hc.
  - destruct (0 <=? dt); [injection H as <- | discriminate]. split; done.
  - apply bind_Some in H as (cfg & _ & H). apply bind_Some in H as (l0 & Hl0 & H).
    apply bind_Some in H as (L & HL & H). injection H as <-.
    rewrite Hl0 in Hc. assert (Hne : l0 <> l) by congruence.
    split; simpl; [apply list_lookup_insert_ne; exact Hne | | reflexivity].
    intros j t Hlim. destruct (decide (j < length (tasks s))%nat) as [Hin | Hout].
    + rewrite lookup_app_l by exact Hin. reflexivity.
    + rewrite (proj2 (lookup_ge_None _ _)) by lia. split; [discriminate |].
      intros Hj. assert (Hlen := lookup_lt_Some _ _ _ Hj). rewrite length_app in Hlen.
      simpl in Hlen. assert (j = length (tasks s)) as -> by lia.
      rewrite lookup_app_r, Nat.sub_diag in Hj by lia. injection Hj as <-.
      simpl in Hlim. contradiction.
  - assert (Hne : l0 <> l) by congruence.
    apply bind_Some in H as (L & HL & H).
    destruct (activeCount L <? limit_concurrency L); [| discriminate].
    eapply untouched_run; [exact Hall | exact Hne | | exact H].
    intros j q t Hqueue Hj. destruct (Hacc _ _ HL) as (_ & _ & _ & Hq).
    destruct (Hq j) as (tj & Htj & Hlj & _); [rewrite Hqueue; left |]. congruence.
  - apply bind_Some in H as (t & Ht & H). rewrite Ht in Hc. simpl in Hc.
    assert (Hne : t_limiter t <> l) by congruence.
    destruct (proj1 (Forall_lookup _ _) Hall i t Ht) as [[_ Hloc] _].
    destruct (t_pc t) as [| lr wake | | wake | o] eqn:Hpc; try discriminate.
    + destruct (wake <=? now s); [injection H as <- | discriminate].
      eapply untouched_dispatch; eassumption.
    + destruct (wake <=? now s); [| discriminate].
      injection H as <-. eapply untouched_enforce; eassumption.
  - apply bind_Some in H as (t & Ht & H). rewrite Ht in Hc. simpl in Hc.
    assert (Hne : t_limiter t <> l) by congruence.
    destruct (t_pc t) eqn:Hpc; try discriminate.
    destruct o as [r | error].
    + eapply untouched_settle; eassumption.
    + destruct (shouldRetry _ _ _).
      * injection H as <-. eapply untouched_with_task; eassumption.
      * eapply untouched_settle; eassumption.
Qed.

(** X21.  Limiters do not interfere.  A turn of the event loop concerns one
    limiter at most: the one a new request is submitted to, the one
    [p-limit] starts a call of, or the one of the call that resumes.  In
    every reachable state such a turn leaves everything of every other
    limiter as it was: the limiter object with its [activeCount] and queue,
    each call submitted to it, the watermark of each domain that resolves
    to it, and the entry [getStats] gives for it.  So what happens to the
    requests of one configured domain never takes a slot from, delays or
    reorders those of another. *)
Theorem limiters_do_not_interfere
    (this : SafeRequestManager) (s s' : System) (a : Action) (l : nat) :
  configured this -> reachable_from this s -> step a s = Some s' ->
  concerns a s <> Some l ->
  heap (mgr s') !! l = heap (mgr s) !! l
  /\ (forall j t, t_limiter t = l -> tasks s !! j = Some t <-> tasks s' !! j = Some t)
  /\ (forall d, getLimiter this d = Some l ->
        lastRequestTime (mgr s') !! d = lastRequestTime (mgr s) !! d)
  /\ (forall d st, limiters this !! d = Some l ->
        getStats (mgr s) !! d = Some st -> getStats (mgr s') !! d = Some st).
Proof.
  intros Hconf Hreach Hstep Hc.
  pose proof (Inv_reachable this s Hconf Hreach) as HI.
  pose proof (Inv_step this a s s' HI Hstep) as HI'.
  destruct (untouched_step this l a s s' HI Hstep Hc) as [Hl Ht Hw].
  split; [exact Hl |]. split; [exact Ht |]. split; [exact Hw |].
  intros d st Hd Hst. rewrite getStats_lookup in Hst |- *.
  destruct (inv_static this s HI) as (El & Ec & _).
  destruct (inv_static this s' HI') as (El' & Ec' & _).
  rewrite <- El, <- Ec, Hd in Hst. rewrite <- El', <- Ec', Hd. simpl in *.
  rewrite Hl. exact Hst.
Qed.

End Governor.

(** * The population script *)

(** ** Reading an id from a sitemap entry *)

Lemma append_cons a s t : (String a s ++ t)%string = String a (s ++ t)%string.
Proof. reflexivity. Qed.

Lemma append_nil_l t : (EmptyString ++ t)%string = t.
Proof. reflexivity. Qed.

Lemma append_nil_r s : (s ++ EmptyString)%string = s.
Proof. induction s as [|a s IH]; [reflexivity |]. rewrite append_cons, IH. reflexivity. Qed.

Lemma strip_prefix_Some p s rest :
  Populate.strip_prefix p s = Some rest -> s = (p ++ rest)%string.
Proof.
  revert s. induction p as [|a p IH]; intros s H; simpl in H.
  - injection H as ->. reflexivity.
  - destruct s as [|b s]; [discriminate |].
    destruct (Ascii.eqb_spec a b) as [-> |]; [| discriminate].
    rewrite append_cons. f_equal. apply IH, H.
Qed.

Lemma strip_prefix_app p rest : Populate.strip_prefix p (p ++ rest) = Some rest.
Proof.
  induction p as [|a p IH]; [reflexivity |].
  rewrite append_cons. simpl. rewrite Ascii.eqb_refl. exact IH.
Qed.

Lemma digit_run_split s :
  exists post, s = (Populate.digit_run s ++ post)%string /\
    Populate.digit_run post = EmptyString.
Proof.
  induction s as [|a s (post & Hs & Hp)]; simpl.
  - exists EmptyString. done.
  - destruct (Populate.is_digit a) eqn:E.
    + exists post. rewrite append_cons. split; [f_equal; exact Hs | exact Hp].
    + exists (String a s). simpl. rewrite E. done.
Qed.

Lemma digit_run_idem s : Populate.digit_run (Populate.digit_run s) = Populate.digit_run s.
Proof.
  induction s as [|a s IH]; simpl; [reflexivity |].
  destruct (Populate.is_digit a) eqn:E; simpl; [rewrite E, IH |]; reflexivity.
Qed.

Lemma digit_run_app d post :
  Populate.digit_run d = d ->
  Populate.digit_run (d ++ post) = (d ++ Populate.digit_run post)%string.
Proof.
  induction d as [|a d IH]; [reflexivity |]. rewrite !append_cons. simpl.
  destruct (Populate.is_digit a); [| discriminate].
  intros [= H]. rewrite IH by exact H. reflexivity.
Qed.

Lemma anime_here_Some s d :
  Populate.anime_here s = Some d ->
  d <> EmptyString /\ Populate.digit_run d = d /\
  exists post, s = ("/anime/" ++ d ++ post)%string /\
    Populate.digit_run post = EmptyString.
Proof.
  unfold Populate.anime_here. intros H. apply bind_Some in H as (rest & Hp & H).
  apply strip_prefix_Some in Hp.
  destruct (digit_run_split rest) as (post & Hrest & Hpost).
  destruct (Populate.digit_run rest) as [|a r] eqn:E; [discriminate |].
  injection H as <-. split; [discriminate |]. split; [rewrite <- E; apply digit_run_idem |].
  exists post. split; [| exact Hpost]. rewrite Hp. f_equal. exact Hrest.
Qed.

Lemma anime_here_app d post :
  d <> EmptyString -> Populate.digit_run d = d ->
  Populate.digit_run post = EmptyString ->
  Populate.anime_here ("/anime/" ++ d ++ post) = Some d.
Proof.
  intros Hne Hd Hpost. unfold Populate.anime_here.
  rewrite (strip_prefix_app "/anime/" (d ++ post)). simpl.
  rewrite (digit_run_app d post Hd), Hpost, append_nil_r.
  destruct d; [contradiction | reflexivity].
Qed.

Lemma match_anime_unfold loc :
  Populate.match_anime loc
  = match Populate.anime_here loc with
    | Some d => Some d
    | None =>
        match loc with
        | String _ loc' => Populate.match_anime loc'
        | EmptyString => None
        end
    end.
Proof. destruct loc; reflexivity. Qed.

(** The match is a run of digits that follows ["/anime/"] in [loc], and
    the leftmost one. *)
Lemma match_anime_Some loc d :
  Populate.match_anime loc = Some d ->
  d <> EmptyString /\ Populate.digit_run d = d /\
  exists pre post, loc = (pre ++ "/anime/" ++ d ++ post)%string /\
    Populate.digit_run post = EmptyString /\
    forall pre1 a pre2, pre = (pre1 ++ String a pre2)%string ->
      Populate.anime_here (String a pre2 ++ "/anime/" ++ d ++ post) = None.
Proof.
  induction loc as [|a loc IH]; rewrite match_anime_unfold.
  - destruct (Populate.anime_here "") eqn:E; [| discriminate]. intros [= ->].
    discriminate E.
  - destruct (Populate.anime_here (String a loc)) as [d'|] eqn:E.
    + intros [= ->]. destruct (anime_here_Some _ _ E) as (Hne & Hd & post & Hs & Hp).
      split; [exact Hne |]. split; [exact Hd |].
      exists EmptyString, post. split; [exact Hs |]. split; [exact Hp |].
      intros pre1 b pre2 H. destruct pre1; discriminate.
    + intros H. destruct (IH H) as (Hne & Hd & pre & post & Hs & Hp & Hleft).
      split; [exact Hne |]. split; [exact Hd |].
      exists (String a pre), post. split; [rewrite append_cons; f_equal; exact Hs |].
      split; [exact Hp |].
      intros pre1 b pre2 Hpre. destruct pre1 as [|c pre1].
      * rewrite append_nil_l in Hpre. injection Hpre as <- <-.
        rewrite append_cons, <- Hs. exact E.
      * rewrite append_cons in Hpre. injection Hpre as _ Hpre. eapply Hleft, Hpre.
Qed.

Lemma is_digit_value c :
  Populate.is_digit c = true -> exists v, JS.digit_value c = Some v /\ 0 <= v < 10.
Proof.
  intros H. destruct c as [[] [] [] [] [] [] [] []]; try discriminate H;
    eexists; (split; [reflexivity | cbv; split; [discriminate | reflexivity]]).
Qed.

Lemma digits_of_digit_run d acc :
  Populate.digit_run d = d -> 0 <= acc ->
  exists v, JS.digits 10 d (Some acc) = Some v /\ 0 <= v.
Proof.
  revert acc. induction d as [|c d IH]; intros acc Hd Hacc; simpl.
  - eauto.
  - simpl in Hd. destruct (Populate.is_digit c) eqn:E; [| discriminate].
    injection Hd as Hd. destruct (is_digit_value c E) as (v & -> & Hv).
    destruct (Z.ltb_spec v 10); [| lia]. apply IH; [exact Hd |]. simpl. lia.
Qed.

Lemma parseInt_digit_first c rest :
  Populate.is_digit c = true -> Populate.digit_run rest = rest ->
  JS.parseInt (String c rest) = (fun n => 1 * n) <$> JS.digits 10 (String c rest) None.
Proof.
  intros Hc Hrest.
  destruct c as [[] [] [] [] [] [] [] []]; try discriminate Hc; try reflexivity.
  destruct rest as [|c2 rest]; [reflexivity |].
  simpl in Hrest. destruct (Populate.is_digit c2) eqn:E; [| discriminate].
  destruct c2 as [[] [] [] [] [] [] [] []]; try discriminate E; reflexivity.
Qed.

(** [parseInt] of a non-empty run of digits is a number, not [NaN], and it
    is not negative. *)
Lemma parseInt_digit_run d :
  d <> EmptyString -> Populate.digit_run d = d ->
  exists n, JS.parseInt d = Some n /\ 0 <= n.
Proof.
  intros Hne Hd. destruct d as [|c rest]; [contradiction |].
  simpl in Hd. destruct (Populate.is_digit c) eqn:E; [| discriminate].
  injection Hd as Hrest. rewrite (parseInt_digit_first c rest E Hrest).
  simpl. destruct (is_digit_value c E) as (v & -> & Hv).
  destruct (Z.ltb_spec v 10); [| lia].
  destruct (digits_of_digit_run rest (0 * 10 + v) Hrest) as (n & -> & Hn); [lia |].
  exists (1 * n). split; [reflexivity | lia].
Qed.

Lemma is_digit_pretty (k : N) : (k < 10)%N -> Populate.is_digit (pretty_N_char k) = true.
Proof.
  intros H. destruct k as [|p]; [reflexivity |].
  do 4 (destruct p as [p|p|]; try reflexivity; try lia).
Qed.

Lemma digit_run_pretty_go (x : N) (s : string) :
  Populate.digit_run (pretty_N_go x s) = pretty_N_go x (Populate.digit_run s).
Proof.
  revert s. induction (N.lt_wf_0 x) as [x _ IH]. intros s.
  destruct (decide (x = 0)%N) as [-> | Hx].
  - rewrite !pretty_N_go_0. reflexivity.
  - rewrite (pretty_N_go_step x s), (pretty_N_go_step x (Populate.digit_run s)) by lia.
    rewrite IH by (apply N.div_lt; lia). simpl.
    rewrite is_digit_pretty by (apply N.mod_lt; lia). reflexivity.
Qed.

Lemma digit_run_pretty (n : N) : Populate.digit_run (pretty n) = pretty n.
Proof.
  unfold pretty, pretty_N. destruct (decide (n = 0)%N) as [-> | Hn]; [reflexivity |].
  apply digit_run_pretty_go.
Qed.

Lemma pretty_nonempty (n : N) : pretty n <> EmptyString.
Proof.
  unfold pretty, pretty_N. destruct (decide (n = 0)%N) as [-> | Hn]; [discriminate |].
  destruct (pretty_go_head n "" ltac:(lia)) as (c & rest & -> & _). discriminate.
Qed.

Lemma match_anime_skip a s :
  Populate.anime_here (String a s) = None ->
  Populate.match_anime (String a s) = Populate.match_anime s.
Proof. intros H. rewrite match_anime_unfold, H. reflexivity. Qed.

(** X14.  The id read from a sitemap entry.  When
    [loc.match(/\/anime\/(\d+)/)] matches, the captured text is a non-empty
    run of digits that follows ["/anime/"] in [loc], at the leftmost place
    where such a run occurs and extended as far as digits go, and [parseInt]
    turns it into a number that is not [NaN] and not negative.  For the
    AniList URL of the anime [n], with or without a title after the id, the
    number read is [n]. *)
Theorem sitemap_id_is_read_from_the_url (loc d : string) :
  Populate.match_anime loc = Some d ->
  (d <> EmptyString /\ Populate.digit_run d = d)
  /\ (exists pre post, loc = (pre ++ "/anime/" ++ d ++ post)%string /\
        Populate.digit_run post = EmptyString /\
        forall pre1 a pre2, pre = (pre1 ++ String a pre2)%string ->
          Populate.anime_here (String a pre2 ++ "/anime/" ++ d ++ post) = None)
  /\ (exists n, JS.parseInt d = Some n /\ 0 <= n)
  /\ (forall (n : N) (rest : string), Populate.digit_run rest = EmptyString ->
        Populate.match_anime ("https://anilist.co/anime/" ++ pretty n ++ rest)
        = Some (pretty n) /\
        JS.parseInt (pretty n) = Some (Z.of_N n)).
Proof.
  intros H. destruct (match_anime_Some loc d H) as (Hne & Hd & Hwhere).
  split; [done |]. split; [exact Hwhere |].
  split; [apply parseInt_digit_run; assumption |].
  intros n rest Hrest. split; [| apply parseInt_pretty].
  change ("https://anilist.co/anime/" ++ pretty n ++ rest)%string
    with ("https://anilist.co" ++ ("/anime/" ++ pretty n ++ rest))%string.
  remember ("/anime/" ++ pretty n ++ rest)%string as tail eqn:Htail.
  rewrite !append_cons, append_nil_l.
  repeat (rewrite match_anime_skip by reflexivity). subst tail.
  rewrite match_anime_unfold, anime_here_app;
    [reflexivity | apply pretty_nonempty | apply digit_run_pretty | exact Hrest].
Qed.

(** ** [fetchAnilistIds] *)

Lemma push_id_elem u allIds x :
  x ∈ Populate.push_id u allIds <->
  x ∈ allIds \/ exists loc d, u = Some loc /\ Populate.match_anime loc = Some d /\
                              x = JS.parseInt d.
Proof.
  destruct u as [[|a loc]|].
  - change (Populate.push_id (Some EmptyString) allIds) with allIds.
    split; [auto |]. intros [H | (loc & d & [= <-] & Hm & _)]; [exact H | discriminate].
  - change (Populate.push_id (Some (String a loc)) allIds)
      with (match Populate.match_anime (String a loc) with
            | Some d => allIds ++ [JS.parseInt d]
            | None => allIds
            end).
    destruct (Populate.match_anime (String a loc)) as [d|] eqn:E.
    + rewrite elem_of_app, list_elem_of_singleton. split.
      * intros [H | ->]; [auto | right; eauto].
      * intros [H | (loc' & d' & [= <-] & Hm & ->)]; [auto | right; congruence].
    + split; [auto |]. intros [H | (loc' & d' & [= <-] & Hm & _)]; [exact H | congruence].
  - change (Populate.push_id None allIds) with allIds.
    split; [auto |]. intros [H | (loc & d & Hu & _)]; [exact H | discriminate].
Qed.

Lemma push_ids_elem urls allIds x :
  x ∈ Populate.push_ids urls allIds <->
  x ∈ allIds \/ exists loc d, Some loc ∈ Populate.entries_read urls /\
                              Populate.match_anime loc = Some d /\ x = JS.parseInt d.
Proof.
  revert allIds. induction urls as [|[u|] urls IH]; intros allIds; simpl.
  - split; [auto |]. intros [H | (loc & d & H & _)]; [exact H | inversion H].
  - rewrite IH, push_id_elem. clear IH. split.
    + intros [[H | (loc & d & -> & Hm & Hx)] | (loc & d & Hin & Hm & Hx)].
      * left. exact H.
      * right. exists loc, d. split; [left | done].
      * right. exists loc, d. split; [right; exact Hin | done].
    + intros [H | (loc & d & Hin & Hm & Hx)]; [auto |].
      apply elem_of_cons in Hin as [<- | Hin]; [left; right; eauto | right; eauto].
  - split; [auto |]. intros [H | (loc & d & H & _)]; [exact H | inversion H].
Qed.

Lemma collect_elem_from sitemaps allIds x :
  x ∈ foldl (fun allIds sitemap =>
               match sitemap with
               | Some urls => Populate.push_ids (default [] urls) allIds
               | None => allIds
               end) allIds sitemaps <->
  x ∈ allIds \/ exists urls loc d, Some urls ∈ sitemaps /\
                  Some loc ∈ Populate.entries_read (default [] urls) /\
                  Populate.match_anime loc = Some d /\ x = JS.parseInt d.
Proof.
  revert allIds. induction sitemaps as [|sm sms IH]; intros allIds; simpl.
  - split; [auto |]. intros [H | (urls & loc & d & H & _)]; [exact H | inversion H].
  - rewrite IH. clear IH. split.
    + intros [H | (urls & loc & d & Hin & Hrest)].
      * destruct sm as [urls|]; [| left; exact H].
        apply push_ids_elem in H as [H | (loc & d & Hin & Hrest)]; [left; exact H |].
        right. exists urls, loc, d. split; [left | exact (conj Hin Hrest)].
      * right. exists urls, loc, d. split; [right; exact Hin | exact Hrest].
    + intros [H | (urls & loc & d & Hin & Hloc & Hrest)].
      * left. destruct sm as [urls|]; [| exact H]. apply push_ids_elem. left. exact H.
      * apply elem_of_cons in Hin as [Heq | Hin].
        -- left. rewrite <- Heq. apply push_ids_elem. right. eauto.
        -- right. eauto 10.
Qed.

Lemma collect_elem sitemaps x :
  x ∈ Populate.collect sitemaps <->
  exists urls loc d, Some urls ∈ sitemaps /\
    Some loc ∈ Populate.entries_read (default [] urls) /\
    Populate.match_anime loc = Some d /\ x = JS.parseInt d.
Proof.
  unfold Populate.collect. rewrite collect_elem_from. split; [| auto].
  intros [H | H]; [inversion H | exact H].
Qed.

(** The inner loop reads the entries before the first faulty one, and only
    those. *)
Lemma push_ids_faulty urls1 urls2 allIds :
  Populate.push_ids (urls1 ++ Populate.Faulty :: urls2) allIds
  = Populate.push_ids urls1 allIds.
Proof.
  revert allIds. induction urls1 as [|[u|] urls1 IH]; intros allIds; simpl;
    [reflexivity | apply IH | reflexivity].
Qed.

Lemma Set_values_spec l seen :
  NoDup seen ->
  NoDup (Populate.Set_values l seen) /\
  forall x, x ∈ Populate.Set_values l seen <-> x ∈ seen \/ x ∈ l.
Proof.
  revert seen. induction l as [|y l IH]; intros seen Hnd; simpl.
  - split; [exact Hnd |]. intros x. split; [auto |]. intros [H | H]; [exact H | inversion H].
  - destruct (decide (y ∈ seen)) as [Hin | Hnot].
    + destruct (IH seen Hnd) as [Hnd' Hel]. split; [exact Hnd' |].
      intros x. rewrite Hel, elem_of_cons. split; [tauto |].
      intros [H | [-> | H]]; auto.
    + destruct (IH (seen ++ [y])) as [Hnd' Hel].
      { apply NoDup_app. split; [exact Hnd |]. split; [| apply NoDup_singleton].
        intros z Hz Hz'. apply list_elem_of_singleton in Hz'. subst. contradiction. }
      split; [exact Hnd' |]. intros x.
      rewrite Hel, elem_of_app, list_elem_of_singleton, elem_of_cons. tauto.
Qed.

Lemma strictly_sorted_unique (l1 l2 : list Z) :
  StronglySorted Z.lt l1 -> StronglySorted Z.lt l2 ->
  (forall x, x ∈ l1 <-> x ∈ l2) -> l1 = l2.
Proof.
  intros H1. revert l2. induction H1 as [|x l1 H1 IH Hx]; intros l2 H2 Hel.
  - destruct l2 as [|y l2]; [reflexivity |].
    pose proof (proj2 (Hel y) ltac:(left)) as H. inversion H.
  - destruct l2 as [|y l2].
    { pose proof (proj1 (Hel x) ltac:(left)) as H. inversion H. }
    apply StronglySorted_inv in H2 as [H2 Hy].
    assert (x = y) as <-.
    { pose proof (proj1 (Hel x) ltac:(left)) as Hxy.
      pose proof (proj2 (Hel y) ltac:(left)) as Hyx.
      apply elem_of_cons in Hxy as [Hxy | Hxy]; [exact Hxy |].
      apply elem_of_cons in Hyx as [Hyx | Hyx]; [congruence |].
      pose proof (proj1 (Forall_forall _ _) Hx y Hyx).
      pose proof (proj1 (Forall_forall _ _) Hy x Hxy). lia. }
    f_equal. apply IH; [exact H2 |]. intros z. split; intros Hz.
    + pose proof (proj1 (Forall_forall _ _) Hx z Hz) as Hlt.
      pose proof (proj1 (Hel z) ltac:(right; exact Hz)) as Hin.
      apply elem_of_cons in Hin as [-> | Hin]; [lia | exact Hin].
    + pose proof (proj1 (Forall_forall _ _) Hy z Hz) as Hlt.
      pose proof (proj2 (Hel z) ltac:(right; exact Hz)) as Hin.
      apply elem_of_cons in Hin as [-> | Hin]; [lia | exact Hin].
Qed.

Lemma sorted_nodup_strict (l : list Z) :
  StronglySorted Z.le l -> NoDup l -> StronglySorted Z.lt l.
Proof.
  induction 1 as [|x l Hs IH Hx]; intros Hnd; [constructor |].
  apply NoDup_cons in Hnd as [Hnot Hnd]. constructor; [apply IH, Hnd |].
  apply Forall_forall. intros y Hy.
  pose proof (proj1 (Forall_forall _ _) Hx y Hy).
  assert (x <> y) by (intros ->; contradiction). lia.
Qed.

(** The ids a fresh run computes: defined, strictly increasing, and exactly
    the numbers the collected values are. *)
Lemma uniqueIds_spec (allIds : list Populate.number) :
  Forall (fun x => is_Some x) allIds ->
  exists ids, Populate.uniqueIds allIds = Some ids /\ StronglySorted Z.lt ids /\
    forall x, x ∈ ids <-> Some x ∈ allIds.
Proof.
  intros Hall. unfold Populate.uniqueIds, Populate.sort_numbers.
  destruct (Set_values_spec allIds [] (NoDup_nil_2)) as [Hnd Hel].
  assert (Hsome : Forall (fun x => is_Some x) (Populate.Set_values allIds [])).
  { apply Forall_forall. intros x Hx. apply Hel in Hx as [Hx | Hx]; [inversion Hx |].
    apply (proj1 (Forall_forall _ _) Hall x Hx). }
  destruct (mapM_is_Some_2 id (Populate.Set_values allIds []) Hsome) as [k Hk].
  rewrite Hk. simpl. eexists. split; [reflexivity |].
  pose proof (mapM_fmap_Some_inv id Some _ _ Hk ltac:(intros ? ? [= ->]; reflexivity)) as Hfm.
  assert (Hndk : NoDup k).
  { rewrite <- Hfm in Hnd. apply (NoDup_fmap Some). exact Hnd. }
  assert (Helk : forall x, x ∈ k <-> Some x ∈ allIds).
  { intros x. rewrite <- (list_elem_of_fmap_inj Some), Hfm, Hel. split; [| auto].
    intros [H | H]; [inversion H | exact H]. }
  split.
  - apply sorted_nodup_strict.
    + apply StronglySorted_merge_sort; apply _.
    + rewrite merge_sort_Permutation. exact Hndk.
  - intros x. rewrite merge_sort_Permutation. apply Helk.
Qed.

Lemma collect_numbers sitemaps :
  Forall (fun x => is_Some x) (Populate.collect sitemaps) /\
  forall x, Some x ∈ Populate.collect sitemaps <-> Populate.found sitemaps x.
Proof.
  split.
  - apply Forall_forall. intros x Hx.
    apply collect_elem in Hx as (urls & loc & d & _ & _ & Hm & ->).
    destruct (match_anime_Some loc d Hm) as (Hne & Hd & _).
    destruct (parseInt_digit_run d Hne Hd) as (n & -> & _). eauto.
  - intros x. rewrite collect_elem. unfold Populate.found. split.
    + intros (urls & loc & d & H1 & H2 & H3 & H4). exists urls, loc, d. done.
    + intros (urls & loc & d & H1 & H2 & H3 & H4). exists urls, loc, d. done.
Qed.

(** X15.  A run of [fetchAnilistIds] without cache file always produces a
    list (no [NaN] can enter it), writes that list to the file and returns
    it.  The list is strictly increasing, so it has no duplicate; it holds
    exactly the ids found in the entries that were read, which are, for each
    sitemap that could be fetched, the entries before the first one at
    which the loop body throws; none of the ids is negative; and the list
    depends on the sitemaps only through the set of ids found, not on their
    order or repetitions. *)
Theorem fetched_ids_are_sorted_and_unique (sitemaps : list Populate.Sitemap) :
  exists ids,
    Populate.fetchAnilistIds None sitemaps = Some (ids, Some ids)
    /\ StronglySorted Z.lt ids
    /\ (forall x, x ∈ ids <-> Populate.found sitemaps x)
    /\ Forall (fun x => 0 <= x) ids
    /\ (forall sitemaps',
          (forall x, Populate.found sitemaps x <-> Populate.found sitemaps' x) ->
          Populate.fetchAnilistIds None sitemaps' = Some (ids, Some ids)).
Proof.
  assert (H : forall sms, exists ids,
            Populate.fetchAnilistIds None sms = Some (ids, Some ids) /\
            StronglySorted Z.lt ids /\ (forall x, x ∈ ids <-> Populate.found sms x)).
  { intros sms. destruct (collect_numbers sms) as [Hsome Hfound].
    destruct (uniqueIds_spec _ Hsome) as (ids & Hu & Hs & Hel).
    exists ids. simpl. rewrite Hu. simpl. split; [reflexivity |]. split; [exact Hs |].
    intros x. rewrite Hel. apply Hfound. }
  destruct (H sitemaps) as (ids & Hf & Hs & Hel).
  exists ids. split; [exact Hf |]. split; [exact Hs |]. split; [exact Hel |]. split.
  - apply Forall_forall. intros x Hx. apply Hel in Hx as (urls & loc & d & _ & _ & Hm & Hp).
    destruct (match_anime_Some loc d Hm) as (Hne & Hd & _).
    destruct (parseInt_digit_run d Hne Hd) as (n & Hn & Hpos). congruence.
  - intros sitemaps' Hsame. destruct (H sitemaps') as (ids' & Hf' & Hs' & Hel').
    rewrite Hf'. assert (ids' = ids) as ->; [| reflexivity].
    apply strictly_sorted_unique; [exact Hs' | exact Hs |].
    intros x. rewrite Hel', Hel. symmetry. apply Hsame.
Qed.

(** X16.  What a failure costs, and for how long.  A sitemap that cannot
    be fetched or parsed contributes nothing, and the others still count.
    A sitemap with an entry at which the loop body throws contributes the
    entries before that one; those after it are dropped, the result being
    the same as if the sitemap had ended there.  Whatever list the first
    run obtains it writes to the file, and every later run returns that
    list without looking at the sitemaps: what a failure dropped stays
    dropped.  When every sitemap fails before its first entry the list
    written is empty, and later runs return the empty list. *)
Theorem sitemap_failures_are_cached :
  (forall sms1 sms2,
     Populate.fetchAnilistIds None (sms1 ++ None :: sms2)
     = Populate.fetchAnilistIds None (sms1 ++ sms2))
  /\ (forall sms1 sms2 urls1 urls2,
        Populate.fetchAnilistIds None
          (sms1 ++ Some (Some (urls1 ++ Populate.Faulty :: urls2)) :: sms2)
        = Populate.fetchAnilistIds None (sms1 ++ Some (Some urls1) :: sms2))
  /\ (forall sitemaps, exists ids,
        Populate.fetchAnilistIds None sitemaps = Some (ids, Some ids) /\
        (forall x, x ∈ ids <-> Populate.found sitemaps x) /\
        forall sitemaps',
          Populate.fetchAnilistIds (Some ids) sitemaps' = Some (ids, Some ids))
  /\ (forall sitemaps,
        Forall (fun sm => sm = None \/
                  exists urls, sm = Some (Some (Populate.Faulty :: urls))) sitemaps ->
        Populate.fetchAnilistIds None sitemaps = Some ([], Some []) /\
        forall sitemaps', Populate.fetchAnilistIds (Some []) sitemaps' = Some ([], Some [])).
Proof.
  split.
  { intros sms1 sms2. unfold Populate.fetchAnilistIds, Populate.collect.
    rewrite !foldl_app. reflexivity. }
  split.
  { intros sms1 sms2 urls1 urls2. unfold Populate.fetchAnilistIds, Populate.collect.
    rewrite !foldl_app. simpl. rewrite push_ids_faulty. reflexivity. }
  split.
  { intros sitemaps. destruct (collect_numbers sitemaps) as [Hsome Hfound].
    destruct (uniqueIds_spec _ Hsome) as (ids & Hu & _ & Hel).
    exists ids. simpl. rewrite Hu. simpl. split; [reflexivity |].
    split; [| reflexivity]. intros x. rewrite Hel. apply Hfound. }
  intros sitemaps Hall. split; [| reflexivity].
  assert (Populate.collect sitemaps = []) as E.
  { unfold Populate.collect. generalize (@nil Populate.number).
    induction Hall as [|sm sms [-> | [urls ->]] _ IH]; intros acc; simpl;
      [reflexivity | apply IH | apply IH]. }
  simpl. rewrite E. reflexivity.
Qed.

(** ** The batches of [main] *)

(** Inside the array, [slice(i, i + c)] is the next [c] elements. *)
Lemma slice_window {A} (l : list A) (i c : Z) :
  0 <= i -> 0 <= c ->
  Populate.slice l (Some i) (Some (i + c)) = take (Z.to_nat c) (drop (Z.to_nat i) l).
Proof.
  intros Hi Hc. unfold Populate.slice, Populate.relative_index, Populate.to_integer.
  simpl. destruct (Z.ltb_spec i 0); [lia |]. destruct (Z.ltb_spec (i + c) 0); [lia |].
  set (len := Z.of_nat (length l)).
  destruct (Z.le_gt_cases len i) as [Hout | Hin].
  - rewrite (Z.min_r i len) by lia. rewrite (Z.min_r (i + c) len) by lia.
    rewrite !drop_ge by lia. rewrite !take_nil. reflexivity.
  - rewrite (Z.min_l i len) by lia.
    destruct (Z.le_gt_cases (i + c) len) as [Hfit | Hover].
    + rewrite Z.min_l by lia. f_equal. lia.
    + rewrite Z.min_r by lia.
      rewrite !take_ge; [reflexivity | |]; rewrite length_drop; lia.
Qed.

Lemma main_batches_from (ids : list Z) (c : Z) (fuel : nat) (i : Z) :
  1 <= c -> 0 <= i -> (Z.to_nat (Z.of_nat (length ids) - i) < fuel)%nat ->
  exists bs,
    Populate.main_batches fuel ids (Some c) (Some i) = Some bs /\
    concat bs = drop (Z.to_nat i) ids /\
    Forall (fun b => (1 <= length b)%nat /\ Z.of_nat (length b) <= c) bs /\
    (forall k b, bs !! k = Some b ->
       b = take (Z.to_nat c) (drop (Z.to_nat (i + Z.of_nat k * c)) ids)) /\
    Z.of_nat (length bs) = Z.max 0 ((Z.of_nat (length ids) - i + c - 1) / c).
Proof.
  intros Hc. revert i. induction fuel as [|fuel IH]; intros i Hi Hfuel; [lia |].
  simpl. set (len := Z.of_nat (length ids)) in *.
  destruct (Z.ltb_spec i len) as [Hin | Hout].
  - destruct (IH (i + c)) as (bs & -> & Hcat & Hsz & Hk & Hn); [lia | lia |].
    simpl. eexists. split; [reflexivity |].
    rewrite (slice_window ids i c) by lia.
    split; [| split; [| split]].
    + simpl. rewrite Hcat.
      replace (Z.to_nat (i + c)) with (Z.to_nat i + Z.to_nat c)%nat by lia.
      rewrite <- drop_drop. apply take_drop.
    + constructor; [| exact Hsz].
      rewrite length_take, length_drop. fold len. lia.
    + intros [|k] b Hb; simpl in Hb.
      * injection Hb as <-. do 2 f_equal. lia.
      * rewrite (Hk k b Hb). do 3 f_equal. lia.
    + simpl length. rewrite Nat2Z.inj_succ, Hn.
      replace (len - i + c - 1) with ((len - (i + c) + c - 1) + 1 * c) by lia.
      rewrite Z.div_add by lia.
      assert (0 <= (len - (i + c) + c - 1) / c) by (apply Z.div_pos; lia).
      destruct (Z.le_gt_cases 0 ((len - (i + c) + c - 1) / c + 1)); lia.
  - eexists. split; [reflexivity |]. rewrite drop_ge by lia.
    split; [reflexivity |]. split; [constructor |]. split.
    + intros k b Hb. destruct k; discriminate.
    + simpl. assert ((len - i + c - 1) / c <= 0); [| lia].
      assert ((len - i + c - 1) / c < 1); [| lia].
      apply Z.div_lt_upper_bound; lia.
Qed.

(** X17.  With [CONCURRENCY = c >= 1] the loop of [main] ends and cuts the
    ids into consecutive batches: [ceil(n / c)] of them, each with at least
    one and at most [c] ids, the [k]-th being the [c] ids from position
    [k * c] on; put together in order the batches give back the list, so
    every position of the list is processed exactly once. *)
Theorem batches_partition_the_ids (ids : list Z) (c : Z) :
  1 <= c ->
  exists bs,
    (forall fuel, (length ids < fuel)%nat ->
       Populate.main_batches fuel ids (Some c) (Some 0) = Some bs)
    /\ concat bs = ids
    /\ Forall (fun b => (1 <= length b)%nat /\ Z.of_nat (length b) <= c) bs
    /\ (forall k b, bs !! k = Some b ->
          b = take (Z.to_nat c) (drop (k * Z.to_nat c) ids))
    /\ Z.of_nat (length bs) = (Z.of_nat (length ids) + c - 1) / c.
Proof.
  intros Hc.
  destruct (main_batches_from ids c (S (length ids)) 0 Hc ltac:(lia) ltac:(lia))
    as (bs & Hrun & Hcat & Hsz & Hk & Hn).
  exists bs. split; [| split; [exact Hcat | split; [exact Hsz | split]]].
  - intros fuel Hfuel.
    destruct (main_batches_from ids c fuel 0 Hc ltac:(lia) ltac:(lia))
      as (bs' & Hrun' & Hcat' & Hsz' & Hk' & Hn').
    rewrite Hrun'. f_equal. apply list_eq. intros k.
    destruct (bs' !! k) as [b'|] eqn:E', (bs !! k) as [b|] eqn:E.
    + rewrite (Hk k b E), (Hk' k b' E'). reflexivity.
    + apply lookup_lt_Some in E'. apply lookup_ge_None in E. lia.
    + apply lookup_lt_Some in E. apply lookup_ge_None in E'. lia.
    + reflexivity.
  - intros k b Hb. rewrite (Hk k b Hb). do 2 f_equal. lia.
  - rewrite Hn. rewrite Z.sub_0_r.
    assert (0 <= (Z.of_nat (length ids) + c - 1) / c) by (apply Z.div_pos; lia). lia.
Qed.

Lemma main_batches_stuck (ids : list Z) (c : Z) (fuel : nat) (i : Z) :
  ids <> [] -> c <= 0 -> i <= 0 ->
  Populate.main_batches fuel ids (Some c) (Some i) = None.
Proof.
  intros Hne Hc. revert i. induction fuel as [|fuel IH]; intros i Hi; [reflexivity |].
  simpl. destruct (Z.ltb_spec i (Z.of_nat (length ids))) as [_ | Hout].
  - rewrite IH by lia. reflexivity.
  - destruct ids; [contradiction | simpl in Hout; lia].
Qed.

(** X18.  [CONCURRENCY] is [parseInt(process.env.CONCURRENCY || '10')]: 10
    when the variable is unset or empty, the number written when it is a
    decimal numeral, [NaN] when it starts with a letter.  With a value of 0
    or less and at least one id the loop of [main] never ends (with 0 every
    batch it makes is empty); with [NaN] the loop makes one empty batch and
    ends, so nothing is processed. *)
Theorem degenerate_concurrency (ids : list Z) :
  (Populate.CONCURRENCY None = Some 10 /\
   Populate.CONCURRENCY (Some EmptyString) = Some 10 /\
   (forall n : N, Populate.CONCURRENCY (Some (pretty n)) = Some (Z.of_N n)) /\
   (forall a rest, JS.is_letter a = true ->
      Populate.CONCURRENCY (Some (String a rest)) = None))
  /\ (forall c fuel, ids <> [] -> c <= 0 ->
        Populate.main_batches fuel ids (Some c) (Some 0) = None)
  /\ (forall i, Populate.slice ids (Some i) (Populate.add (Some i) (Some 0)) = [])
  /\ (forall fuel, ids <> [] ->
        Populate.main_batches (S (S fuel)) ids None (Some 0) = Some [[]])
  /\ (forall c fuel, Populate.main_batches (S fuel) [] c (Some 0) = Some []).
Proof.
  split.
  { split; [reflexivity |]. split; [reflexivity |]. split.
    - intros n. unfold Populate.CONCURRENCY.
      replace (JS.or_string (Some (pretty n)) "10") with (pretty n).
      + apply parseInt_pretty.
      + pose proof (pretty_nonempty n). simpl. destruct (pretty n); [contradiction | reflexivity].
    - intros a rest Ha. unfold Populate.CONCURRENCY. simpl. apply parseInt_letter, Ha. }
  split.
  { intros c fuel Hne Hc. apply main_batches_stuck; [exact Hne | exact Hc | lia]. }
  split.
  { intros i. unfold Populate.slice, Populate.add. simpl. rewrite Z.add_0_r, Z.sub_diag.
    reflexivity. }
  split.
  { intros fuel Hne. destruct ids as [|x ids]; [contradiction |]. reflexivity. }
  intros c fuel. reflexivity.
Qed.

(** ** [mapAnimeKai]: the last segment of the id *)

Lemma has_slash_app s t :
  Populate.has_slash (s ++ t) = Populate.has_slash s || Populate.has_slash t.
Proof.
  induction s as [|a s IH]; [reflexivity |]. rewrite append_cons. simpl.
  rewrite IH, orb_assoc. reflexivity.
Qed.

Lemma append_assoc (s t u : string) : ((s ++ t) ++ u)%string = (s ++ (t ++ u))%string.
Proof.
  induction s as [|a s IH]; [reflexivity |]. rewrite !append_cons, IH. reflexivity.
Qed.

(** Reading on from a point where the current segment is [acc]: the result
    is [acc] followed by the rest when no ['/'] follows, and otherwise a
    suffix of the rest that starts after a ['/']. *)
Lemma last_segment_from_spec s acc :
  Populate.has_slash (Populate.last_segment_from s acc) = Populate.has_slash acc
                                                          && negb (Populate.has_slash s)
  /\ (Populate.has_slash s = false ->
      Populate.last_segment_from s acc = (acc ++ s)%string)
  /\ (Populate.has_slash s = true ->
      exists pre, s = (pre ++ "/" ++ Populate.last_segment_from s acc)%string).
Proof.
  revert acc. induction s as [|a s IH]; intros acc; simpl.
  - rewrite andb_true_r, append_nil_r. split; [reflexivity |]. split; [reflexivity |].
    discriminate.
  - destruct (Ascii.eqb_spec a "/") as [-> | Hne]; simpl.
    + destruct (IH EmptyString) as (Hs & Hno & Hyes). rewrite Hs. simpl.
      split; [rewrite andb_false_r; reflexivity |]. split; [discriminate |]. intros _.
      destruct (Populate.has_slash s) eqn:E.
      * destruct (Hyes eq_refl) as [pre Hpre]. exists (String "/" pre).
        rewrite append_cons. f_equal. exact Hpre.
      * exists EmptyString. rewrite (Hno eq_refl). reflexivity.
    + destruct (IH (acc ++ String a EmptyString)%string) as (Hs & Hno & Hyes).
      split; [| split].
      * rewrite Hs, has_slash_app. simpl.
        destruct (Ascii.eqb_spec a "/"); [contradiction |]. simpl.
        rewrite orb_false_r. reflexivity.
      * intros E. rewrite (Hno E), append_assoc. reflexivity.
      * intros E. destruct (Hyes E) as [pre Hpre]. exists (String a pre).
        rewrite append_cons. f_equal. exact Hpre.
Qed.

(** X19.  [mapAnimeKai] returns the text after the last ['/'] of the id of
    the first search result: a non-empty string without ['/'] that is the
    whole id or the end of the id after a ['/'].  It returns [null] exactly
    when the search throws, gives no result list or an empty one, or the
    first id is empty or ends with ['/']. *)
Theorem mapAnimeKai_returns_last_segment
    (search : option (option (list string))) :
  (forall segment, Populate.mapAnimeKai search = Some segment ->
     segment <> EmptyString /\ Populate.has_slash segment = false /\
     exists id others, search = Some (Some (id :: others)) /\
       (id = segment \/ exists pre, id = (pre ++ "/" ++ segment)%string))
  /\ (Populate.mapAnimeKai search = None <->
        search = None \/ search = Some None \/ search = Some (Some []) \/
        exists id others, search = Some (Some (id :: others)) /\
          (id = EmptyString \/ exists pre, id = (pre ++ "/")%string))
  /\ (forall pre segment others,
        segment <> EmptyString -> Populate.has_slash segment = false ->
        Populate.mapAnimeKai (Some (Some ((pre ++ "/" ++ segment)%string :: others)))
        = Some segment /\
        Populate.mapAnimeKai (Some (Some (segment :: others))) = Some segment).
Proof.
  assert (Hseg : forall id,
            Populate.has_slash (Populate.last_segment id) = false /\
            (id = Populate.last_segment id \/
             exists pre, id = (pre ++ "/" ++ Populate.last_segment id)%string)).
  { intros id. unfold Populate.last_segment.
    destruct (last_segment_from_spec id EmptyString) as (Hs & Hno & Hyes).
    split; [rewrite Hs; reflexivity |].
    destruct (Populate.has_slash id) eqn:E; [right; apply Hyes; reflexivity | left].
    rewrite (Hno eq_refl). reflexivity. }
  assert (Hlast : forall pre segment, Populate.has_slash segment = false ->
            Populate.last_segment (pre ++ "/" ++ segment) = segment).
  { intros pre segment Hno. unfold Populate.last_segment.
    assert (H : forall acc,
              Populate.last_segment_from (pre ++ "/" ++ segment) acc = segment);
      [| apply H].
    induction pre as [|a pre IH]; intros acc.
    - rewrite append_nil_l, append_cons, append_nil_l. simpl.
      apply (last_segment_from_spec segment EmptyString), Hno.
    - rewrite append_cons. simpl. destruct (Ascii.eqb a "/"); apply IH. }
  split; [| split].
  - intros segment H. destruct search as [[[|id others]|]|]; try discriminate.
    simpl in H. destruct (Hseg id) as [Hno Hend].
    destruct (Populate.last_segment id) as [|a seg] eqn:E; [discriminate |].
    injection H as <-. split; [discriminate |]. split; [exact Hno |].
    exists id, others. split; [reflexivity | exact Hend].
  - split.
    + intros H. destruct search as [[[|id others]|]|]; auto.
      right. right. right. exists id, others. split; [reflexivity |].
      simpl in H. destruct (Hseg id) as [_ Hend].
      destruct (Populate.last_segment id) as [|a seg] eqn:E; [| discriminate].
      destruct Hend as [-> | [pre Hpre]]; [left; reflexivity | right].
      exists pre. exact Hpre.
    + intros [-> | [-> | [-> | (id & others & -> & [-> | [pre ->]])]]]; try reflexivity.
      simpl. change (String "/" EmptyString) with ("/" ++ EmptyString)%string.
      rewrite Hlast by reflexivity. reflexivity.
  - intros pre segment others Hne Hno. simpl. rewrite Hlast by exact Hno.
    split; [destruct segment; [contradiction | reflexivity] |].
    unfold Populate.last_segment.
    rewrite (proj1 (proj2 (last_segment_from_spec segment EmptyString)) Hno).
    rewrite append_nil_l. destruct segment; [contradiction | reflexivity].
Qed.

(** ** [processAnime] *)

(** The three ways a call can end. *)
Lemma processOne_cases (skip : bool) (w : Populate.World) (anilistId : Z)
    (st : Populate.State) :
  let st' := Populate.processOne skip w anilistId st in
  let proceeds := skip = false \/ (Populate.w_findOne_throws w = false /\
                                   Populate.db st !! anilistId = None) in
  (skip = true /\ Populate.w_findOne_throws w = false /\
   is_Some (Populate.db st !! anilistId) /\ st' = st)
  \/ ((skip = true /\ Populate.w_findOne_throws w = true \/
       proceeds /\ (Populate.getAnilistInfo (Populate.w_response w) = None \/
                    Populate.w_update_throws w = true)) /\
      st' = {| Populate.db := Populate.db st; Populate.processed := Populate.processed st;
               Populate.failed := S (Populate.failed st) |})
  \/ (exists info, proceeds /\
        Populate.getAnilistInfo (Populate.w_response w) = Some info /\
        Populate.w_update_throws w = false /\
        st' = {| Populate.db := <[anilistId := Populate.mapping anilistId info w]>
                                  (Populate.db st);
                 Populate.processed := S (Populate.processed st);
                 Populate.failed := Populate.failed st |}).
Proof.
  intros st' proceeds. subst st' proceeds.
  unfold Populate.processOne, Populate.processAnime.
  destruct skip; simpl.
  - destruct (Populate.w_findOne_throws w) eqn:Ef; simpl.
    { right. left. split; [left; done | reflexivity]. }
    destruct (Populate.db st !! anilistId) as [old|] eqn:Hold.
    { rewrite bool_decide_eq_true_2 by eauto. left. destruct st. eauto. }
    rewrite bool_decide_eq_false_2 by (intros [? ?]; discriminate).
    destruct (Populate.getAnilistInfo (Populate.w_response w)) as [info|] eqn:Ei.
    + destruct (Populate.w_update_throws w) eqn:Eu; simpl.
      * right. left. split; [right; split; [right; done | right; reflexivity] | reflexivity].
      * right. right. exists info. split; [right; done |]. done.
    + right. left. split; [right; split; [right; done | left; reflexivity] | reflexivity].
  - destruct (Populate.getAnilistInfo (Populate.w_response w)) as [info|] eqn:Ei.
    + destruct (Populate.w_update_throws w) eqn:Eu; simpl.
      * right. left. split; [right; split; [left; done | right; reflexivity] | reflexivity].
      * right. right. exists info. split; [left; done |]. done.
    + right. left. split; [right; split; [left; done | left; reflexivity] | reflexivity].
Qed.

(** X20.  One [processAnime] call, with its rejection caught as
    [processBatch] does.  It never touches the document of another id and
    never removes a document, and the two counters never decrease and grow
    by at most one together.  With [SKIP_EXISTING] an existing document is
    left exactly as it is and nothing is counted.  Otherwise, when AniList
    answers and the write succeeds, the document stored for the id is the
    new mapping, whose [tmdb] and [flixhq] are [null] whatever the previous
    document held, and [processed] grows by one; when AniList gives nothing
    or a database operation throws (the look-up made under [SKIP_EXISTING]
    or the write), the collection is unchanged and [failed] grows by one.
    These are all the cases. *)
Theorem processAnime_effect
    (skip : bool) (w : Populate.World) (anilistId : Z) (st : Populate.State) :
  let st' := Populate.processOne skip w anilistId st in
  let proceeds := skip = false \/ (Populate.w_findOne_throws w = false /\
                                   Populate.db st !! anilistId = None) in
  (forall other, other <> anilistId ->
     Populate.db st' !! other = Populate.db st !! other)
  /\ (is_Some (Populate.db st !! anilistId) -> is_Some (Populate.db st' !! anilistId))
  /\ ((Populate.processed st <= Populate.processed st')%nat /\
      (Populate.failed st <= Populate.failed st')%nat /\
      (Populate.processed st' + Populate.failed st'
       <= Populate.processed st + Populate.failed st + 1)%nat)
  /\ (skip = true -> Populate.w_findOne_throws w = false ->
      is_Some (Populate.db st !! anilistId) -> st' = st)
  /\ (proceeds ->
      forall info, Populate.getAnilistInfo (Populate.w_response w) = Some info ->
      Populate.w_update_throws w = false ->
      Populate.db st' !! anilistId = Some (Populate.mapping anilistId info w) /\
      (exists doc, Populate.db st' !! anilistId = Some doc /\
         Populate.d_tmdb doc = None /\ Populate.d_flixhq doc = None /\
         Populate.d_anilistId doc = anilistId) /\
      Populate.processed st' = S (Populate.processed st) /\
      Populate.failed st' = Populate.failed st)
  /\ (proceeds ->
      Populate.getAnilistInfo (Populate.w_response w) = None \/
      Populate.w_update_throws w = true ->
      Populate.db st' = Populate.db st /\
      Populate.processed st' = Populate.processed st /\
      Populate.failed st' = S (Populate.failed st))
  /\ (skip = true -> Populate.w_findOne_throws w = true ->
      Populate.db st' = Populate.db st /\
      Populate.processed st' = Populate.processed st /\
      Populate.failed st' = S (Populate.failed st))
  /\ ((skip = true /\ Populate.w_findOne_throws w = false /\
       is_Some (Populate.db st !! anilistId))
      \/ (skip = true /\ Populate.w_findOne_throws w = true)
      \/ (proceeds /\ (Populate.getAnilistInfo (Populate.w_response w) = None \/
                        Populate.w_update_throws w = true))
      \/ (proceeds /\ is_Some (Populate.getAnilistInfo (Populate.w_response w)) /\
          Populate.w_update_throws w = false))
  /\ (Populate.processed st' = S (Populate.processed st) ->
      exists info, Populate.getAnilistInfo (Populate.w_response w) = Some info /\
        Populate.db st' = <[anilistId := Populate.mapping anilistId info w]> (Populate.db st)).
Proof.
  intros st' proceeds.
  destruct (processOne_cases skip w anilistId st)
    as [(Hs & Hf & Hex & E) | [(Hwhy & E) | (info & Hgo & Hi & Hu & E)]];
    fold st' in E; rewrite E; clear E st'; simpl.
  - split; [reflexivity |]. split; [auto |]. split; [lia |]. split; [reflexivity |].
    assert (Hno : ~ proceeds).
    { intros [Hp | [_ Hp]]; [congruence |]. rewrite Hp in Hex. destruct Hex; discriminate. }
    split; [intros Hp; contradiction |]. split; [intros Hp; contradiction |].
    split; [intros _ Hf'; congruence |]. split; [left; done |].
    intros H. lia.
  - split; [reflexivity |]. split; [auto |]. split; [lia |]. split.
    { intros Hs Hf Hex. exfalso.
      destruct Hwhy as [[_ Hf'] | [[Hp | [_ Hp]] _]]; [congruence | congruence |].
      rewrite Hp in Hex. destruct Hex; discriminate. }
    split.
    { intros Hp info Hi Hu. exfalso.
      destruct Hwhy as [[Hs Hf] | [_ [Hn | Ht]]]; [| congruence | congruence].
      destruct Hp as [Hp | [Hp _]]; congruence. }
    split; [intros _ _; done |]. split; [intros _ _; done |].
    split; [right; destruct Hwhy as [Hw | Hw]; [left | right; left]; exact Hw |].
    intros H. lia.
  - split; [intros other Hne; apply lookup_insert_ne; congruence |].
    split; [intros _; rewrite lookup_insert_eq; eauto |]. split; [lia |]. split.
    { intros Hs Hf Hex. exfalso. destruct Hgo as [Hp | [_ Hp]]; [congruence |].
      rewrite Hp in Hex. destruct Hex; discriminate. }
    split.
    { intros _ info' Hi' _. rewrite lookup_insert_eq.
      assert (info' = info) as -> by congruence.
      split; [reflexivity |]. split; [eauto 10 | done]. }
    split; [intros _ [Hn | Ht]; congruence |].
    split.
    { intros Hs Hf. exfalso. destruct Hgo as [Hp | [Hp _]]; congruence. }
    split; [right; right; right; split; [exact Hgo |]; split; [eauto | exact Hu] |].
    intros _. exists info. done.
Qed.

(** * Concrete runs *)

Example parseInt_examples :
  JS.parseInt "120" = Some 120 /\ JS.parseInt "  7 seconds" = Some 7 /\
  JS.parseInt "0" = Some 0 /\ JS.parseInt "-3" = Some (-3) /\
  JS.parseInt "0x1f" = Some 31 /\ JS.parseInt "Wed, 21 Oct 2015" = None /\
  JS.parseInt "" = None /\ JS.parseInt "0x" = None.
Proof. repeat split; reflexivity. Qed.

(** White space beyond ASCII: a no-break space (U+00A0), a byte order mark
    (U+FEFF) and an ideographic space (U+3000) before the numeral are
    skipped; a zero-width space (U+200B) is not white space.  The byte 160
    on its own is read as the no-break space. *)
Example parseInt_white_space :
  JS.parseInt (String "194" (String "160" "5")) = Some 5 /\
  JS.parseInt (String "160" "5") = Some 5 /\
  JS.parseInt (String "239" (String "187" (String "191" "5"))) = Some 5 /\
  JS.parseInt (String "227" (String "128" (String "128" " 5"))) = Some 5 /\
  JS.parseInt (String "226" (String "128" (String "139" "5"))) = None.
Proof. repeat split; reflexivity. Qed.

(** Durations as [setTimeout] takes them. *)
Example setTimeout_examples :
  setTimeout (2501 # 2) = 1250 /\ setTimeout 30000 = 30000 /\
  setTimeout (1 # 2) = 1 /\ setTimeout (-5) = 1 /\
  setTimeout (inject_Z TIMEOUT_MAX) = 2147483647 /\
  setTimeout (inject_Z (TIMEOUT_MAX + 1)) = 1.
Proof. repeat split; reflexivity. Qed.

(** A response with status 302 that carries a timeout code is retried. *)
Example redirect_with_timeout_code_is_retried :
  shouldRetry {| response := Some {| status := 302; headers := ∅ |};
                 code := Some "ECONNABORTED"%string |} 0 3 = true /\
  shouldRetry {| response := Some {| status := 302; headers := ∅ |};
                 code := None |} 0 3 = false.
Proof. split; reflexivity. Qed.

(** A policy with a negative concurrency: the call throws, the policy is
    stored, the domain resolves to the ['default'] limiter, and [getStats]
    has the five entries it had. *)
Example negative_concurrency_is_rejected :
  let config := policy 3 1000 20000 10000 (-1) in
  let this' := configureRateLimit "example.net" config constructor in
  configureRateLimit_throws config = true /\
  getConfig this' "example.net" = Some config /\
  getLimiter this' "example.net" = Some 4%nat /\
  length (heap this') = 5%nat /\
  size (getStats this') = 5%nat.
Proof. repeat split; vm_compute; reflexivity. Qed.

(** Two sitemaps: in the first the loop body throws at the second entry,
    so that the id 3 after it is lost; the second sitemap still counts. *)
Example ids_after_a_faulty_entry_are_lost :
  Populate.fetchAnilistIds None
    [ Some (Some [ Populate.Loc (Some "https://anilist.co/anime/1/Cowboy-Bebop"%string);
                   Populate.Faulty;
                   Populate.Loc (Some "https://anilist.co/anime/3"%string) ]);
      Some (Some [ Populate.Loc (Some "https://anilist.co/anime/4"%string) ]) ]
  = Some ([1; 4], Some [1; 4]).
Proof. vm_compute. reflexivity. Qed.

Example hostname_examples :
  RefURL.hostname "https://graphql.anilist.co" = Some "graphql.anilist.co"%string /\
  RefURL.hostname "https://API.MyAnimeList.net:443/v2/anime?q=x#top"
    = Some "api.myanimelist.net"%string /\
  RefURL.hostname "http://user:pw@localhost:3000/api" = Some "localhost"%string /\
  RefURL.hostname "" = None /\ RefURL.hostname "not a url" = None /\
  RefURL.hostname "/relative/path" = None.
Proof. repeat split; reflexivity. Qed.

(** The limiters of the shipped configuration, in allocation order. *)
Example constructor_limiters :
  limiters constructor !! "graphql.anilist.co"%string = Some 0%nat /\
  limiters constructor !! "api.myanimelist.net"%string = Some 1%nat /\
  limiters constructor !! "api.themoviedb.org"%string = Some 2%nat /\
  limiters constructor !! "localhost"%string = Some 3%nat /\
  limiters constructor !! "default"%string = Some 4%nat /\
  limit_concurrency <$> heap constructor = [2; 1; 3; 5; 2].
Proof. repeat split; reflexivity. Qed.

(** Every limiter of the shipped configuration has a concurrency [p-limit]
    accepts. *)
Lemma constructor_caps_positive :
  Forall (fun L => 1 <= limit_concurrency L) (heap constructor).
Proof. repeat constructor; simpl; lia. Qed.

(** The scenario of the design document: a 429 without [Retry-After] under
    [baseDelay = 1000] is retried between 1000 and 1500 ms later. *)
Example first_retry_between_1000_and_1500 (rnd : Q) :
  (0 <= rnd)%Q -> (rnd < 1)%Q ->
  (1000 <= getRetryDelay rnd (failed 429 ∅) 0 default_policy)%Q /\
  (getRetryDelay rnd (failed 429 ∅) 0 default_policy < 1500)%Q.
Proof.
  intros H0 H1. rewrite getRetryDelay_no_directive by reflexivity.
  unfold calculateBackoffDelay. simpl JS.or_default.
  change (inject_Z (2 ^ Z.of_nat 0)) with 1%Q.
  destruct (Q.min_spec (inject_Z 1000 * 1 + rnd * inject_Z 1000 * (1 # 2))
              (inject_Z 20000)) as [[Hlt ->] | [Hle ->]].
  - change (inject_Z 1000) with 1000%Q. split; lra.
  - change (inject_Z 1000) with 1000%Q in Hle.
    change (inject_Z 20000) with 20000%Q in Hle. lra.
Qed.

(** * Where the design document and the code differ *)

(** C1: a policy with [maxRetries = 0] does not give one attempt.
    [rateLimitConfig.maxRetries || 3] reads the 0 as missing, so a request
    that keeps failing with a network error is attempted 4 times. *)
Lemma zero_max_retries_counterexample :
  getConfig with_no_retry_domain (getDomain RefURL.hostname "https://example.com/x")
    = Some no_retry_policy /\
  maxRetries no_retry_policy = Some 0 /\
  retryable network_error = true /\
  attempts <$> request RefURL.hostname with_no_retry_domain to_example
                 (fun _ => Threw network_error) (fun _ => 0%Q)
    = Some 4%nat.
Proof. repeat (split; [vm_compute; reflexivity |]). vm_compute; reflexivity. Qed.

(** C4: a policy with [concurrency = 0] does not close the domain.
    [config.concurrency || 2] reads the 0 as missing and the limiter is
    built with two slots; two calls to the domain are in flight together. *)
Lemma zero_concurrency_counterexample :
  configureRateLimit_throws zero_concurrency_policy = false /\
  getConfig with_zero_concurrency_domain (getDomain RefURL.hostname "https://example.org/x")
    = Some zero_concurrency_policy /\
  concurrency zero_concurrency_policy = Some 0 /\
  (fun s => limit_concurrency <$> heap (mgr s) !! 5%nat)
    <$> exec RefURL.hostname two_calls_in_flight (boot with_zero_concurrency_domain 1000)
    = Some (Some 2) /\
  in_flight "example.org"
    <$> exec RefURL.hostname two_calls_in_flight (boot with_zero_concurrency_domain 1000)
    = Some 2%nat.
Proof. repeat (split; [vm_compute; reflexivity |]). vm_compute; reflexivity. Qed.

(** C5: a [Retry-After: 0] is not honoured.  The guard [retryAfterMs > 0]
    sends it to the exponential backoff: with the default policy the first
    retry waits [1000 + rnd * 500] ms, not 0. *)
Lemma retry_after_zero_counterexample :
  retry_after_header (too_many_requests "0") = Some "0"%string /\
  JS.parseInt "0" = Some 0 /\
  (getRetryDelay 0 (too_many_requests "0") 0 default_policy == 1000)%Q /\
  (getRetryDelay (1 # 2) (too_many_requests "0") 0 default_policy == 1250)%Q /\
  (getRetryDelay (1 # 2) (too_many_requests "0") 2 default_policy == 4250)%Q.
Proof. repeat (split; [vm_compute; reflexivity |]). vm_compute; reflexivity. Qed.

(** C2: the slot is held during the backoff sleep.  After the 503 the first
    call sleeps (until 2250) still counted by its limiter, whose single slot
    is therefore taken: the second call stays queued and cannot start. *)
Lemma slot_held_during_backoff_counterexample :
  let s := state_after RefURL.hostname 1000 retry_on_single_slot in
  executable RefURL.hostname 1000 retry_on_single_slot = true /\
  is_backing_off <$> tasks s !! 0%nat = Some true /\
  t_leased <$> tasks s !! 0%nat = Some true /\
  heap (mgr s) !! 1%nat
    = Some {| limit_concurrency := 1; activeCount := 1; queue := [1%nat] |} /\
  is_queued <$> tasks s !! 1%nat = Some true /\
  step RefURL.hostname (Start 1) s = None.
Proof. repeat (split; [vm_compute; reflexivity |]). vm_compute; reflexivity. Qed.

(** C3: the spacing wait is made inside the slot, and two calls can be
    issued at the same instant.  Of three calls issued together the first
    is dispatched at 1000 and the other two both read the watermark 1000
    and wait, each holding a slot (all three slots are taken); both timers
    are due at 1100 and both calls are dispatched at 1100. *)
Lemma spacing_counterexample :
  let s1 := state_after RefURL.hostname 1000 three_calls_together in
  let s2 := state_after RefURL.hostname 1000 three_calls_dispatched in
  executable RefURL.hostname 1000 three_calls_dispatched = true /\
  t_pc <$> tasks s1 !! 1%nat = Some (SpacingWait 1000 1100) /\
  t_pc <$> tasks s1 !! 2%nat = Some (SpacingWait 1000 1100) /\
  t_leased <$> tasks s1 !! 1%nat = Some true /\
  t_leased <$> tasks s1 !! 2%nat = Some true /\
  heap (mgr s1) !! 2%nat
    = Some {| limit_concurrency := 3; activeCount := 3; queue := [] |} /\
  (fun e => (d_task e, d_domain e, d_time e)) <$> sent s2
    = [(0%nat, "api.themoviedb.org"%string, 1000);
       (1%nat, "api.themoviedb.org"%string, 1100);
       (2%nat, "api.themoviedb.org"%string, 1100)].
Proof. repeat (split; [vm_compute; reflexivity |]). vm_compute; reflexivity. Qed.

(** C8: two distinct unconfigured domains share one gate, which exists
    before any request.  Neither [a.example] nor [b.example] has a policy;
    both resolve to limiter 4, the one stored under ['default'] by the
    constructor.  With two calls to [a.example] under way the gate is full
    and a call to [b.example] stays queued behind them, although nothing
    has been sent to [b.example] yet. *)
Lemma shared_default_gate_counterexample :
  let s := state_after RefURL.hostname 1000 two_unconfigured_sites in
  rateLimitConfig constructor !! "a.example"%string = None /\
  rateLimitConfig constructor !! "b.example"%string = None /\
  getLimiter constructor "a.example" = Some 4%nat /\
  getLimiter constructor "b.example" = Some 4%nat /\
  length (heap (mgr (boot constructor 1000))) = 5%nat /\
  executable RefURL.hostname 1000 two_unconfigured_sites = true /\
  (fun t => (t_domain t, t_limiter t, is_queued t)) <$> tasks s
    = [("a.example"%string, 4%nat, false); ("a.example"%string, 4%nat, false);
       ("b.example"%string, 4%nat, true)] /\
  heap (mgr s) !! 4%nat
    = Some {| limit_concurrency := 2; activeCount := 2; queue := [2%nat] |} /\
  lastRequestTime (mgr s) !! "b.example"%string = None /\
  step RefURL.hostname (Start 4) s = None.
Proof. repeat (split; [vm_compute; reflexivity |]). vm_compute; reflexivity. Qed.

(** * The theorems at concrete inputs *)

Lemma reachable_state_after t0 acts :
  executable RefURL.hostname t0 acts = true ->
  reachable_from RefURL.hostname constructor (state_after RefURL.hostname t0 acts).
Proof.
  unfold executable, state_after, reachable_from, from_boot. intros H.
  exists t0, acts. destruct (exec RefURL.hostname acts (boot constructor t0));
    [reflexivity | discriminate].
Qed.

(** C1 at the MyAnimeList policy ([maxRetries = 5]): six attempts. *)
Lemma exhausted_after_N_plus_1_attempts_witness :
  exists error r,
    Threw service_unavailable = Threw error /\
    request RefURL.hostname constructor to_mal
      (fun _ => Threw service_unavailable) (fun _ => 1 # 2) = Some r /\
    outcome r = Threw error /\
    Z.of_nat (attempts r) = 5 + 1 /\
    Z.of_nat (length (sleeps r)) = 5.
Proof.
  refine (proj1 (exhausted_after_N_plus_1_attempts RefURL.hostname constructor to_mal
                   (fun _ => Threw service_unavailable) (fun _ => 1 # 2)
                   mal_policy 1%nat 5 _ _ _ _) _).
  - vm_compute; reflexivity.
  - vm_compute; reflexivity.
  - reflexivity.
  - lia.
  - intros k. exists service_unavailable. split; reflexivity.
Defined.

(** C2 at the run where the first MyAnimeList call is backing off. *)
Lemma slot_held_through_backoff_witness :
  let s := state_after RefURL.hostname 1000 retry_on_single_slot in
  exists t wake, tasks s !! 0%nat = Some t /\ t_pc t = BackingOff wake /\
    t_leased t = true /\
    exists L, heap (mgr s) !! t_limiter t = Some L /\
      activeCount L = Z.of_nat (leases (t_limiter t) (tasks s)) /\
      1 <= activeCount L <= Z.max 0 (limit_concurrency L).
Proof.
  intros s.
  assert (Hr : reachable_from RefURL.hostname constructor s)
    by (apply reachable_state_after; vm_compute; reflexivity).
  eexists _, _.
  split; [vm_compute; reflexivity |]. split; [reflexivity |].
  lazymatch goal with
  | |- t_leased ?t = true /\ _ =>
      assert (Hi : tasks s !! 0%nat = Some t) by (vm_compute; reflexivity);
      exact (proj1 (proj2 (slot_held_through_backoff RefURL.hostname constructor s
                             0%nat t configured_constructor Hr Hi)) _ eq_refl)
  end.
Defined.

(** C3 at the run of three TMDB calls issued together. *)
Lemma spacing_wait_inside_slot_witness :
  let s := state_after RefURL.hostname 1000 three_calls_dispatched in
  lastRequestTime (mgr s) !! "api.themoviedb.org"%string
    = latest_dispatch "api.themoviedb.org" (sent s) /\
  Forall (fun e => d_lastRequest e + minRequestInterval <= d_time e) (sent s).
Proof.
  intros s.
  destruct (spacing_wait_inside_slot RefURL.hostname constructor s
              configured_constructor) as (_ & Hsent & Hw & _).
  - apply reachable_state_after. vm_compute; reflexivity.
  - split; [apply Hw |]. apply Forall_lookup. intros k e Hk. apply (Hsent k e Hk).
Defined.

(** C4 at the same run: at most three TMDB calls in flight. *)
Lemma in_flight_never_exceeds_concurrency_witness :
  Z.of_nat (in_flight "api.themoviedb.org"
              (state_after RefURL.hostname 1000 three_calls_dispatched)) <= 3.
Proof.
  refine (proj1 (proj2 (in_flight_never_exceeds_concurrency RefURL.hostname constructor _
                          "api.themoviedb.org" tmdb_policy configured_constructor _ _))).
  - apply reachable_state_after. vm_compute; reflexivity.
  - vm_compute; reflexivity.
Defined.

(** C5 at [Retry-After: 5] under the default policy: 5000 ms. *)
Lemma retry_after_directive_honored_witness :
  getRetryDelay (1 # 2) (too_many_requests "5") 0 default_policy = inject_Z (5 * 1000).
Proof.
  refine (proj1 (proj2 (retry_after_directive_honored RefURL.hostname (1 # 2)
                          (too_many_requests "5") 0 default_policy "5" 5 _ _ _)) _).
  - vm_compute; reflexivity.
  - vm_compute; reflexivity.
  - lia.
  - vm_compute. discriminate.
Defined.

(** C6 at the third retry ([k = 2]) with [baseDelay = 1000]: between 4000
    and 4500 ms. *)
Lemma backoff_delay_formula_and_bounds_witness :
  (4000 <= calculateBackoffDelay (1 # 2) 2 1000 30000)%Q /\
  (calculateBackoffDelay (1 # 2) 2 1000 30000 <= 4500)%Q.
Proof.
  refine (proj1 (proj2 (proj2 (proj2
            (backoff_delay_formula_and_bounds RefURL.hostname (1 # 2) 2 1000 30000
               _ _ _))))).
  - lia.
  - vm_compute. discriminate.
  - vm_compute. reflexivity.
Defined.

(** C7 at a 404 from MyAnimeList: one attempt. *)
Lemma client_error_rejected_after_one_attempt_witness :
  request RefURL.hostname constructor to_mal (fun _ => Threw not_found) (fun _ => 0%Q)
  = Some {| outcome := Threw not_found; attempts := 1; sleeps := [] |}.
Proof.
  refine (proj1 (proj2 (proj2 (client_error_rejected_after_one_attempt RefURL.hostname
            constructor to_mal (fun _ => Threw not_found) (fun _ => 0%Q) not_found
            mal_policy 1%nat _ _ _))) eq_refl).
  - vm_compute; reflexivity.
  - vm_compute; reflexivity.
  - vm_compute; reflexivity.
Defined.

(** C8 at the run with two unconfigured sites. *)
Lemma domain_state_layout_witness :
  let s := state_after RefURL.hostname 1000 two_unconfigured_sites in
  getLimiter constructor "a.example" = getLimiter constructor "b.example" /\
  lastRequestTime (mgr s) !! "b.example"%string
    = latest_dispatch "b.example" (sent s) /\
  length (heap (mgr s)) = length (heap constructor).
Proof.
  intros s.
  destruct (domain_state_layout RefURL.hostname constructor s
              configured_constructor) as (_ & Hw & [_ Hlen] & _ & _ & Hshare & _).
  - apply reachable_state_after. vm_compute; reflexivity.
  - split; [| split; [apply Hw | exact Hlen]].
    apply Hshare; vm_compute; reflexivity.
Defined.

(** C9 at an unconfigured site. *)
Lemma policy_resolution_total_witness :
  getConfig constructor (getDomain RefURL.hostname "https://a.example/anime/21")
    = Some default_policy /\
  getLimiter constructor (getDomain RefURL.hostname "https://a.example/anime/21")
    = limiters constructor !! "default"%string.
Proof.
  destruct (policy_resolution_total RefURL.hostname constructor default_policy
              configured_constructor) as (_ & _ & _ & _ & H).
  - vm_compute; reflexivity.
  - destruct (H "https://a.example/anime/21"%string "a.example"%string)
      as (Hc & Hl & _).
    + vm_compute; reflexivity.
    + vm_compute; reflexivity.
    + split; [exact Hc | exact Hl].
Defined.

(** C10 at a request config without URL. *)
Lemma unparseable_url_uses_default_witness :
  getDomain RefURL.hostname (JS.or_string (url no_url) "") = "default"%string /\
  getConfig constructor (getDomain RefURL.hostname (JS.or_string (url no_url) ""))
    = Some default_policy.
Proof.
  destruct (unparseable_url_uses_default RefURL.hostname constructor default_policy
              no_url configured_constructor) as (H1 & H2 & _).
  - vm_compute; reflexivity.
  - vm_compute; reflexivity.
  - left. reflexivity.
  - split; [exact H1 | exact H2].
Defined.

(** * The further properties at concrete inputs *)

(** X1: two 503 responses from MyAnimeList, then a success: the success is
    returned after three attempts. *)
Lemma request_ends_at_first_stop_witness :
  exists r, request RefURL.hostname constructor to_mal two_failures_then_ok
              (fun _ => 0%Q) = Some r /\
    outcome r = Fulfilled ok_response /\ attempts r = 3%nat.
Proof.
  refine (proj1 (proj2 (request_ends_at_first_stop RefURL.hostname constructor to_mal
                          two_failures_then_ok (fun _ => 0%Q) mal_policy 1%nat _ _))
            2%nat ok_response _ _).
  - vm_compute; reflexivity.
  - vm_compute; reflexivity.
  - intros j Hj. destruct j as [|[|j]]; [| | lia];
      exists service_unavailable; split; reflexivity.
  - reflexivity.
Defined.

(** X2 at the same request: between 1 and 6 attempts. *)
Lemma attempts_never_exceed_budget_witness :
  exists r, request RefURL.hostname constructor to_mal two_failures_then_ok
              (fun _ => 0%Q) = Some r /\
    (1 <= attempts r)%nat /\ Z.of_nat (attempts r) <= 6.
Proof.
  destruct (request RefURL.hostname constructor to_mal two_failures_then_ok
              (fun _ => 0%Q)) as [r|] eqn:E; [| vm_compute in E; discriminate].
  exists r. split; [reflexivity |].
  destruct (attempts_never_exceed_budget RefURL.hostname constructor to_mal
              two_failures_then_ok (fun _ => 0%Q) r mal_policy) as [(H1 & H2 & _) _].
  - vm_compute; reflexivity.
  - exact E.
  - split; [exact H1 | exact H2].
Defined.

(** X4 at the same request: no wait exceeds 30000 ms. *)
Lemma retry_delays_within_cap_witness :
  exists r, request RefURL.hostname constructor to_mal two_failures_then_ok
              (fun _ => 0%Q) = Some r /\
    Forall (fun d => (d <= inject_Z 30000)%Q) (sleeps r).
Proof.
  destruct (request RefURL.hostname constructor to_mal two_failures_then_ok
              (fun _ => 0%Q)) as [r|] eqn:E; [| vm_compute in E; discriminate].
  exists r. split; [reflexivity |].
  destruct (retry_delays_within_cap RefURL.hostname constructor to_mal
              two_failures_then_ok (fun _ => 0%Q) r mal_policy) as (_ & H & _).
  - vm_compute; reflexivity.
  - exact E.
  - exact H.
Defined.

(** X5 at [baseDelay = 1000]: the second retry waits at least as long as
    the first, whatever the draws. *)
Lemma backoff_grows_until_capped_witness :
  (calculateBackoffDelay (1 # 2) 1 1000 30000 <= calculateBackoffDelay 0 2 1000 30000)%Q.
Proof.
  refine (proj1 (backoff_grows_until_capped (1 # 2) 0 1 1000 30000 _ _ _ _)).
  - lia.
  - vm_compute. discriminate.
  - vm_compute. reflexivity.
  - vm_compute. discriminate.
Defined.

(** X7 at a call made with [timeout: 0]: the axios call has a timeout. *)
Lemma every_call_carries_a_timeout_witness :
  let s := state_after RefURL.hostname 1000 call_without_timeout in
  length (sent s) = 1%nat /\ Forall (fun e => d_timeout e <> 0) (sent s).
Proof.
  intros s. split; [vm_compute; reflexivity |].
  assert (Hr : reachable_from RefURL.hostname constructor s)
    by (apply reachable_state_after; vm_compute; reflexivity).
  apply Forall_forall. intros e He.
  destruct (every_call_carries_a_timeout RefURL.hostname constructor s e
              configured_constructor Hr He) as (t & cfg & _ & _ & _ & _ & H & _).
  exact H.
Defined.

(** X9 at the run with two unconfigured sites: the ['default'] entry counts
    their calls. *)
Lemma getStats_reports_exact_counts_witness :
  let s := state_after RefURL.hostname 1000 two_unconfigured_sites in
  exists st, getStats (mgr s) !! "default"%string = Some st /\
    st_activeCount st = Z.of_nat (started_on constructor "default" (tasks s)) /\
    st_pendingCount st = waiting_on constructor "default" (tasks s).
Proof.
  intros s.
  destruct (getStats (mgr s) !! "default"%string) as [st|] eqn:E;
    [| vm_compute in E; discriminate].
  exists st. split; [reflexivity |].
  destruct (getStats_reports_exact_counts RefURL.hostname constructor s
              configured_constructor) as (_ & H & _).
  - apply reachable_state_after. vm_compute; reflexivity.
  - destruct (H "default"%string st E) as (_ & Ha & Hp & _). split; [exact Ha | exact Hp].
Defined.

(** X10 after one answered call: the MyAnimeList limiter is idle. *)
Lemma no_slot_is_leaked_witness :
  let s := state_after RefURL.hostname 1000 one_call_answered in
  exists st, getStats (mgr s) !! "api.myanimelist.net"%string = Some st /\
    st_activeCount st = 0 /\ st_pendingCount st = 0%nat.
Proof.
  intros s.
  destruct (getStats (mgr s) !! "api.myanimelist.net"%string) as [st|] eqn:E;
    [| vm_compute in E; discriminate].
  exists st. split; [reflexivity |].
  destruct (no_slot_is_leaked RefURL.hostname constructor s configured_constructor)
    as (_ & H & _).
  - apply reachable_state_after. vm_compute; reflexivity.
  - apply (H ltac:(repeat constructor) _ st E).
Defined.

(** X11 from the state where a call is backing off and another waits. *)
Lemma every_call_can_settle_witness :
  let s := state_after RefURL.hostname 1000 retry_on_single_slot in
  exists acts s', exec RefURL.hostname acts s = Some s' /\
    Forall (fun t => is_settled t = true) (tasks s').
Proof.
  intros s.
  destruct (every_call_can_settle RefURL.hostname constructor s configured_constructor
              constructor_caps_positive) as (acts & s' & H1 & _ & H2 & _).
  - apply reachable_state_after. vm_compute; reflexivity.
  - exists acts, s'. split; [exact H1 | exact H2].
Defined.

(** X13 at three calls to MyAnimeList: the queue is in submission order. *)
Lemma calls_start_in_submission_order_witness :
  let s := state_after RefURL.hostname 1000 three_calls_queued in
  exists L, heap (mgr s) !! 1%nat = Some L /\ queue L = [1%nat; 2%nat] /\
    StronglySorted lt (queue L).
Proof.
  intros s.
  destruct (heap (mgr s) !! 1%nat) as [L|] eqn:E; [| vm_compute in E; discriminate].
  exists L. split; [reflexivity |].
  split; [vm_compute in E; injection E as <-; reflexivity |].
  destruct (calls_start_in_submission_order RefURL.hostname constructor s
              configured_constructor) as (_ & _ & H).
  - apply reachable_state_after. vm_compute; reflexivity.
  - apply (H 1%nat L E).
Defined.

(** X14 at the sitemap entry of anime 21. *)
Lemma sitemap_id_is_read_from_the_url_witness :
  exists n, JS.parseInt "21" = Some n /\ 0 <= n.
Proof.
  refine (proj1 (proj2 (proj2 (sitemap_id_is_read_from_the_url
            "https://anilist.co/anime/21/One-Piece" "21" _)))).
  vm_compute; reflexivity.
Defined.

(** X17 at five ids in batches of two: three batches. *)
Lemma batches_partition_the_ids_witness :
  exists bs, concat bs = [1; 2; 3; 4; 5] /\ Z.of_nat (length bs) = 3.
Proof.
  destruct (batches_partition_the_ids [1; 2; 3; 4; 5] 2 ltac:(lia))
    as (bs & _ & H1 & _ & _ & H2).
  exists bs. split; [exact H1 | exact H2].
Defined.

(** X21 at a MyAnimeList response while a TMDB call is in flight: the TMDB
    limiter is as it was. *)
Lemma limiters_do_not_interfere_witness :
  let s := state_after RefURL.hostname 1000 mal_and_tmdb in
  let s' := state_after RefURL.hostname 1000
              (mal_and_tmdb ++ [Responds 0 (Fulfilled ok_response) 0]) in
  heap (mgr s') !! 2%nat = heap (mgr s) !! 2%nat /\
  heap (mgr s) !! 2%nat
  = Some {| limit_concurrency := 3; activeCount := 1; queue := [] |}.
Proof.
  intros s s'. split; [| vm_compute; reflexivity].
  refine (proj1 (limiters_do_not_interfere RefURL.hostname constructor s s'
                   (Responds 0 (Fulfilled ok_response) 0) 2%nat
                   configured_constructor _ _ _)).
  - apply reachable_state_after. vm_compute; reflexivity.
  - vm_compute; reflexivity.
  - vm_compute. discriminate.
Defined.
